(** * deepClone (src/inheritance.js, lines 706-721) over an explicit object heap

    The clone helper walks a graph of JavaScript values.  Object identity,
    aliasing and cycles are what its [seen] map is about, so the embedding
    keeps them: objects live in a heap and values refer to them by location.

    The fragment of JavaScript that is modelled:
    - values: the primitives and references to heap objects; callable
      objects (typeof 'function') are not part of the fragment;
    - heap objects: arrays (dense, inheriting %Array.prototype%, carrying
      only their indexed elements) and ordinary objects with a prototype
      slot and own data properties (string- or symbol-keyed, enumerable or
      not).  Accessor properties and proxies do not occur;
    - the intrinsics %Object.prototype% and %Array.prototype% are the
      standard ones; of their properties only the [__proto__] accessor of
      %Object.prototype% can intercept an assignment.

    The development, in order: the embedding of [deepClone] and the
    vocabulary of the statements; the frame ([deepClone_extends]: a run
    only allocates); termination ([deepClone_terminates]); independence
    ([deepClone_fresh]); the clone as image of the source
    ([deepClone_hom], [deepClone_top]); what holds away from own
    [__proto__] keys ([clone_plain_object], [clone_deep_equal],
    [clone_twice_deep_equal]); the statements of the specification,
    C1 to C10; and further properties of [deepClone] and of the other
    helpers that work on such objects: [mutate], [safeMutate],
    [updateName], [deepFreeze], [unsafeMerge] and [safeMerge]. *)

From Stdlib Require Import ZArith Lia.
From stdpp Require Import base option list gmap strings pretty.

Open Scope string_scope.
Open Scope list_scope.
Open Scope nat_scope.

(** ** Values and objects *)

Abbreviation loc := nat (only parsing).

Inductive val :=
  | VUndefined
  | VNull
  | VBool (b : bool)
  | VNumber (n : Z)
  | VBigInt (n : Z)
  | VString (s : string)
  | VSymbol (id : nat)
  | VObject (l : loc).

Global Instance val_eq_dec : EqDecision val.
Proof. solve_decision. Defined.

(** The [typeof] operator on the fragment ([typeof null] is ['object']). *)
Definition typeof (v : val) : string :=
  match v with
  | VUndefined => "undefined"
  | VNull => "object"
  | VBool _ => "boolean"
  | VNumber _ => "number"
  | VBigInt _ => "bigint"
  | VString _ => "string"
  | VSymbol _ => "symbol"
  | VObject _ => "object"
  end.

(** [a === b]: on the fragment, strict equality is equality of the
    primitive payload, and identity of location for objects.  (Numbers
    are carried as integers; [deepClone] never computes with them.  NaN,
    the one value not strictly equal to itself, has no representative.) *)
Definition strict_equals (a b : val) : bool := bool_decide (a = b).

Inductive pkey :=
  | KString (s : string)
  | KSymbol (id : nat).

Global Instance pkey_eq_dec : EqDecision pkey.
Proof. solve_decision. Defined.

(** An own data property. *)
Record prop := Prop_ {
  p_key : pkey;
  p_val : val;
  p_enum : bool
}.

Global Instance prop_eq_dec : EqDecision prop.
Proof. solve_decision. Defined.

(** The [[Prototype]] slot. *)
Inductive proto :=
  | ProtoNull
  | ObjectPrototype
  | ArrayPrototype
  | ProtoObj (l : loc).

Global Instance proto_eq_dec : EqDecision proto.
Proof. solve_decision. Defined.

(** Heap objects.  The properties of an ordinary object are listed in
    [[OwnPropertyKeys]] order. *)
Inductive object :=
  | JsArray (elems : list val)
  | JsObject (pr : proto) (props : list prop).

Global Instance object_eq_dec : EqDecision object.
Proof. solve_decision. Defined.


Definition proto_of (o : object) : proto :=
  match o with JsArray _ => ArrayPrototype | JsObject pr _ => pr end.

(** The heap is an arena: a location is an index, allocation appends. *)
Abbreviation heap := (list object) (only parsing).

(** The state threaded through a run: the heap, and the contents of the
    WeakMap [seen] that every recursive call receives by reference. *)
Record state := State {
  st_heap : heap;
  st_seen : gmap loc val
}.

Inductive exn :=
  | TypeError (msg : string).

Inductive completion (A : Type) :=
  | Normal (a : A)
  | Throw (e : exn).
Arguments Normal {A} a.
Arguments Throw {A} e.

(** A computation either has not finished within its fuel (or has left
    the fragment): [None]; or completes, normally or abruptly, in a new
    state.  Fuel bounds every loop and every recursion of a run. *)
Definition M (A : Type) := state → option (completion A * state).

Definition ret {A} (a : A) : M A := λ st, Some (Normal a, st).

Definition bind {A B} (m : M A) (k : A → M B) : M B :=
  λ st, match m st with
        | None => None
        | Some (Throw e, st') => Some (Throw e, st')
        | Some (Normal a, st') => k a st'
        end.

Notation "'let*' x ':=' m 'in' k" := (bind m (λ x, k))
  (at level 10, x name, m at level 100, k at level 200, only parsing).

(** ** Object operations used by deepClone *)

Definition own_prop (k : pkey) (props : list prop) : option prop :=
  List.find (λ p, bool_decide (p_key p = k)) props.

(** [Object.keys]: the own enumerable string-keyed properties. *)
Definition object_keys (props : list prop) : list string :=
  omap (λ p, match p_key p with
             | KString s => if p_enum p then Some s else None
             | KSymbol _ => None
             end) props.

(** [value[key]] for a key that [Object.keys(value)] has listed: the own
    data property answers.  (The inherited lookup JavaScript falls back to
    when the property is missing is outside the fragment.) *)
Definition get (l : loc) (key : string) : M val :=
  λ st, match st_heap st !! l with
        | Some (JsObject _ props) =>
            match own_prop (KString key) props with
            | Some p => Some (Normal (p_val p), st)
            | None => None
            end
        | _ => None
        end.

Definition set_heap (l : loc) (o : object) (st : state) : state :=
  State (<[l := o]> (st_heap st)) (st_seen st).

(** [arr.push(w)]. *)
Definition push (arr : loc) (w : val) : M unit :=
  λ st, match st_heap st !! arr with
        | Some (JsArray ws) => Some (Normal tt, set_heap arr (JsArray (ws ++ [w])) st)
        | _ => None
        end.

(** Replace the value of an own property, keeping its place. *)
Definition update_prop (k : pkey) (w : val) (props : list prop) : list prop :=
  map (λ p, if bool_decide (p_key p = k) then Prop_ k w (p_enum p) else p) props.

(** Does an assignment to [__proto__] that starts its lookup at prototype
    [p] reach the accessor of %Object.prototype%?  An own data property of
    that name on the way shadows it; a chain that ends in null never gets
    there. *)
Fixpoint reaches_proto_accessor (n : nat) (h : heap) (p : proto) : option bool :=
  match p with
  | ProtoNull => Some false
  | ObjectPrototype | ArrayPrototype => Some true
  | ProtoObj l =>
      match n with
      | 0 => None
      | S n' =>
          match h !! l with
          | Some (JsObject p' props) =>
              match own_prop (KString "__proto__") props with
              | Some _ => Some false
              | None => reaches_proto_accessor n' h p'
              end
          | Some (JsArray _) => Some true  (* on to %Array.prototype% *)
          | None => None
          end
      end
  end.

(** Is object [o] on the prototype chain that starts at [p]?  This is
    the search OrdinarySetPrototypeOf makes before it accepts [p] as the
    prototype of [o]. *)
Fixpoint on_proto_chain (n : nat) (h : heap) (o : loc) (p : proto) : option bool :=
  match p with
  | ProtoNull | ObjectPrototype | ArrayPrototype => Some false
  | ProtoObj l =>
      if bool_decide (l = o) then Some true
      else match n with
           | 0 => None
           | S n' =>
               match h !! l with
               | Some ob => on_proto_chain n' h o (proto_of ob)
               | None => None
               end
           end
  end.

(** OrdinarySetPrototypeOf on an extensible ordinary object, as called by
    the [__proto__] setter, which throws when it is refused. *)
Definition set_prototype_of (n : nat) (o : loc) (p : proto) : M unit :=
  λ st, match st_heap st !! o with
        | Some (JsObject cur props) =>
            if bool_decide (p = cur) then Some (Normal tt, st)
            else match on_proto_chain n (st_heap st) o p with
                 | None => None
                 | Some true => Some (Throw (TypeError "Cyclic __proto__ value"), st)
                 | Some false => Some (Normal tt, set_heap o (JsObject p props) st)
                 end
        | _ => None
        end.

(** The setter half of [Object.prototype.__proto__]: a value that is
    neither an object nor null is ignored. *)
Definition proto_setter (n : nat) (o : loc) (w : val) : M unit :=
  match w with
  | VNull => set_prototype_of n o ProtoNull
  | VObject c => set_prototype_of n o (ProtoObj c)
  | _ => ret tt
  end.

(** [out[key] = w] on an ordinary object.  An own property is
    overwritten.  Otherwise the assignment looks up the prototype chain
    for a property that intercepts it: the objects of the fragment and
    the intrinsics hold writable data properties, which do not, so the
    only interception is that of the key [__proto__] by the accessor of
    %Object.prototype%.  Without interception the assignment creates an
    own enumerable data property, last in key order. *)
Definition assign (n : nat) (out : loc) (key : string) (w : val) : M unit :=
  λ st, match st_heap st !! out with
        | Some (JsObject pr props) =>
            match own_prop (KString key) props with
            | Some _ =>
                Some (Normal tt, set_heap out (JsObject pr (update_prop (KString key) w props)) st)
            | None =>
                let create :=
                  Some (Normal tt,
                        set_heap out (JsObject pr (props ++ [Prop_ (KString key) w true])) st) in
                if bool_decide (key = "__proto__") then
                  match reaches_proto_accessor n (st_heap st) pr with
                  | None => None
                  | Some true => proto_setter n out w st
                  | Some false => create
                  end
                else create
            end
        | _ => None
        end.

(** ** The loops *)

(** [for (const v of value) body]: the array iterator reads the array at
    [l] afresh at every step. *)
Fixpoint for_of (n : nat) (body : val → M unit) (l : loc) (i : nat) : M unit :=
  λ st, match n with
        | 0 => None
        | S n' =>
            match st_heap st !! l with
            | Some (JsArray elems) =>
                match elems !! i with
                | None => Some (Normal tt, st)
                | Some v => bind (body v) (λ _, for_of n' body l (S i)) st
                end
            | _ => None
            end
        end.

(** [for (const key of keys) body] over the array [Object.keys] returned,
    which nothing else can reach. *)
Fixpoint for_keys (body : string → M unit) (keys : list string) : M unit :=
  match keys with
  | [] => ret tt
  | key :: rest => bind (body key) (λ _, for_keys body rest)
  end.

(** ** deepClone *)

(** Allocate [o] and record it in [seen] under [l]:
    [const x = ...; seen.set(value, x)]. *)
Definition alloc_seen (l : loc) (o : object) (st : state) : loc * state :=
  let c := length (st_heap st) in
  (c, State (st_heap st ++ [o]) (<[l := VObject c]> (st_seen st))).

Fixpoint deepClone (fuel : nat) (value : val) : M val :=
  λ st,
  match fuel with
  | 0 => None
  | S n =>
      match value with
      | VObject l =>
          (* if (seen.has(value)) return seen.get(value); *)
          match st_seen st !! l with
          | Some c => Some (Normal c, st)
          | None =>
              match st_heap st !! l with
              | None => None
              | Some (JsArray _) =>
                  (* if (Array.isArray(value)) {
                       const arr = []; seen.set(value, arr);
                       for (const v of value) arr.push(deepClone(v, seen));
                       return arr; } *)
                  let '(arr, st1) := alloc_seen l (JsArray []) st in
                  bind (for_of n (λ v, let* w := deepClone n v in push arr w) l 0)
                       (λ _, ret (VObject arr)) st1
              | Some (JsObject _ props) =>
                  (* const out = {}; seen.set(value, out);
                     for (const key of Object.keys(value))
                       out[key] = deepClone(value[key], seen);
                     return out; *)
                  let '(out, st1) := alloc_seen l (JsObject ObjectPrototype []) st in
                  bind (for_keys (λ key, let* v := get l key in
                                         let* w := deepClone n v in
                                         assign n out key w)
                                 (object_keys props))
                       (λ _, ret (VObject out)) st1
              end
          end
      | _ =>
          (* if (value === null || typeof value !== 'object') return value; *)
          Some (Normal value, st)
      end
  end.

(** [deepClone(value)]: the default parameter makes a new, empty WeakMap,
    which the caller never sees. *)
Definition clone (fuel : nat) (value : val) (h : heap) : option (completion val * heap) :=
  match deepClone fuel value (State h ∅) with
  | Some (c, st) => Some (c, st_heap st)
  | None => None
  end.

(** ** Vocabulary of the statements *)

(** The bodies of the two loops of [deepClone], by name. *)
Definition array_body (n : nat) (arr : loc) : val → M unit :=
  λ v, let* w := deepClone n v in push arr w.

Definition object_body (n : nat) (l out : loc) : string → M unit :=
  λ key, let* v := get l key in
         let* w := deepClone n v in
         assign n out key w.

(** A later state extends an earlier one: every object that existed is
    still there, unchanged, and [seen] has only gained entries. *)
Definition extends (st st' : state) : Prop :=
  st_heap st `prefix_of` st_heap st' ∧ st_seen st ⊆ st_seen st'.


(** References stored in the fields of heap objects.  [fields] lists the
    values an object holds: the elements of an array, the values of all
    own properties of an ordinary object. *)
Definition fields (o : object) : list val :=
  match o with
  | JsArray elems => elems
  | JsObject _ props => p_val <$> props
  end.

(** A value is closed below [n] when it does not refer to a location
    [n] or beyond; a heap is closed when no field of any of its objects
    dangles. *)
Definition val_closed (n : nat) (v : val) : bool :=
  match v with
  | VObject l => bool_decide (l < n)
  | _ => true
  end.

Definition closed_heap (h : heap) : bool :=
  forallb (λ o, forallb (val_closed (length h)) (fields o)) h.

(** A prototype chain that ends: it reaches null or an intrinsic after
    finitely many objects of the heap. *)
Inductive chain_ok (h : heap) : proto → Prop :=
  | chain_ok_null : chain_ok h ProtoNull
  | chain_ok_object : chain_ok h ObjectPrototype
  | chain_ok_array : chain_ok h ArrayPrototype
  | chain_ok_step l o :
      h !! l = Some o → chain_ok h (proto_of o) → chain_ok h (ProtoObj l).

(** How many of the locations below [n0] have no entry in [seen]. *)
Definition unseen (n0 : nat) (seen : gmap loc val) : nat :=
  length (filter (λ l, seen !! l = None) (seq 0 n0)).

(** A reference to an object allocated at or after [n0]. *)
Definition fresh_val (n0 : nat) (h : heap) (w : val) : Prop :=
  match w with
  | VObject c => n0 ≤ c < length h
  | _ => True
  end.

(** What the termination argument keeps true of every state of a run
    that started from the source heap [h0] with an empty [seen]. *)
Record term_inv (h0 : heap) (st : state) : Prop := TermInv {
  ti_prefix : h0 `prefix_of` st_heap st;
  ti_seen : ∀ l w, st_seen st !! l = Some w →
            ∃ c, w = VObject c ∧ length h0 ≤ c < length (st_heap st);
  ti_chain : ∀ c, length h0 ≤ c < length (st_heap st) →
             chain_ok (st_heap st) (ProtoObj c)
}.

(** What the independence argument keeps true: [seen] answers only with
    objects allocated during the run (at or after [n0]), and those objects
    hold references to such objects only, in their fields and in their
    prototype slot. *)
Definition fresh_proto (n0 : nat) (h : heap) (p : proto) : Prop :=
  match p with
  | ProtoObj c => n0 ≤ c < length h
  | _ => True
  end.

Record fresh_inv (n0 : nat) (st : state) : Prop := FreshInv {
  fi_len : n0 ≤ length (st_heap st);
  fi_seen : ∀ l w, st_seen st !! l = Some w → fresh_val n0 (st_heap st) w;
  fi_obj : ∀ c o, n0 ≤ c → st_heap st !! c = Some o →
           Forall (fresh_val n0 (st_heap st)) (fields o) ∧
           fresh_proto n0 (st_heap st) (proto_of o)
}.

(** ** Graphs *)

(** The edges of the value graph that [deepClone] follows: the elements
    of an array, the values of the own enumerable string-keyed properties
    of an ordinary object. *)
Definition children (o : object) : list val :=
  match o with
  | JsArray elems => elems
  | JsObject _ props =>
      omap (λ p, match p_key p with
                 | KString _ => if p_enum p then Some (p_val p) else None
                 | KSymbol _ => None
                 end) props
  end.

(** Every reference an object holds: all its fields and its prototype. *)
Definition links (o : object) : list val :=
  fields o ++ match proto_of o with
              | ProtoObj c => [VObject c]
              | _ => []
              end.

(** [reach edges h v l]: the object at [l] can be reached from the value
    [v] along [edges]. *)
Inductive reach (edges : object → list val) (h : heap) : val → loc → Prop :=
  | reach_here l o : h !! l = Some o → reach edges h (VObject l) l
  | reach_step l o v l' :
      h !! l = Some o → v ∈ edges o → reach edges h v l' →
      reach edges h (VObject l) l'.

(** ** The clone as the image of the source under [seen] *)

(** No object lists a property key twice. *)
Definition distinct_keys (h : heap) : bool :=
  forallb (λ o, match o with
                | JsArray _ => true
                | JsObject _ props => bool_decide (NoDup (p_key <$> props))
                end) h.

Definition wf_heap (h : heap) : bool := closed_heap h && distinct_keys h.

(** The clone of a value, once [seen] knows the clones of all objects. *)
Definition image_val (seen : gmap loc val) (v : val) : option val :=
  match v with
  | VObject l => seen !! l
  | _ => Some v
  end.

(** The prototype the [__proto__] setter leaves behind when called with [w]. *)
Definition set_proto_to (pr : proto) (w : val) : proto :=
  match w with
  | VNull => ProtoNull
  | VObject c => ProtoObj c
  | _ => pr
  end.

(** The clone under construction is a prototype and a list of properties;
    [apply_key] is what the assignment [out[key] = w] makes of it when
    [key] is new to it. *)
Definition apply_key (acc : proto * list prop) (key : string) (w : val)
    : proto * list prop :=
  if bool_decide (key = "__proto__") then (set_proto_to acc.1 w, acc.2)
  else (acc.1, acc.2 ++ [Prop_ (KString key) w true]).

Definition replay_key (seen : gmap loc val) (props : list prop)
    (acc : option (proto * list prop)) (key : string) : option (proto * list prop) :=
  match acc with
  | None => None
  | Some a =>
      match own_prop (KString key) props with
      | None => None
      | Some p =>
          match image_val seen (p_val p) with
          | None => None
          | Some w => Some (apply_key a key w)
          end
      end
  end.

(** The clone of the properties [props] after the keys [keys] have been
    copied, starting from the empty plain object. *)
Definition replay (seen : gmap loc val) (props : list prop) (keys : list string)
    : option (proto * list prop) :=
  foldl (replay_key seen props) (Some (ObjectPrototype, [])) keys.

(** [o'] is the clone of [o] as far as its first [k] elements or keys. *)
Definition image_upto (seen : gmap loc val) (k : nat) (o o' : object) : Prop :=
  match o, o' with
  | JsArray vs, JsArray ws =>
      Forall2 (λ v w, image_val seen v = Some w) (take k vs) ws
  | JsObject _ props, JsObject pr ps =>
      replay seen props (take k (object_keys props)) = Some (pr, ps)
  | _, _ => False
  end.

(** [o'] is the finished clone of [o]. *)
Definition image_of (seen : gmap loc val) (o o' : object) : Prop :=
  match o, o' with
  | JsArray vs, JsArray ws =>
      Forall2 (λ v w, image_val seen v = Some w) vs ws
  | JsObject _ props, JsObject pr ps =>
      replay seen props (object_keys props) = Some (pr, ps)
  | _, _ => False
  end.

(** The source object at [l] has a finished clone. *)
Definition done_at (h0 : heap) (st : state) (l : loc) : Prop :=
  ∃ c o o', st_seen st !! l = Some (VObject c) ∧ h0 !! l = Some o ∧
            st_heap st !! c = Some o' ∧ image_of (st_seen st) o o'.

(** What holds of every state of a run that started from the source heap
    [h0] with an empty [seen]: [seen] is a one-to-one correspondence
    between source objects met so far and the objects allocated so far,
    and each allocated object is the clone, finished or in progress, of
    its source. *)
Record hom_inv (h0 : heap) (st : state) : Prop := HomInv {
  hi_prefix : h0 `prefix_of` st_heap st;
  hi_seen : ∀ l w, st_seen st !! l = Some w →
            l < length h0 ∧ ∃ c, w = VObject c ∧ length h0 ≤ c < length (st_heap st);
  hi_inj : ∀ l1 l2 w, st_seen st !! l1 = Some w → st_seen st !! l2 = Some w → l1 = l2;
  hi_surj : ∀ c, length h0 ≤ c < length (st_heap st) →
            ∃ l, st_seen st !! l = Some (VObject c);
  hi_image : ∀ l c, st_seen st !! l = Some (VObject c) →
             ∃ o o' k, h0 !! l = Some o ∧ st_heap st !! c = Some o' ∧
                       image_upto (st_seen st) k o o'
}.

(** What a call that completes normally with [w] has achieved: the
    correspondence holds again, [w] is the clone of the argument, and every
    source object that entered [seen] during the call has a finished clone
    and is reachable from the argument. *)
Definition hom_post (h0 : heap) (v w : val) (st st' : state) : Prop :=
  hom_inv h0 st' ∧ image_val (st_seen st') v = Some w ∧
  ∀ l, st_seen st !! l = None → is_Some (st_seen st' !! l) →
       done_at h0 st' l ∧ reach children h0 v l.

(** ** Reading objects *)

(** A slot of a container: an index of an array, a string key of an
    ordinary object. *)
Inductive slot :=
  | Index (i : nat)
  | Key (k : string).

Global Instance slot_eq_dec : EqDecision slot.
Proof. solve_decision. Defined.

(** The field of an object at a slot: an element, or the value of an own
    enumerable string-keyed property. *)
Definition field (o : object) (s : slot) : option val :=
  match o, s with
  | JsArray elems, Index i => elems !! i
  | JsObject _ props, Key k =>
      match own_prop (KString k) props with
      | Some p => if p_enum p then Some (p_val p) else None
      | None => None
      end
  | _, _ => None
  end.

(** Structural comparison of two objects, given the comparison [eq] of
    what they hold: same container kind; for arrays, same length and
    equal elements in the same order; for ordinary objects, the same
    enumerable string keys and equal values under each. *)
Definition obj_equal (eq : val → val → bool) (o1 o2 : object) : bool :=
  match o1, o2 with
  | JsArray xs, JsArray ys =>
      bool_decide (length xs = length ys) &&
      forallb (λ xy, eq xy.1 xy.2) (zip xs ys)
  | JsObject _ ps, JsObject _ qs =>
      forallb (λ k, bool_decide (k ∈ object_keys qs)) (object_keys ps) &&
      forallb (λ k, bool_decide (k ∈ object_keys ps)) (object_keys qs) &&
      forallb (λ k, match field o1 (Key k), field o2 (Key k) with
                    | Some x, Some y => eq x y
                    | _, _ => false
                    end) (object_keys ps)
  | _, _ => false
  end.

(** Structural comparison of two value graphs, each in its heap: same
    container kinds, same keys, same element order, same primitive
    leaves.  Fuel bounds the depth. *)
Fixpoint deep_equal (n : nat) (h1 h2 : heap) (a b : val) : bool :=
  match a, b with
  | VObject l1, VObject l2 =>
      match n with
      | 0 => false
      | S n' =>
          match h1 !! l1, h2 !! l2 with
          | Some o1, Some o2 => obj_equal (deep_equal n' h1 h2) o1 o2
          | _, _ => false
          end
      end
  | VObject _, _ | _, VObject _ => false
  | _, _ => bool_decide (a = b)
  end.

(** No object of the heap has an own enumerable property named [__proto__]. *)
Definition no_proto_key (h : heap) : bool :=
  forallb (λ o, match o with
                | JsArray _ => true
                | JsObject _ props => negb (bool_decide ("__proto__" ∈ object_keys props))
                end) h.

(** ** The shape of one call *)


(** The loop that fills the container [c] from the source at [l]. *)
Definition populate (n : nat) (l c : loc) (o : object) : M unit :=
  match o with
  | JsArray _ => for_of n (array_body n c) l 0
  | JsObject _ props => for_keys (object_body n l c) (object_keys props)
  end.



(** [v[s]] read off the heap, for a slot the object owns. *)
Definition read (h : heap) (v : val) (s : slot) : option val :=
  match v with
  | VObject l =>
      match h !! l with
      | Some o => field o s
      | None => None
      end
  | _ => None
  end.

(** ** Example heaps *)

(** [let c = {}; c.self = c;] with [c] at location 0. *)
Definition self_ref : heap :=
  [JsObject ObjectPrototype [Prop_ (KString "self") (VObject 0) true]].

(** [JSON.parse('{"__proto__": 5}')]: an own property named [__proto__]. *)
Definition proto_five : heap :=
  [JsObject ObjectPrototype [Prop_ (KString "__proto__") (VNumber 5) true]].

(** [JSON.parse('{"__proto__": null}')]. *)
Definition proto_null : heap :=
  [JsObject ObjectPrototype [Prop_ (KString "__proto__") VNull true]].

(** [const v = JSON.parse('{"__proto__": null}'); v["__proto__"] = v;]:
    the own property [__proto__] of [v] refers to [v]. *)
Definition proto_loop : heap :=
  [JsObject ObjectPrototype [Prop_ (KString "__proto__") (VObject 0) true]].

(** [const s = JSON.parse('{"__proto__": null}');
    const v = JSON.parse('{"__proto__": 0, "a": 0}');
    v["__proto__"] = s; v.a = s;]: two fields of [v], at location 0,
    refer to the one object [s], at location 1; both objects own a
    property named [__proto__]. *)
Definition proto_shared : heap :=
  [JsObject ObjectPrototype [Prop_ (KString "__proto__") (VObject 1) true;
                             Prop_ (KString "a") (VObject 1) true];
   JsObject ObjectPrototype [Prop_ (KString "__proto__") VNull true]].

(** [const s = {}; const v = {a: s, b: [s, "x"]};] *)
Definition shared : heap :=
  [JsObject ObjectPrototype [Prop_ (KString "a") (VObject 1) true;
                             Prop_ (KString "b") (VObject 2) true];
   JsObject ObjectPrototype [];
   JsArray [VObject 1; VString "x"]].

(** The graph below [v] along [children] unfolds to depth at most [k]:
    it is finite and has no cycle. *)
Fixpoint bounded (k : nat) (h : heap) (v : val) : bool :=
  match v with
  | VObject l =>
      match k with
      | 0 => false
      | S k' =>
          match h !! l with
          | Some o => forallb (bounded k' h) (children o)
          | None => false
          end
      end
  | _ => true
  end.

(** What [deepClone] leaves in the heap after cloning [shared] from its
    root: the one clone of [s], at location 4, is referred to twice. *)
Definition shared_cloned : heap :=
  shared ++
  [JsObject ObjectPrototype [Prop_ (KString "a") (VObject 4) true;
                             Prop_ (KString "b") (VObject 5) true];
   JsObject ObjectPrototype [];
   JsArray [VObject 4; VString "x"]].

(** * The other helpers of the guides, over the same heap

    [mutate] and [safeMutate] (lines 604-617), [deepFreeze] (748-756),
    [updateName] (779-781), [unsafeMerge] and [safeMerge] (1410-1432)
    read and write the objects [deepClone] copies.  They need a little
    more of the language than [deepClone] does: the properties a value
    has when it is used as an object, the order in which an object lists
    its keys, lookup along the prototype chain, [for]-[in], and the
    integrity level [Object.freeze] sets. *)

(** ** Values as objects *)

(** The property key of an array index. *)
Definition index_key (i : nat) : string := pretty i.

Definition digit (c : Ascii.ascii) : option N :=
  let n := Ascii.N_of_ascii c in
  if bool_decide (48 ≤ n ≤ 57)%N then Some (n - 48)%N else None.

Fixpoint digits (acc : N) (s : string) : option N :=
  match s with
  | EmptyString => Some acc
  | String c s' =>
      match digit c with
      | Some d => digits (10 * acc + d)%N s'
      | None => None
      end
  end.

(** Is the string an array index: the canonical decimal numeral of an
    integer below 2^32 - 1? *)
Definition array_index (s : string) : option N :=
  match s with
  | EmptyString => None
  | _ =>
      match digits 0 s with
      | Some n =>
          if bool_decide (pretty n = s) && bool_decide (n < 4294967295)%N
          then Some n else None
      | None => None
      end
  end.

(** The own properties of an array: its elements under their indices,
    then [length], which is not enumerable. *)
Definition array_props (elems : list val) : list prop :=
  imap (λ i v, Prop_ (KString (index_key i)) v true) elems ++
  [Prop_ (KString "length") (VNumber (Z.of_nat (length elems))) false].

(** The own properties of the wrapper of a string: its characters under
    their indices, then [length].  (The characters of a [string] stand
    for the code units of the JavaScript string.) *)
Definition string_props (s : string) : list prop :=
  imap (λ i c, Prop_ (KString (index_key i)) (VString (String c EmptyString)) true)
       (String.list_ascii_of_string s) ++
  [Prop_ (KString "length") (VNumber (Z.of_nat (String.length s))) false].

Definition own_props (o : object) : list prop :=
  match o with
  | JsArray elems => array_props elems
  | JsObject _ props => props
  end.

(** The own properties of [ToObject(v)], in [[OwnPropertyKeys]] order.
    The wrappers of numbers, booleans, symbols and bigints have none;
    undefined and null have no wrapper. *)
Definition props_of (h : heap) (v : val) : option (list prop) :=
  match v with
  | VObject l => own_props <$> h !! l
  | VString s => Some (string_props s)
  | VUndefined | VNull => None
  | _ => Some []
  end.

(** [Object.getOwnPropertyNames]: the own string keys, enumerable or not. *)
Definition string_keys (props : list prop) : list string :=
  omap (λ p, match p_key p with
             | KString s => Some s
             | KSymbol _ => None
             end) props.

(** ** Creating properties *)

(** [[OwnPropertyKeys]] lists array indices first, in ascending order,
    then the other strings, then the symbols, both in order of creation.
    [goes_before p q]: a newly created [p] is listed before the existing
    [q]. *)
Definition goes_before (p q : prop) : bool :=
  match p_key p, p_key q with
  | KSymbol _, _ => false
  | KString _, KSymbol _ => true
  | KString s, KString t =>
      match array_index s, array_index t with
      | Some i, Some j => bool_decide (i < j)%N
      | Some _, None => true
      | None, _ => false
      end
  end.

Fixpoint add_prop (p : prop) (props : list prop) : list prop :=
  match props with
  | [] => [p]
  | q :: rest => if goes_before p q then p :: props else q :: add_prop p rest
  end.

(** CreateDataProperty on an extensible ordinary object: an existing
    property keeps its place and becomes an enumerable data property with
    the new value; a new one takes its place in key order. *)
Definition create_data_property (k : pkey) (w : val) (props : list prop) : list prop :=
  match own_prop k props with
  | Some _ => map (λ p, if bool_decide (p_key p = k) then Prop_ k w true else p) props
  | None => add_prop (Prop_ k w true) props
  end.

(** CopyDataProperties, the [...source] of an object literal: the own
    enumerable properties of the source, string- and symbol-keyed, each
    read and defined on the new object; nothing for undefined and null. *)
Definition copy_data_properties (h : heap) (source : val) : option (list prop) :=
  match source with
  | VUndefined | VNull => Some []
  | _ => filter (λ p, p_enum p = true) <$> props_of h source
  end.

Definition throw {A} (e : exn) : M A := λ st, Some (Throw e, st).

(** The object an object literal evaluates to. *)
Definition alloc (o : object) : M loc :=
  λ st, Some (Normal (length (st_heap st)), State (st_heap st ++ [o]) (st_seen st)).

(** ** Assignment *)

Definition nullish_name (v : val) : string :=
  match v with VNull => "null" | _ => "undefined" end.

(** [target[key] = w].  On undefined and null it throws.  On an ordinary
    object it is the assignment [deepClone] makes, with a created property
    put at its place in key order.  On an array it overwrites an element
    or appends the next one; other keys of an array, and the properties
    of primitives (assignments that fail silently or throw, by the mode of
    the code) are outside the fragment.  This is the assignment where
    no frozen object is in the way, as on an object that has just been
    created; [put_sloppy], below, is the assignment in general. *)
Definition put (n : nat) (target : val) (key : string) (w : val) : M unit :=
  λ st,
  match target with
  | VUndefined | VNull =>
      throw (TypeError (String.append "Cannot set properties of "
                         (String.append (nullish_name target)
                           (String.append " (setting '" (String.append key "')"))))) st
  | VObject l =>
      match st_heap st !! l with
      | Some (JsObject pr props) =>
          match own_prop (KString key) props with
          | Some _ =>
              Some (Normal tt, set_heap l (JsObject pr (update_prop (KString key) w props)) st)
          | None =>
              let create :=
                Some (Normal tt,
                      set_heap l (JsObject pr (add_prop (Prop_ (KString key) w true) props)) st) in
              if bool_decide (key = "__proto__") then
                match reaches_proto_accessor n (st_heap st) pr with
                | None => None
                | Some true => proto_setter n l w st
                | Some false => create
                end
              else create
          end
      | Some (JsArray elems) =>
          match array_index key with
          | Some i =>
              if bool_decide (i < N.of_nat (length elems))%N then
                Some (Normal tt, set_heap l (JsArray (<[N.to_nat i := w]> elems)) st)
              else if bool_decide (i = N.of_nat (length elems)) then
                Some (Normal tt, set_heap l (JsArray (elems ++ [w])) st)
              else None
          | None => None
          end
      | None => None
      end
  | _ => None
  end.

(** ** Lookup along the prototype chain *)

(** Where the search for a string key ends: at an own property of an
    object of the heap (or of a wrapper), at an intrinsic prototype, or
    nowhere. *)
Inductive lookup_result :=
  | Found (w : val)
  | Intrinsic
  | Missing.

Fixpoint lookup_chain (n : nat) (h : heap) (p : proto) (key : string)
    : option lookup_result :=
  match p with
  | ProtoNull => Some Missing
  | ObjectPrototype | ArrayPrototype => Some Intrinsic
  | ProtoObj l =>
      match n with
      | 0 => None
      | S n' =>
          match h !! l with
          | Some o =>
              match own_prop (KString key) (own_props o) with
              | Some p => Some (Found (p_val p))
              | None => lookup_chain n' h (proto_of o) key
              end
          | None => None
          end
      end
  end.

Definition lookup (n : nat) (h : heap) (v : val) (key : string) : option lookup_result :=
  match v with
  | VObject l => lookup_chain n h (ProtoObj l) key
  | _ =>
      match props_of h v with
      | Some props =>
          match own_prop (KString key) props with
          | Some p => Some (Found (p_val p))
          | None => Some Intrinsic
          end
      | None => None
      end
  end.

(** [v[key]].  A search that ends at an intrinsic prototype would answer
    with a built-in or with undefined; that is outside the fragment. *)
Definition get_value (n : nat) (v : val) (key : string) : M val :=
  λ st,
  match v with
  | VUndefined | VNull =>
      throw (TypeError (String.append "Cannot read properties of "
                         (String.append (nullish_name v)
                           (String.append " (reading '" (String.append key "')"))))) st
  | _ =>
      match lookup n (st_heap st) v key with
      | Some (Found w) => Some (Normal w, st)
      | Some Missing => Some (Normal VUndefined, st)
      | Some Intrinsic | None => None
      end
  end.

(** [source.hasOwnProperty(key)]: the method is looked up along the chain
    of [source].  The built-in is inherited from %Object.prototype%, which
    every intrinsic prototype leads to.  A property of that name found
    before holds a value that is not callable (the fragment has no
    functions), and a chain that ends in null holds none: the call
    throws. *)
Definition call_hasOwnProperty (n : nat) (source : val) (key : string) : M bool :=
  λ st,
  match lookup n (st_heap st) source "hasOwnProperty" with
  | Some Intrinsic =>
      match props_of (st_heap st) source with
      | Some props => Some (Normal (bool_decide (is_Some (own_prop (KString key) props))), st)
      | None => None
      end
  | Some (Found _) | Some Missing =>
      throw (TypeError "source.hasOwnProperty is not a function") st
  | None => None
  end.

(** ** for-in *)

(** What the loop visits is laid down by ECMAScript only as long as the
    objects stay as they are while it runs; for the rest the model
    follows V8, the engine of Node.  The keys are collected when the loop
    starts: for the object and then for each object on its prototype
    chain, the own string keys in their order, without those met before
    on an object nearer to the source, and only the enumerable ones are
    kept.  [handed_out] is what one object contributes, out of its names
    [remaining], and [met] the keys met when it is done. *)
Fixpoint handed_out (props : list prop) (remaining visited : list string) : list string :=
  match remaining with
  | [] => []
  | r :: rest =>
      if bool_decide (r ∈ visited) then handed_out props rest visited
      else
        match own_prop (KString r) props with
        | None => handed_out props rest visited
        | Some p =>
            if p_enum p then r :: handed_out props rest (r :: visited)
            else handed_out props rest (r :: visited)
        end
  end.

Fixpoint met (props : list prop) (remaining visited : list string) : list string :=
  match remaining with
  | [] => visited
  | r :: rest =>
      if bool_decide (r ∈ visited) then met props rest visited
      else
        match own_prop (KString r) props with
        | None => met props rest visited
        | Some _ => met props rest (r :: visited)
        end
  end.

(** The keys collected from the prototype [p] on.  The intrinsic
    prototypes have no enumerable property. *)
Fixpoint for_in_keys (n : nat) (h : heap) (p : proto) (visited : list string)
    : option (list string) :=
  match p with
  | ProtoObj l =>
      match n with
      | 0 => None
      | S n' =>
          match h !! l with
          | Some o =>
              let names := string_keys (own_props o) in
              match for_in_keys n' h (proto_of o) (met (own_props o) names visited) with
              | Some rest => Some (handed_out (own_props o) names visited ++ rest)
              | None => None
              end
          | None => None
          end
      end
  | _ => Some []
  end.

(** When the turn of a key comes, it is handed to the body only if a
    lookup from the source still finds a property and that property is
    enumerable. *)
Fixpoint enumerable_on_chain (n : nat) (h : heap) (p : proto) (key : string)
    : option bool :=
  match p with
  | ProtoObj l =>
      match n with
      | 0 => None
      | S n' =>
          match h !! l with
          | Some o =>
              match own_prop (KString key) (own_props o) with
              | Some q => Some (p_enum q)
              | None => enumerable_on_chain n' h (proto_of o) key
              end
          | None => None
          end
      end
  | _ => Some false
  end.

Fixpoint for_in_loop (n : nat) (body : string → M unit) (l : loc) (keys : list string)
    : M unit :=
  match keys with
  | [] => ret tt
  | key :: rest =>
      λ st,
      match enumerable_on_chain n (st_heap st) (ProtoObj l) key with
      | None => None
      | Some true => bind (body key) (λ _, for_in_loop n body l rest) st
      | Some false => for_in_loop n body l rest st
      end
  end.

(** [for (key in source) body]: nothing for undefined and null; the
    enumerable own keys of the wrapper for another primitive, which
    nothing can change. *)
Definition for_in (n : nat) (body : string → M unit) (source : val) : M unit :=
  λ st,
  match source with
  | VUndefined | VNull => Some (Normal tt, st)
  | VObject l =>
      match for_in_keys n (st_heap st) (ProtoObj l) [] with
      | Some keys => for_in_loop n body l keys st
      | None => None
      end
  | _ =>
      match props_of (st_heap st) source with
      | Some props => for_keys body (handed_out props (string_keys props) []) st
      | None => None
      end
  end.

(** ** Assignment and frozen objects *)

(** [Object.freeze] makes an object non-extensible and its properties
    read-only.  [fr] is the set of the locations of the frozen objects,
    as in [deepFreeze] below; every other object is extensible and its
    properties are writable.

    Does the search for [key] from the prototype [p] on end at a
    property of a frozen object?  The properties of the intrinsic
    prototypes are writable. *)
Fixpoint read_only_above (fr : gset loc) (n : nat) (h : heap) (p : proto) (key : string)
    : option bool :=
  match p with
  | ProtoObj l =>
      match n with
      | 0 => None
      | S n' =>
          match h !! l with
          | Some o =>
              match own_prop (KString key) (own_props o) with
              | Some _ => Some (bool_decide (l ∈ fr))
              | None => read_only_above fr n' h (proto_of o) key
              end
          | None => None
          end
      end
  | _ => Some false
  end.

(** OrdinarySet refuses to write [key] on the object at [l] when the
    property it finds first, on the object or on its prototype chain, is
    read-only, and when there is nothing to overwrite and the object
    cannot take a new property. *)
Definition refused (fr : gset loc) (n : nat) (h : heap) (l : loc) (key : string)
    : option bool :=
  match h !! l with
  | Some o =>
      match own_prop (KString key) (own_props o) with
      | Some _ => Some (bool_decide (l ∈ fr))
      | None =>
          match read_only_above fr n h (proto_of o) key with
          | Some true => Some true
          | Some false => Some (bool_decide (l ∈ fr))
          | None => None
          end
      end
  | None => None
  end.

(** [target[key] = w] in code that is not strict, as the code of the
    guides is: a refused write is dropped and the program goes on (strict
    code would throw).  The same holds of a write to a primitive other
    than undefined and null, which goes to a wrapper that is discarded.
    The key [__proto__] on a frozen object, where the accessor may be the
    one to refuse, is outside the fragment. *)
Definition put_sloppy (fr : gset loc) (n : nat) (target : val) (key : string) (w : val)
    : M unit :=
  λ st,
  match target with
  | VUndefined | VNull => put n target key w st
  | VObject l =>
      match refused fr n (st_heap st) l key with
      | Some false => put n target key w st
      | Some true =>
          if bool_decide (key = "__proto__") then None else Some (Normal tt, st)
      | None => None
      end
  | _ => Some (Normal tt, st)
  end.

(** ** mutate, safeMutate, updateName *)

(** [function mutate(o) { o.value = 'mutated'; }] *)
Definition mutate (fr : gset loc) (n : nat) (o : val) : M val :=
  let* _ := put_sloppy fr n o "value" (VString "mutated") in
  ret VUndefined.

(** [function safeMutate(o) {
       const copy = { ...o };
       copy.value = 'safe';
       return copy; }]
    The copy has just been created and inherits from %Object.prototype%:
    no frozen object is in the way of the assignment. *)
Definition safeMutate (n : nat) (o : val) : M val :=
  λ st,
  match copy_data_properties (st_heap st) o with
  | None => None
  | Some props =>
      (let* copy := alloc (JsObject ObjectPrototype props) in
       let* _ := put n (VObject copy) "value" (VString "safe") in
       ret (VObject copy)) st
  end.

(** [function updateName(obj, name) { return { ...obj, name }; }] *)
Definition updateName (obj name : val) : M val :=
  λ st,
  match copy_data_properties (st_heap st) obj with
  | None => None
  | Some props =>
      (let* r := alloc (JsObject ObjectPrototype
                          (create_data_property (KString "name") name props)) in
       ret (VObject r)) st
  end.

(** ** unsafeMerge, safeMerge *)

(** [function unsafeMerge(target, source) {
       for (let key in source) {
         target[key] = source[key];
       }
       return target; }]
    The assignment is [put]: the target and the objects it inherits from
    are taken not to be frozen. *)
Definition unsafeMerge (n : nat) (target source : val) : M val :=
  let* _ := for_in n (λ key, let* v := get_value n source key in
                             put n target key v) source in
  ret target.

(** [function safeMerge(target, source) {
       for (let key in source) {
         if (source.hasOwnProperty(key) && key !== '__proto__' && key !== 'constructor') {
           target[key] = source[key];
         }
       }
       return target; }]
    with the assignment of [unsafeMerge]. *)
Definition safeMerge (n : nat) (target source : val) : M val :=
  let* _ := for_in n (λ key,
              let* own := call_hasOwnProperty n source key in
              if own && negb (bool_decide (key = "__proto__"))
                     && negb (bool_decide (key = "constructor"))
              then let* v := get_value n source key in
                   put n target key v
              else ret tt) source in
  ret target.

(** ** deepFreeze *)

(** Integrity levels are kept beside the heap, as the set of the
    locations of the frozen objects: in the fragment an object is either
    frozen, or extensible with all its properties writable and
    configurable.  [deepFreeze] reads the heap and changes only that set. *)
Definition F (A : Type) := gset loc → option (completion A * gset loc).

Definition retF {A} (a : A) : F A := λ fr, Some (Normal a, fr).

Definition bindF {A B} (m : F A) (k : A → F B) : F B :=
  λ fr, match m fr with
        | None => None
        | Some (Throw e, fr') => Some (Throw e, fr')
        | Some (Normal a, fr') => k a fr'
        end.

(** [names.forEach(body)] on the array [Object.getOwnPropertyNames]
    returned, which nothing else can reach. *)
Fixpoint for_each (body : string → F unit) (names : list string) : F unit :=
  match names with
  | [] => retF tt
  | name :: rest => bindF (body name) (λ _, for_each body rest)
  end.

(** ToBoolean. *)
Definition to_boolean (v : val) : bool :=
  match v with
  | VUndefined | VNull => false
  | VBool b => b
  | VNumber n | VBigInt n => negb (bool_decide (n = 0%Z))
  | VString s => negb (bool_decide (s = EmptyString))
  | VSymbol _ | VObject _ => true
  end.

(** [Object.isFrozen]: a primitive counts as frozen. *)
Definition isFrozen (frozen : gset loc) (v : val) : bool :=
  match v with
  | VObject l => bool_decide (l ∈ frozen)
  | _ => true
  end.

(** [Object.freeze(v)]: returns its argument. *)
Definition freeze (v : val) : F val :=
  λ fr, Some (Normal v, match v with VObject l => {[l]} ∪ fr | _ => fr end).

Fixpoint deepFreeze (fuel : nat) (h : heap) (obj : val) : F val :=
  λ frozen,
  match fuel with
  | 0 => None
  | S n =>
      match obj with
      | VUndefined | VNull =>
          (* Object.getOwnPropertyNames(obj) *)
          Some (Throw (TypeError "Cannot convert undefined or null to object"), frozen)
      | _ =>
          match props_of h obj with
          | None => None
          | Some props =>
              (* Object.getOwnPropertyNames(obj).forEach((name) => {
                   const prop = obj[name];
                   if (prop && typeof prop === 'object' && !Object.isFrozen(prop)) {
                     deepFreeze(prop);
                   }
                 });
                 return Object.freeze(obj); *)
              bindF (for_each
                       (λ name fr,
                          match own_prop (KString name) props with
                          | None => None
                          | Some p =>
                              let prop := p_val p in
                              if to_boolean prop && bool_decide (typeof prop = "object")
                                 && negb (isFrozen fr prop)
                              then bindF (deepFreeze n h prop) (λ _, retF tt) fr
                              else retF tt fr
                          end)
                       (string_keys props))
                    (λ _, freeze obj) frozen
          end
      end
  end.

(** ** Vocabulary of the statements about these helpers *)

(** The body of the loop of [deepFreeze], by name. *)
Definition freeze_body (n : nat) (h : heap) (props : list prop) : string → F unit :=
  λ name fr,
    match own_prop (KString name) props with
    | None => None
    | Some p =>
        let prop := p_val p in
        if to_boolean prop && bool_decide (typeof prop = "object")
           && negb (isFrozen fr prop)
        then bindF (deepFreeze n h prop) (λ _, retF tt) fr
        else retF tt fr
    end.

(** [v[key]] when the value owns the key. *)
Definition own_value (h : heap) (v : val) (k : pkey) : option val :=
  match props_of h v with
  | Some props => p_val <$> own_prop k props
  | None => None
  end.

(** The values an object holds under its own string keys: the edges
    [deepFreeze] follows. *)
Definition named_fields (o : object) : list val :=
  omap (λ p, match p_key p with
             | KString _ => Some (p_val p)
             | KSymbol _ => None
             end) (own_props o).

(** The part of the graph below [v] that is not frozen yet unfolds to
    depth at most [k] along [named_fields]. *)
Fixpoint thaw_depth (k : nat) (h : heap) (frozen : gset loc) (v : val) : bool :=
  match v with
  | VObject l =>
      match k with
      | 0 => false
      | S k' =>
          match h !! l with
          | Some o => forallb (λ c, isFrozen frozen c || thaw_depth k' h frozen c)
                              (named_fields o)
          | None => false
          end
      end
  | _ => true
  end.

(** [l'] is held by [l] under a string key and is not frozen. *)
Definition thaw_edge (h : heap) (frozen : gset loc) (l l' : loc) : Prop :=
  ∃ o, h !! l = Some o ∧ VObject l' ∈ named_fields o ∧ l' ∉ frozen.

(** The bodies of the loops of [unsafeMerge] and [safeMerge], by name. *)
Definition unsafe_body (n : nat) (target source : val) : string → M unit :=
  λ key, let* v := get_value n source key in
         put n target key v.

Definition safe_body (n : nat) (target source : val) : string → M unit :=
  λ key, let* own := call_hasOwnProperty n source key in
         if own && negb (bool_decide (key = "__proto__"))
                && negb (bool_decide (key = "constructor"))
         then let* v := get_value n source key in
              put n target key v
         else ret tt.


(** What holds of the frozen set at every moment of a run of
    [deepFreeze] that started with the set [F0]: the set has only grown,
    and an object frozen since has everything it holds frozen as well (an
    object is frozen last, after what it holds). *)
Record freeze_inv (h : heap) (F0 fr : gset loc) : Prop := FreezeInv {
  fz_mono : F0 ⊆ fr;
  fz_closed : ∀ x y, x ∈ fr → x ∉ F0 → thaw_edge h F0 x y → y ∈ fr
}.

(** [l] leads, through objects that are not frozen, to an object that
    lies on a cycle of such objects. *)
Definition thaw_cycle (h : heap) (frozen : gset loc) (l : loc) : Prop :=
  ∃ c, rtc (thaw_edge h frozen) l c ∧ tc (thaw_edge h frozen) c c.

(** ** More example heaps *)

(** [const inner = {v: 1}; const mid = Object.freeze({n: inner});
    const outer = {m: mid};]: [mid], at location 1, is frozen, [inner]
    below it is not. *)
Definition under_frozen : heap :=
  [JsObject ObjectPrototype [Prop_ (KString "m") (VObject 1) true];
   JsObject ObjectPrototype [Prop_ (KString "n") (VObject 2) true];
   JsObject ObjectPrototype [Prop_ (KString "v") (VNumber 1) true]].

(** [const user = {}; const malicious = JSON.parse('{"__proto__": {"isAdmin": true}}');]
    with [user] at 0, [malicious] at 1 and the inner object at 2. *)
Definition attack : heap :=
  [JsObject ObjectPrototype [];
   JsObject ObjectPrototype [Prop_ (KString "__proto__") (VObject 2) true];
   JsObject ObjectPrototype [Prop_ (KString "isAdmin") (VBool true) true]].


(** [const base = Object.freeze({value: 'init'}); const o = Object.create(base);
    const plain = {value: 'init'};] with [base], which is frozen, at 0,
    [o] at 1 and [plain] at 2. *)
Definition below_frozen : heap :=
  [JsObject ObjectPrototype [Prop_ (KString "value") (VString "init") true];
   JsObject (ProtoObj 0) [];
   JsObject ObjectPrototype [Prop_ (KString "value") (VString "init") true]].
(** ** Reasoning about the monad and the loops *)

Lemma bind_Some {A B} (m : M A) (k : A → M B) st r :
  bind m k st = Some r ↔
  (∃ e s', m st = Some (Throw e, s') ∧ r = (Throw e, s')) ∨
  (∃ a s', m st = Some (Normal a, s') ∧ k a s' = Some r).
Proof.
  unfold bind. destruct (m st) as [[[a|e] s']|]; split.
  - intros H. right. eauto.
  - intros [(e & s'' & [=] & _)|(a' & s'' & [= <- <-] & H)]. done.
  - intros [= <-]. left. eauto.
  - intros [(e' & s'' & [= <- <-] & ->)|(a' & s'' & [=] & _)]. done.
  - done.
  - intros [(e & s'' & [=] & _)|(a' & s'' & [=] & _)].
Qed.

Lemma bind_Normal {A B} (m : M A) (k : A → M B) st b st' :
  bind m k st = Some (Normal b, st') →
  ∃ a s', m st = Some (Normal a, s') ∧ k a s' = Some (Normal b, st').
Proof.
  rewrite bind_Some. intros [(e & s' & _ & [=])|H]; done.
Qed.

Lemma bind_mono {A B} (m m' : M A) (k k' : A → M B) st r :
  (∀ r, m st = Some r → m' st = Some r) →
  (∀ a s r, k a s = Some r → k' a s = Some r) →
  bind m k st = Some r → bind m' k' st = Some r.
Proof.
  intros Hm Hk. unfold bind.
  destruct (m st) as [[[a|e] s']|] eqn:E; [| |done].
  - rewrite (Hm _ eq_refl). apply Hk.
  - by rewrite (Hm _ eq_refl).
Qed.

(** An invariant of the body is an invariant of the loop, whatever way
    the loop ends. *)
Lemma for_of_inv (I : state → Prop) n body l i st c st' :
  (∀ v s c s', I s → body v s = Some (c, s') → I s') →
  I st → for_of n body l i st = Some (c, st') → I st'.
Proof.
  intros Hbody. revert i st. induction n as [|n IH]; intros i st HI; [done|].
  simpl. destruct (st_heap st !! l) as [[elems|]|]; [|done..].
  destruct (elems !! i) as [v|]; [|by intros [= <- <-]].
  rewrite bind_Some. intros [(e & s' & Hb & [= -> ->])|(a & s' & Hb & Hrest)]; eauto.
Qed.

Lemma for_keys_inv (I : state → Prop) body keys st c st' :
  (∀ k s c s', k ∈ keys → I s → body k s = Some (c, s') → I s') →
  I st → for_keys body keys st = Some (c, st') → I st'.
Proof.
  revert st. induction keys as [|k keys IH]; intros st Hbody HI; simpl.
  - by intros [= <- <-].
  - rewrite bind_Some. intros [(e & s' & Hb & [= -> ->])|(a & s' & Hb & Hrest)].
    + eapply Hbody; [left|done..].
    + eapply IH; [|by eapply Hbody; [left|..]|done].
      intros k' s c' s'' Hk'. apply Hbody. by right.
Qed.

(** ** More fuel changes nothing *)

Lemma reaches_proto_accessor_mono n m h p b :
  n ≤ m → reaches_proto_accessor n h p = Some b → reaches_proto_accessor m h p = Some b.
Proof.
  revert m p. induction n as [|n IH]; intros [|m] p Hle; destruct p; simpl; try done; try lia.
  destruct (h !! l) as [[|p' props]|]; try done.
  destruct (own_prop _ props); [done|]. apply IH. lia.
Qed.

Lemma on_proto_chain_mono n m h o p b :
  n ≤ m → on_proto_chain n h o p = Some b → on_proto_chain m h o p = Some b.
Proof.
  revert m p. induction n as [|n IH]; intros [|m] p Hle; destruct p; simpl; try done; try lia.
  - by case_bool_decide.
  - case_bool_decide; [done|].
    destruct (h !! l); [|done]. apply IH. lia.
Qed.

Lemma set_prototype_of_mono n m o p st r :
  n ≤ m → set_prototype_of n o p st = Some r → set_prototype_of m o p st = Some r.
Proof.
  intros Hle. unfold set_prototype_of.
  destruct (st_heap st !! o) as [[|cur props]|]; try done.
  case_bool_decide; [done|].
  destruct (on_proto_chain n _ _ _) as [b|] eqn:E; [|done].
  by rewrite (on_proto_chain_mono _ _ _ _ _ _ Hle E).
Qed.

Lemma proto_setter_mono n m o w st r :
  n ≤ m → proto_setter n o w st = Some r → proto_setter m o w st = Some r.
Proof. intros Hle. destruct w; simpl; eauto using set_prototype_of_mono. Qed.

Lemma assign_mono n m out key w st r :
  n ≤ m → assign n out key w st = Some r → assign m out key w st = Some r.
Proof.
  intros Hle. unfold assign.
  destruct (st_heap st !! out) as [[|pr props]|]; try done.
  destruct (own_prop _ props); [done|].
  case_bool_decide; [|done].
  destruct (reaches_proto_accessor n _ _) as [b|] eqn:E; [|done].
  rewrite (reaches_proto_accessor_mono _ _ _ _ _ Hle E).
  destruct b; eauto using proto_setter_mono.
Qed.

Lemma for_of_mono n m (body body' : val → M unit) l i st r :
  n ≤ m →
  (∀ v s r, body v s = Some r → body' v s = Some r) →
  for_of n body l i st = Some r → for_of m body' l i st = Some r.
Proof.
  intros Hle Hbody. revert m i st r Hle.
  induction n as [|n IH]; intros m i st r Hle; [done|].
  destruct m as [|m]; [lia|]. simpl.
  destruct (st_heap st !! l) as [[elems|]|]; try done.
  destruct (elems !! i); [|done].
  apply bind_mono; [apply Hbody|]. intros _ s r'. apply IH. lia.
Qed.

Lemma for_keys_mono (body body' : string → M unit) keys st r :
  (∀ k s r, body k s = Some r → body' k s = Some r) →
  for_keys body keys st = Some r → for_keys body' keys st = Some r.
Proof.
  intros Hbody. revert st r. induction keys as [|k keys IH]; intros st r; simpl; [done|].
  apply bind_mono; [apply Hbody|]. intros _ s r'. apply IH.
Qed.

Lemma deepClone_mono n m v st r :
  n ≤ m → deepClone n v st = Some r → deepClone m v st = Some r.
Proof.
  revert m v st r. induction n as [|n IH]; intros m v st r Hle; [done|].
  destruct m as [|m]; [lia|]. assert (n ≤ m) as Hle' by lia.
  simpl. destruct v; try done.
  destruct (st_seen st !! l); [done|].
  destruct (st_heap st !! l) as [[elems|pr props]|]; [| |done].
  - apply bind_mono; [|done]. intros r'. apply for_of_mono; [done|].
    intros v s r''. apply bind_mono; eauto.
  - apply bind_mono; [|done]. intros r'. apply for_keys_mono.
    intros k s r''. apply bind_mono; [done|].
    intros a s' r3. apply bind_mono; eauto using assign_mono.
Qed.

(** ** Unfolding one call *)

(** The values that pass the first test of [deepClone] — not null,
    and of type ['object'] — are the references to heap objects. *)
Lemma typeof_object v :
  v ≠ VNull ∧ typeof v = "object" ↔ ∃ l, v = VObject l.
Proof.
  split.
  - intros [Hn Ht]. destruct v; try done. by eexists.
  - intros [l ->]. done.
Qed.

Lemma deepClone_primitive n v st :
  (∀ l, v ≠ VObject l) → deepClone (S n) v st = Some (Normal v, st).
Proof. intros Hv. destruct v; try done. by destruct (Hv l). Qed.

Lemma deepClone_seen n l w st :
  st_seen st !! l = Some w → deepClone (S n) (VObject l) st = Some (Normal w, st).
Proof. intros H. simpl. by rewrite H. Qed.

Lemma deepClone_array n l elems st :
  st_seen st !! l = None → st_heap st !! l = Some (JsArray elems) →
  deepClone (S n) (VObject l) st =
  bind (for_of n (array_body n (length (st_heap st))) l 0)
       (λ _, ret (VObject (length (st_heap st))))
       (alloc_seen l (JsArray []) st).2.
Proof. intros H1 H2. simpl. by rewrite H1, H2. Qed.

Lemma deepClone_object n l pr props st :
  st_seen st !! l = None → st_heap st !! l = Some (JsObject pr props) →
  deepClone (S n) (VObject l) st =
  bind (for_keys (object_body n l (length (st_heap st))) (object_keys props))
       (λ _, ret (VObject (length (st_heap st))))
       (alloc_seen l (JsObject ObjectPrototype []) st).2.
Proof. intros H1 H2. simpl. by rewrite H1, H2. Qed.

Lemma bind_ret_Some {A B} (m : M A) (b : B) st c st' :
  bind m (λ _, ret b) st = Some (c, st') →
  (∃ e, m st = Some (Throw e, st') ∧ c = Throw e) ∨
  (∃ a, m st = Some (Normal a, st') ∧ c = Normal b).
Proof.
  rewrite bind_Some. intros [(e & s' & Hm & [= -> ->])|(a & s' & Hm & [= <- <-])]; eauto.
Qed.

(** The four shapes of a completed call. *)
Lemma deepClone_cases n v st c st' :
  deepClone n v st = Some (c, st') →
  ∃ n', n = S n' ∧
  ((c = Normal v ∧ st' = st ∧ ∀ l, v ≠ VObject l) ∨
   (∃ l w, v = VObject l ∧ st_seen st !! l = Some w ∧ c = Normal w ∧ st' = st) ∨
   (∃ l elems c', v = VObject l ∧ st_seen st !! l = None ∧
      st_heap st !! l = Some (JsArray elems) ∧
      for_of n' (array_body n' (length (st_heap st))) l 0
        (alloc_seen l (JsArray []) st).2 = Some (c', st') ∧
      c = match c' with
          | Normal _ => Normal (VObject (length (st_heap st)))
          | Throw e => Throw e
          end) ∨
   (∃ l pr props c', v = VObject l ∧ st_seen st !! l = None ∧
      st_heap st !! l = Some (JsObject pr props) ∧
      for_keys (object_body n' l (length (st_heap st))) (object_keys props)
        (alloc_seen l (JsObject ObjectPrototype []) st).2 = Some (c', st') ∧
      c = match c' with
          | Normal _ => Normal (VObject (length (st_heap st)))
          | Throw e => Throw e
          end)).
Proof.
  destruct n as [|n]; [done|]. intros H. exists n. split; [done|].
  destruct v as [| | | | | | |l];
    try (left; simpl in H; injection H as <- <-; by repeat split).
  destruct (st_seen st !! l) as [w|] eqn:Hs.
  { right; left. rewrite (deepClone_seen _ _ _ _ Hs) in H.
    injection H as <- <-. by exists l, w. }
  destruct (st_heap st !! l) as [[elems|pr props]|] eqn:Hh.
  - right; right; left. rewrite (deepClone_array _ _ _ _ Hs Hh) in H.
    apply bind_ret_Some in H as [(e & H & ->)|([] & H & ->)];
      eexists l, elems, _; by repeat split.
  - right; right; right. rewrite (deepClone_object _ _ _ _ _ Hs Hh) in H.
    apply bind_ret_Some in H as [(e & H & ->)|([] & H & ->)];
      eexists l, pr, props, _; by repeat split.
  - simpl in H. by rewrite Hs, Hh in H.
Qed.

(** ** The frame: a run only appends to the heap and to [seen] *)

Global Instance extends_preorder : PreOrder extends.
Proof.
  split.
  - by intros st.
  - intros s1 s2 s3 [? ?] [? ?]. split; by etrans.
Qed.

Lemma prefix_insert_ge (h0 h : heap) i o :
  h0 `prefix_of` h → length h0 ≤ i → h0 `prefix_of` <[i:=o]> h.
Proof.
  intros [k ->] Hi. rewrite insert_app_r_alt by done. by apply prefix_app_r.
Qed.

Lemma extends_alloc_seen l o st :
  st_seen st !! l = None → extends st (alloc_seen l o st).2.
Proof.
  intros Hs. split; simpl.
  - by apply prefix_app_r.
  - by apply insert_subseteq.
Qed.

Lemma push_Some arr w st c st' :
  push arr w st = Some (c, st') →
  ∃ ws, st_heap st !! arr = Some (JsArray ws) ∧ c = Normal tt ∧
        st' = set_heap arr (JsArray (ws ++ [w])) st.
Proof.
  unfold push. destruct (st_heap st !! arr) as [[ws|]|]; try done.
  intros [= <- <-]. eauto.
Qed.

Lemma get_Some l key st c st' :
  get l key st = Some (c, st') →
  ∃ pr props p, st_heap st !! l = Some (JsObject pr props) ∧
    own_prop (KString key) props = Some p ∧ c = Normal (p_val p) ∧ st' = st.
Proof.
  unfold get. destruct (st_heap st !! l) as [[|pr props]|]; try done.
  destruct (own_prop _ props) as [p|] eqn:Hp; [|done].
  intros [= <- <-]. by exists pr, props, p.
Qed.

Lemma set_prototype_of_Some n o p st c st' :
  set_prototype_of n o p st = Some (c, st') →
  ∃ cur props, st_heap st !! o = Some (JsObject cur props) ∧
    ((c = Normal tt ∧ st' = st ∧ p = cur) ∨
     (c = Normal tt ∧ st' = set_heap o (JsObject p props) st ∧ p ≠ cur ∧
        on_proto_chain n (st_heap st) o p = Some false) ∨
     (c = Throw (TypeError "Cyclic __proto__ value") ∧ st' = st ∧
        on_proto_chain n (st_heap st) o p = Some true)).
Proof.
  unfold set_prototype_of. destruct (st_heap st !! o) as [[|cur props]|]; try done.
  intros H. exists cur, props. split; [done|].
  case_bool_decide.
  - injection H as <- <-. by left.
  - destruct (on_proto_chain _ _ _ _) as [[]|]; [| |done]; injection H as <- <-.
    + by right; right.
    + by right; left.
Qed.

Lemma assign_state n out key w st c st' :
  assign n out key w st = Some (c, st') →
  ∃ pr props, st_heap st !! out = Some (JsObject pr props) ∧
    (st' = st ∨
     ∃ pr' props', c = Normal tt ∧ st' = set_heap out (JsObject pr' props') st ∧
       (pr' = pr ∨ pr' = ProtoNull ∨ ∃ c', w = VObject c' ∧ pr' = ProtoObj c') ∧
       (props' = props ∨ props' = update_prop (KString key) w props ∨
        props' = props ++ [Prop_ (KString key) w true])).
Proof.
  unfold assign. destruct (st_heap st !! out) as [[|pr props]|] eqn:Hh; try done.
  intros H. exists pr, props. split; [done|].
  destruct (own_prop _ props).
  { injection H as <- <-. right. eauto 10. }
  assert (∀ r, Some (Normal tt, set_heap out (JsObject pr (props ++ [Prop_ (KString key) w true])) st)
          = r → r = Some (c, st') →
          st' = st ∨ ∃ pr' props', c = Normal tt ∧ st' = set_heap out (JsObject pr' props') st ∧
            (pr' = pr ∨ pr' = ProtoNull ∨ ∃ c', w = VObject c' ∧ pr' = ProtoObj c') ∧
            (props' = props ∨ props' = update_prop (KString key) w props ∨
             props' = props ++ [Prop_ (KString key) w true]))
    as Hcreate.
  { intros r <- [= <- <-]. right. eauto 10. }
  case_bool_decide; [|by eapply Hcreate].
  destruct (reaches_proto_accessor _ _ _) as [[]|]; [|by eapply Hcreate|done].
  destruct w; simpl in H; try (injection H as <- <-; by left).
  - apply set_prototype_of_Some in H as (cur & props' & Hh' & [(-> & -> & _)|[(-> & -> & _)|(-> & -> & _)]]);
      [by left| |by left].
    right. simplify_eq. eexists _, _. eauto 10.
  - apply set_prototype_of_Some in H as (cur & props' & Hh' & [(-> & -> & _)|[(-> & -> & _)|(-> & -> & _)]]);
      [by left| |by left].
    right. simplify_eq. eexists _, _. split; [done|]. split; [done|].
    split; [|by left]. right; right. eauto.
Qed.

(** One turn of each loop, taken apart. *)
Lemma array_body_Some n arr v st c st' :
  array_body n arr v st = Some (c, st') →
  (∃ e, deepClone n v st = Some (Throw e, st') ∧ c = Throw e) ∨
  (∃ w s1 ws, deepClone n v st = Some (Normal w, s1) ∧
     st_heap s1 !! arr = Some (JsArray ws) ∧
     c = Normal tt ∧ st' = set_heap arr (JsArray (ws ++ [w])) s1).
Proof.
  unfold array_body. rewrite bind_Some.
  intros [(e & s1 & Hd & [= -> ->])|(w & s1 & Hd & Hp)]; [by eauto|].
  apply push_Some in Hp as (ws & Hws & -> & ->). right. by exists w, s1, ws.
Qed.

Lemma object_body_Some n l out key st c st' :
  object_body n l out key st = Some (c, st') →
  ∃ pr props p,
    st_heap st !! l = Some (JsObject pr props) ∧
    own_prop (KString key) props = Some p ∧
    ((∃ e, deepClone n (p_val p) st = Some (Throw e, st') ∧ c = Throw e) ∨
     (∃ w s1, deepClone n (p_val p) st = Some (Normal w, s1) ∧
              assign n out key w s1 = Some (c, st'))).
Proof.
  unfold object_body. rewrite bind_Some.
  intros [(e & s1 & Hg & _)|(v & s1 & Hg & Hb)];
    apply get_Some in Hg as (pr & props & p & Hl & Hp & Hc & ->); [done|].
  injection Hc as ->. exists pr, props, p. split; [done|]. split; [done|].
  apply bind_Some in Hb as [(e & s1 & Hd & [= -> ->])|(w & s1 & Hd & Ha)]; eauto 10.
Qed.

Lemma extends_set_heap_ge st0 st l o :
  extends st0 st → length (st_heap st0) ≤ l → extends st0 (set_heap l o st).
Proof. intros [? ?] ?. split; simpl; [by apply prefix_insert_ge|done]. Qed.

Lemma deepClone_extends n v st c st' :
  deepClone n v st = Some (c, st') → extends st st'.
Proof.
  revert v st c st'. induction n as [|n IH]; intros v st c st' H; [done|].
  apply deepClone_cases in H as (n' & [= <-] & H).
  destruct H as [(_ & -> & _)|[(l & w & _ & _ & _ & ->)|
    [(l & elems & c' & -> & Hs & Hh & Hloop & _)|(l & pr & props & c' & -> & Hs & Hh & Hloop & _)]]];
    try reflexivity.
  - eapply (for_of_inv (extends st)); [|by apply extends_alloc_seen|exact Hloop].
    intros v s c0 s' Hext
      [(e & Hd & _)|(w & s1 & ws & Hd & _ & _ & ->)]%array_body_Some.
    + etrans; [done|]. by eapply IH.
    + apply extends_set_heap_ge; [|done]. etrans; [done|]. by eapply IH.
  - eapply (for_keys_inv (extends st)); [|by apply extends_alloc_seen|exact Hloop].
    intros key s c0 s' _ Hext
      (pr' & props' & p & _ & _ & [(e & Hd & _)|(w & s1 & Hd & Ha)])%object_body_Some.
    + etrans; [done|]. by eapply IH.
    + assert (extends st s1) as Hext1 by (etrans; [done|]; by eapply IH).
      apply assign_state in Ha as (? & ? & _ & [->|(? & ? & _ & -> & _)]); [done|].
      by apply extends_set_heap_ge.
Qed.

(** ** Closed heaps *)

Lemma closed_heap_lookup h l o v :
  closed_heap h = true → h !! l = Some o → v ∈ fields o →
  val_closed (length h) v = true.
Proof.
  unfold closed_heap. rewrite forallb_forall. intros Hc Hl Hv.
  specialize (Hc o). rewrite forallb_forall in Hc.
  apply Hc; apply list_elem_of_In; [by eapply list_elem_of_lookup_2|done].
Qed.

Lemma val_closed_lt n l : val_closed n (VObject l) = true → l < n.
Proof. simpl. by intros ?%bool_decide_eq_true. Qed.

Lemma own_prop_Some k props p :
  own_prop k props = Some p → p ∈ props ∧ p_key p = k.
Proof.
  unfold own_prop. intros H. apply find_some in H as [Hin Hk].
  split; [by apply list_elem_of_In|]. by apply bool_decide_eq_true in Hk.
Qed.

Lemma own_prop_None k props p :
  own_prop k props = None → p ∈ props → p_key p ≠ k.
Proof.
  unfold own_prop. intros H Hin Hk.
  eapply find_none in H; [|by apply list_elem_of_In].
  by apply bool_decide_eq_false in H.
Qed.

Lemma object_keys_elem key props :
  key ∈ object_keys props ↔
  ∃ p, p ∈ props ∧ p_key p = KString key ∧ p_enum p = true.
Proof.
  unfold object_keys. rewrite list_elem_of_omap. split.
  - intros (p & Hin & Hp). exists p. destruct p as [[s|] v []]; simplify_eq/=. done.
  - intros (p & Hin & Hk & He). exists p. split; [done|]. by rewrite Hk, He.
Qed.

Lemma object_keys_own_prop key props :
  key ∈ object_keys props → is_Some (own_prop (KString key) props).
Proof.
  rewrite object_keys_elem. intros (p & Hin & Hk & _).
  destruct (own_prop (KString key) props) as [q|] eqn:E; [by eexists|].
  by destruct (own_prop_None _ _ _ E Hin).
Qed.

(** ** Prototype chains that end *)

Lemma chain_ok_app h k p : chain_ok h p → chain_ok (h ++ k) p.
Proof.
  induction 1; try by constructor.
  econstructor; [by apply lookup_app_l_Some|done].
Qed.

Lemma chain_ok_insert_same h l o o' p :
  h !! l = Some o → proto_of o' = proto_of o →
  chain_ok h p → chain_ok (<[l:=o']> h) p.
Proof.
  intros Hl Hp. induction 1 as [| | |l' ob Hl' _ IH]; try by constructor.
  destruct (decide (l' = l)) as [->|Hne].
  - apply chain_ok_step with o'.
    + apply list_lookup_insert_eq. by eapply lookup_lt_Some.
    + rewrite Hp. by simplify_eq.
  - apply chain_ok_step with ob; [|done]. by rewrite list_lookup_insert_ne.
Qed.

(** A chain on which the search for [o] has answered no is a chain that
    ends without passing through [o]: rewriting [o] does not affect it. *)
Lemma on_proto_chain_false_ok n h o ob p :
  on_proto_chain n h o p = Some false → chain_ok (<[o:=ob]> h) p.
Proof.
  revert p. induction n as [|n IH]; intros [| | |l]; simpl; try by constructor.
  - by case_bool_decide.
  - case_bool_decide; [done|].
    destruct (h !! l) as [o'|] eqn:Hl; [|done]. intros Hc.
    apply chain_ok_step with o'; [by rewrite list_lookup_insert_ne|by apply IH].
Qed.

Lemma chain_ok_set_proto n h o ob ob' x :
  h !! o = Some ob →
  on_proto_chain n h o (proto_of ob') = Some false →
  chain_ok h x → chain_ok (<[o:=ob']> h) x.
Proof.
  intros Ho Hchain. induction 1 as [| | |l' o' Hl' _ IH]; try by constructor.
  destruct (decide (l' = o)) as [->|Hne].
  - apply chain_ok_step with ob'.
    + apply list_lookup_insert_eq. by eapply lookup_lt_Some.
    + by eapply on_proto_chain_false_ok.
  - apply chain_ok_step with o'; [|done]. by rewrite list_lookup_insert_ne.
Qed.

Lemma chain_ok_reaches h p :
  chain_ok h p → ∃ n b, reaches_proto_accessor n h p = Some b.
Proof.
  induction 1 as [| | |l o Hl _ (n & b & IH)]; try by (exists 0; eexists).
  destruct o as [elems|pr props].
  - exists 1, true. simpl. by rewrite Hl.
  - destruct (own_prop (KString "__proto__") props) eqn:E.
    + exists 1, false. simpl. by rewrite Hl, E.
    + exists (S n), b. simpl. by rewrite Hl, E.
Qed.

Lemma chain_ok_on_chain h o p :
  chain_ok h p → ∃ n b, on_proto_chain n h o p = Some b.
Proof.
  induction 1 as [| | |l ob Hl _ (n & b & IH)]; try by (exists 0; eexists).
  destruct (decide (l = o)) as [->|Hne].
  - exists 0, true. simpl. by rewrite bool_decide_eq_true_2.
  - exists (S n), b. simpl. by rewrite bool_decide_eq_false_2, Hl.
Qed.

(** ** The measure *)

Lemma filter_length_le {A} (P Q : A → Prop)
    `{!∀ x, Decision (P x), !∀ x, Decision (Q x)} (l : list A) :
  (∀ x, P x → Q x) → length (filter P l) ≤ length (filter Q l).
Proof.
  intros HPQ. induction l as [|x l IH]; [done|].
  rewrite !filter_cons. destruct (decide (P x)), (decide (Q x)); simpl; try lia.
  naive_solver.
Qed.

Lemma filter_length_lt {A} (P Q : A → Prop)
    `{!∀ x, Decision (P x), !∀ x, Decision (Q x)} (l : list A) x :
  (∀ x, P x → Q x) → x ∈ l → Q x → ¬ P x →
  length (filter P l) < length (filter Q l).
Proof.
  intros HPQ Hin HQ HP. induction l as [|y l IH]; [by apply elem_of_nil in Hin|].
  rewrite !filter_cons. apply elem_of_cons in Hin as [<-|Hin].
  - rewrite decide_False, decide_True by done. simpl.
    pose proof (filter_length_le P Q l HPQ). lia.
  - specialize (IH Hin).
    destruct (decide (P y)), (decide (Q y)); simpl; try lia. naive_solver.
Qed.

Lemma unseen_mono n0 (s s' : gmap loc val) :
  s ⊆ s' → unseen n0 s' ≤ unseen n0 s.
Proof.
  intros Hsub. apply filter_length_le. intros l Hl.
  destruct (s !! l) as [w|] eqn:E; [|done].
  eapply lookup_weaken in E; [|done]. congruence.
Qed.

Lemma unseen_insert n0 (s : gmap loc val) l w :
  l < n0 → s !! l = None → unseen n0 (<[l:=w]> s) < unseen n0 s.
Proof.
  intros Hl Hs. apply filter_length_lt with l.
  - intros x. destruct (decide (x = l)) as [->|Hne].
    + by rewrite lookup_insert_eq.
    + by rewrite lookup_insert_ne.
  - apply elem_of_seq. lia.
  - done.
  - by rewrite lookup_insert_eq.
Qed.

(** ** The termination invariant is kept by every step *)

Section Termination.

(** The heap the run started from. *)
Context (h0 : list object).

Lemma term_inv_init : term_inv h0 (State h0 ∅).
Proof.
  split; simpl.
  - done.
  - intros l w. by rewrite lookup_empty.
  - intros c. lia.
Qed.

Lemma term_inv_alloc st l o :
  term_inv h0 st → chain_ok [] (proto_of o) →
  term_inv h0 (alloc_seen l o st).2.
Proof.
  intros [Hp Hs Hc] Ho. pose proof (prefix_length _ _ Hp) as Hlen.
  split; simpl.
  - by apply prefix_app_r.
  - intros l' w. rewrite length_app. simpl.
    destruct (decide (l' = l)) as [->|Hne].
    + rewrite lookup_insert_eq. intros [= <-]. eexists. split; [done|lia].
    + rewrite lookup_insert_ne by done. intros (c & -> & ?)%Hs.
      eexists. split; [done|lia].
  - intros c. rewrite length_app. simpl. intros Hc'.
    destruct (decide (c = length (st_heap st))) as [->|Hne].
    + apply chain_ok_step with o.
      * by apply list_lookup_middle.
      * by apply (chain_ok_app []).
    + apply chain_ok_app, Hc. lia.
Qed.

Lemma term_inv_set_same st l o o' :
  term_inv h0 st → length h0 ≤ l → st_heap st !! l = Some o →
  proto_of o' = proto_of o → term_inv h0 (set_heap l o' st).
Proof.
  intros [Hp Hs Hc] Hl Ho Hpr. split; simpl.
  - by apply prefix_insert_ge.
  - intros l' w. rewrite length_insert. apply Hs.
  - intros c. rewrite length_insert. intros Hc'.
    by eapply chain_ok_insert_same, Hc.
Qed.

Lemma term_inv_set_proto st n l o o' :
  term_inv h0 st → length h0 ≤ l → st_heap st !! l = Some o →
  on_proto_chain n (st_heap st) l (proto_of o') = Some false →
  term_inv h0 (set_heap l o' st).
Proof.
  intros [Hp Hs Hc] Hl Ho Hpr. split; simpl.
  - by apply prefix_insert_ge.
  - intros l' w. rewrite length_insert. apply Hs.
  - intros c. rewrite length_insert. intros Hc'.
    by eapply chain_ok_set_proto, Hc.
Qed.

Lemma set_prototype_of_terminates st out p pr ps :
  term_inv h0 st → length h0 ≤ out →
  st_heap st !! out = Some (JsObject pr ps) →
  chain_ok (st_heap st) p →
  ∃ n c st', set_prototype_of n out p st = Some (c, st') ∧
    term_inv h0 st' ∧ st_seen st' = st_seen st ∧
    ∃ pr' ps', st_heap st' !! out = Some (JsObject pr' ps').
Proof.
  intros Hinv Hout Hh Hp.
  destruct (chain_ok_on_chain _ out _ Hp) as (n & b & Hn).
  exists n. unfold set_prototype_of. rewrite Hh, Hn.
  case_bool_decide; [by eauto 10|].
  destruct b; [by eauto 10|].
  eexists _, _. split; [done|]. split; [|split; [done|]].
  - by eapply term_inv_set_proto.
  - simpl. eexists _, _. apply list_lookup_insert_eq. by eapply lookup_lt_Some.
Qed.

Lemma assign_terminates st out key w pr ps :
  term_inv h0 st → length h0 ≤ out →
  st_heap st !! out = Some (JsObject pr ps) →
  fresh_val (length h0) (st_heap st) w →
  ∃ n c st', assign n out key w st = Some (c, st') ∧
    term_inv h0 st' ∧ st_seen st' = st_seen st ∧
    (key ≠ "__proto__" → c = Normal tt) ∧
    ∃ pr' ps', st_heap st' !! out = Some (JsObject pr' ps').
Proof.
  intros Hinv Hout Hh Hw.
  assert (∀ ps', ∃ pr' ps'',
    st_heap (set_heap out (JsObject pr ps') st) !! out = Some (JsObject pr' ps'')) as Hlook.
  { intros ps'. eexists _, _. simpl. apply list_lookup_insert_eq. by eapply lookup_lt_Some. }
  unfold assign. rewrite Hh.
  destruct (own_prop (KString key) ps).
  { exists 0. eexists _, _. split; [done|]. split; [|split; [done|split; [done|apply Hlook]]].
    by eapply term_inv_set_same. }
  case_bool_decide; cycle 1.
  { exists 0. eexists _, _. split; [done|]. split; [|split; [done|split; [done|apply Hlook]]].
    by eapply term_inv_set_same. }
  assert (chain_ok (st_heap st) pr) as Hpr.
  { assert (chain_ok (st_heap st) (ProtoObj out)) as Hc.
    { apply (ti_chain _ _ Hinv). split; [done|]. by eapply lookup_lt_Some. }
    inversion Hc; simplify_eq. done. }
  destruct (chain_ok_reaches _ _ Hpr) as (n1 & b & Hn1).
  destruct b; cycle 1.
  { exists n1. rewrite Hn1. eexists _, _. split; [done|].
    split; [|split; [done|split; [done|apply Hlook]]]. by eapply term_inv_set_same. }
  assert (∀ p, chain_ok (st_heap st) p →
    ∃ n c st', match reaches_proto_accessor n (st_heap st) pr with
               | Some true => set_prototype_of n out p st
               | Some false => Some (Normal tt,
                   set_heap out (JsObject pr (ps ++ [Prop_ (KString key) w true])) st)
               | None => None
               end = Some (c, st') ∧
      term_inv h0 st' ∧ st_seen st' = st_seen st ∧
      (key ≠ "__proto__" → c = Normal tt) ∧
      ∃ pr' ps', st_heap st' !! out = Some (JsObject pr' ps')) as Hset.
  { intros p Hp.
    destruct (set_prototype_of_terminates _ _ _ _ _ Hinv Hout Hh Hp)
      as (n2 & c & st' & Hn2 & Hi2 & Hs2 & Ho2).
    exists (n1 `max` n2), c, st'.
    rewrite (reaches_proto_accessor_mono n1 _ _ _ _ (Nat.le_max_l _ _) Hn1).
    split; [|done]. eapply set_prototype_of_mono; [|done]. lia. }
  destruct w as [| | | | | | |c]; simpl;
    try (exists n1; rewrite Hn1; eexists _, _; split; [done|]; by eauto 10).
  - apply Hset. constructor.
  - apply Hset. apply (ti_chain _ _ Hinv). exact Hw.
Qed.

(** ** Every call completes *)

Lemma no_proto_key_lookup h l pr props :
  no_proto_key h = true → h !! l = Some (JsObject pr props) →
  "__proto__" ∉ object_keys props.
Proof.
  unfold no_proto_key. rewrite forallb_forall. intros Hn Hl.
  specialize (Hn (JsObject pr props)). simpl in Hn.
  intros Hin. rewrite bool_decide_eq_true_2 in Hn by done.
  discriminate Hn. apply list_elem_of_In. by eapply list_elem_of_lookup_2.
Qed.

Lemma for_of_terminates st1 l arr elems
    (Hcall : ∀ s v, term_inv h0 s → st_seen st1 ⊆ st_seen s → v ∈ elems →
       ∃ n c s', deepClone n v s = Some (c, s') ∧ term_inv h0 s' ∧
                 (no_proto_key h0 = true → ∃ w, c = Normal w) ∧
                 ∀ w, c = Normal w → fresh_val (length h0) (st_heap s') w) :
  h0 !! l = Some (JsArray elems) → length h0 ≤ arr →
  ∀ k i s, length elems - i ≤ k →
    term_inv h0 s → st_seen st1 ⊆ st_seen s →
    (∃ ws, st_heap s !! arr = Some (JsArray ws)) →
    ∃ n c s', for_of n (array_body n arr) l i s = Some (c, s') ∧ term_inv h0 s' ∧
              st_seen st1 ⊆ st_seen s' ∧
              (no_proto_key h0 = true → c = Normal tt).
Proof.
  intros Hl Harr. induction k as [|k IH]; intros i s Hk Hinv Hsub [ws Hws].
  - exists 1. eexists _, s. split; [|done]. simpl.
    rewrite (prefix_lookup_Some _ _ _ _ Hl (ti_prefix _ _ Hinv)).
    rewrite (lookup_ge_None_2 elems i) by lia. done.
  - pose proof (prefix_lookup_Some _ _ _ _ Hl (ti_prefix _ _ Hinv)) as Hl'.
    destruct (elems !! i) as [v|] eqn:Hv; cycle 1.
    { exists 1. eexists _, s. split; [|done]. simpl. by rewrite Hl', Hv. }
    destruct (Hcall s v Hinv Hsub) as (n1 & c1 & s1 & Hd & Hinv1 & Hnp & Hfresh).
    { by eapply list_elem_of_lookup_2. }
    pose proof (deepClone_extends _ _ _ _ _ Hd) as [Hpre1 Hsub1].
    destruct c1 as [w|e]; cycle 1.
    { exists (S n1). eexists _, s1.
      split; [|split; [done|split; [by etrans|by intros [? [=]]%Hnp]]].
      simpl. rewrite Hl', Hv.
      unfold array_body at 1. apply bind_Some. left. eexists _, _. split; [|done].
      apply bind_Some. left. eexists _, _. split; [|done].
      eapply deepClone_mono; [|done]. lia. }
    pose proof (prefix_lookup_Some _ _ _ _ Hws Hpre1) as Hws1.
    destruct (IH (S i) (set_heap arr (JsArray (ws ++ [w])) s1))
      as (n2 & c2 & s2 & Hloop & Hinv2).
    + apply lookup_lt_Some in Hv. lia.
    + by eapply term_inv_set_same.
    + simpl. by etrans.
    + eexists. simpl. apply list_lookup_insert_eq. by eapply lookup_lt_Some.
    + exists (S (n1 `max` n2)), c2, s2. split; [|done]. simpl. rewrite Hl', Hv.
      apply bind_Some. right. exists tt, (set_heap arr (JsArray (ws ++ [w])) s1). split.
      * unfold array_body. apply bind_Some. right. exists w, s1. split.
        -- eapply deepClone_mono; [|done]. lia.
        -- unfold push. by rewrite Hws1.
      * eapply for_of_mono; [| |exact Hloop]; [lia|].
        intros v' s' r. unfold array_body. apply bind_mono; [|done].
        intros r'. apply deepClone_mono. lia.
Qed.

Lemma for_keys_terminates st1 l out pr props
    (Hcall : ∀ s v, term_inv h0 s → st_seen st1 ⊆ st_seen s → v ∈ fields (JsObject pr props) →
       ∃ n c s', deepClone n v s = Some (c, s') ∧ term_inv h0 s' ∧
                 (no_proto_key h0 = true → ∃ w, c = Normal w) ∧
                 ∀ w, c = Normal w → fresh_val (length h0) (st_heap s') w) :
  h0 !! l = Some (JsObject pr props) → length h0 ≤ out →
  ∀ keys s, keys ⊆ object_keys props →
    term_inv h0 s → st_seen st1 ⊆ st_seen s →
    (∃ pr' ps, st_heap s !! out = Some (JsObject pr' ps)) →
    ∃ n c s', for_keys (object_body n l out) keys s = Some (c, s') ∧ term_inv h0 s' ∧
              st_seen st1 ⊆ st_seen s' ∧
              (no_proto_key h0 = true → c = Normal tt).
Proof.
  intros Hl Hout. induction keys as [|key keys IH]; intros s Hkeys Hinv Hsub (pr' & ps & Hps).
  { exists 0. by eexists _, s. }
  pose proof (prefix_lookup_Some _ _ _ _ Hl (ti_prefix _ _ Hinv)) as Hl'.
  destruct (object_keys_own_prop key props) as [p Hp].
  { apply Hkeys. by left. }
  assert (get l key s = Some (Normal (p_val p), s)) as Hget.
  { unfold get. by rewrite Hl', Hp. }
  destruct (Hcall s (p_val p) Hinv Hsub) as (n1 & c1 & s1 & Hd & Hinv1 & Hnp & Hfresh).
  { simpl. apply list_elem_of_fmap. exists p. split; [done|].
    by apply own_prop_Some in Hp as [? _]. }
  pose proof (deepClone_extends _ _ _ _ _ Hd) as [Hpre1 Hsub1].
  destruct c1 as [w|e]; cycle 1.
  { exists n1. eexists _, s1.
    split; [|split; [done|split; [by etrans|by intros [? [=]]%Hnp]]]. simpl.
    apply bind_Some. left. eexists _, _. split; [|done].
    unfold object_body. apply bind_Some. right. eexists _, _. split; [done|].
    apply bind_Some. left. eexists _, _. by split. }
  pose proof (prefix_lookup_Some _ _ _ _ Hps Hpre1) as Hps1.
  destruct (assign_terminates s1 out key w pr' ps Hinv1 Hout Hps1 (Hfresh _ eq_refl))
    as (n2 & c2 & s2 & Ha & Hinv2 & Hseen2 & Hnp2 & Hout2).
  assert (∀ n, n1 `max` n2 ≤ n → object_body n l out key s = Some (c2, s2)) as Hbody.
  { intros n Hn. unfold object_body. apply bind_Some. right. eexists _, _. split; [done|].
    apply bind_Some. right. exists w, s1. split.
    - eapply deepClone_mono; [|done]. lia.
    - eapply assign_mono; [|done]. lia. }
  destruct c2 as [[]|e]; cycle 1.
  { exists (n1 `max` n2). eexists _, s2. split; [|split; [done|split]].
    - simpl. apply bind_Some. left. eexists _, _. split; [|done]. by apply Hbody.
    - rewrite Hseen2. by etrans.
    - intros Hnpk. exfalso. assert (key ≠ "__proto__") as Hkey; [|by specialize (Hnp2 Hkey)].
      intros ->. eapply no_proto_key_lookup; [done..|]. apply Hkeys. by left. }
  destruct (IH s2) as (n3 & c3 & s3 & Hloop & Hinv3); [| | |done|].
  - intros k Hk. apply Hkeys. by right.
  - done.
  - rewrite Hseen2. by etrans.
  - exists ((n1 `max` n2) `max` n3), c3, s3. split; [|done]. simpl.
    apply bind_Some. right. exists tt, s2. split; [apply Hbody; lia|].
    eapply for_keys_mono; [|exact Hloop].
    intros k s' r. unfold object_body. apply bind_mono; [done|].
    intros v s'' r'. apply bind_mono.
    + intros r''. apply deepClone_mono. lia.
    + intros w' s''' r''. apply assign_mono. lia.
Qed.

Lemma deepClone_terminates_inv :
  closed_heap h0 = true →
  ∀ m st v, term_inv h0 st → val_closed (length h0) v = true →
    unseen (length h0) (st_seen st) ≤ m →
    ∃ n c st', deepClone n v st = Some (c, st') ∧ term_inv h0 st' ∧
               (no_proto_key h0 = true → ∃ w, c = Normal w) ∧
               ∀ w, c = Normal w → fresh_val (length h0) (st_heap st') w.
Proof.
  intros Hclosed. induction m as [|m IH]; intros st v Hinv Hv Hm.
  all: assert ((∀ l, v ≠ VObject l) ∨ ∃ l, v = VObject l) as [Hprim|[l ->]]
    by (destruct v; eauto; by left).
  all: try (exists 1, (Normal v), st; split; [|split; [done|split; [by eauto|]]];
            [by apply deepClone_primitive|];
            intros w [= <-]; destruct v; naive_solver).
  all: destruct (st_seen st !! l) as [w|] eqn:Hs;
    try (exists 1, (Normal w), st; split; [by apply deepClone_seen|]; split; [done|];
         split; [by eauto|];
         intros w' [= <-]; by destruct (ti_seen _ _ Hinv _ _ Hs) as (c & -> & ?)).
  all: apply val_closed_lt in Hv; pose proof (unseen_insert _ _ _ (VObject (length (st_heap st))) Hv Hs) as Hlt.
  { lia. }
  destruct (lookup_lt_is_Some_2 _ _ Hv) as [o Ho].
  pose proof (prefix_lookup_Some _ _ _ _ Ho (ti_prefix _ _ Hinv)) as Ho'.
  pose proof (prefix_length _ _ (ti_prefix _ _ Hinv)) as Hlen.
  assert (∀ o', ∀ s v, term_inv h0 s → st_seen (alloc_seen l o' st).2 ⊆ st_seen s →
     v ∈ fields o →
     ∃ n c s', deepClone n v s = Some (c, s') ∧ term_inv h0 s' ∧
               (no_proto_key h0 = true → ∃ w, c = Normal w) ∧
               ∀ w, c = Normal w → fresh_val (length h0) (st_heap s') w) as Hcall.
  { intros o' s v Hinvs Hsub Hin. apply IH; [done|by eapply closed_heap_lookup|].
    pose proof (unseen_mono (length h0) _ _ Hsub). simpl in *. lia. }
  destruct o as [elems|pr props].
  - destruct (for_of_terminates _ l (length (st_heap st)) elems (Hcall (JsArray [])) Ho Hlen
                (length elems) 0 (alloc_seen l (JsArray []) st).2)
      as (n & c & s' & Hloop & Hinv' & Hsub' & Hnp); [lia| |done| |].
    { apply term_inv_alloc; [done|constructor]. }
    { exists []. simpl. by apply list_lookup_middle. }
    exists (S n). rewrite (deepClone_array _ _ _ _ Hs Ho').
    destruct c as [[]|e].
    + eexists _, s'. split; [|split; [done|split; [by eauto|]]].
      * apply bind_Some. right. by eexists _, _.
      * intros w [= <-].
        destruct (ti_seen _ _ Hinv' l (VObject (length (st_heap st)))) as (c & [= <-] & Hc);
          [|done].
        eapply lookup_weaken; [|done]. apply lookup_insert_eq.
    + exists (Throw e), s'. split; [|split; [done|split; [by intros [=]%Hnp|by intros ? [=]]]].
      apply bind_Some. left. by eexists _, _.
  - destruct (for_keys_terminates _ l (length (st_heap st)) pr props
                (Hcall (JsObject ObjectPrototype [])) Ho Hlen
                (object_keys props) (alloc_seen l (JsObject ObjectPrototype []) st).2)
      as (n & c & s' & Hloop & Hinv' & Hsub' & Hnp); [done| |done| |].
    { apply term_inv_alloc; [done|constructor]. }
    { exists ObjectPrototype, []. simpl. by apply list_lookup_middle. }
    exists (S n). rewrite (deepClone_object _ _ _ _ _ Hs Ho').
    destruct c as [[]|e].
    + eexists _, s'. split; [|split; [done|split; [by eauto|]]].
      * apply bind_Some. right. by eexists _, _.
      * intros w [= <-].
        destruct (ti_seen _ _ Hinv' l (VObject (length (st_heap st)))) as (c & [= <-] & Hc);
          [|done].
        eapply lookup_weaken; [|done]. apply lookup_insert_eq.
    + exists (Throw e), s'. split; [|split; [done|split; [by intros [=]%Hnp|by intros ? [=]]]].
      apply bind_Some. left. by eexists _, _.
Qed.

End Termination.

Lemma deepClone_terminates h v :
  closed_heap h = true → val_closed (length h) v = true →
  ∃ n c st', deepClone n v (State h ∅) = Some (c, st').
Proof.
  intros Hh Hv.
  destruct (deepClone_terminates_inv h Hh _ (State h ∅) v (term_inv_init h) Hv (le_n _))
    as (n & c & st' & H & _).
  eauto.
Qed.

(** Without [__proto__] keys, every call returns. *)
Lemma deepClone_returns h v :
  closed_heap h = true → no_proto_key h = true → val_closed (length h) v = true →
  ∃ n r st', deepClone n v (State h ∅) = Some (Normal r, st').
Proof.
  intros Hh Hnp Hv.
  destruct (deepClone_terminates_inv h Hh _ (State h ∅) v (term_inv_init h) Hv (le_n _))
    as (n & c & st' & H & _ & Hc & _).
  destruct (Hc Hnp) as [r ->]. eauto.
Qed.

(** ** The clone refers to new objects only *)

Section Fresh.

(** The length of the heap when the run began: the objects at or beyond
    it are the run's own. *)
Context (n0 : nat).

Lemma fresh_val_mono (h h' : list object) w :
  length h ≤ length h' → fresh_val n0 h w → fresh_val n0 h' w.
Proof. intros Hle. destruct w; simpl; try done. lia. Qed.

Lemma fresh_proto_mono (h h' : list object) p :
  length h ≤ length h' → fresh_proto n0 h p → fresh_proto n0 h' p.
Proof. intros Hle. destruct p; simpl; try done. lia. Qed.

Lemma fresh_inv_alloc st l o :
  fresh_inv n0 st → fields o = [] → fresh_proto n0 [] (proto_of o) →
  fresh_inv n0 (alloc_seen l o st).2.
Proof.
  intros [Hlen Hs Ho] Hf Hp.
  assert (length (st_heap st) ≤ length (st_heap st ++ [o])) as Hle.
  { rewrite length_app. lia. }
  split; simpl.
  - lia.
  - intros l' w. destruct (decide (l' = l)) as [->|Hne].
    + rewrite lookup_insert_eq. intros [= <-]. simpl. rewrite length_app. simpl. lia.
    + rewrite lookup_insert_ne by done. intros ?%Hs. by eapply fresh_val_mono.
  - intros c o' Hc Hl. destruct (decide (c = length (st_heap st))) as [->|Hne].
    + rewrite list_lookup_middle in Hl by done. injection Hl as <-.
      rewrite Hf. split; [done|]. destruct (proto_of o); simpl in *; try done. lia.
    + rewrite lookup_app_l in Hl.
      * destruct (Ho _ _ Hc Hl) as [HF HP]. split.
        -- eapply Forall_impl; [done|]. intros w. by apply fresh_val_mono.
        -- by eapply fresh_proto_mono.
      * apply lookup_lt_Some in Hl. rewrite length_app in Hl. simpl in Hl. lia.
Qed.

Lemma fresh_inv_set st l o :
  fresh_inv n0 st → n0 ≤ l →
  Forall (fresh_val n0 (st_heap st)) (fields o) →
  fresh_proto n0 (st_heap st) (proto_of o) →
  fresh_inv n0 (set_heap l o st).
Proof.
  intros [Hlen Hs Ho] Hl HF HP.
  assert (∀ w, fresh_val n0 (st_heap st) w → fresh_val n0 (<[l:=o]> (st_heap st)) w) as Hv.
  { intros w. apply fresh_val_mono. by rewrite length_insert. }
  assert (∀ p, fresh_proto n0 (st_heap st) p → fresh_proto n0 (<[l:=o]> (st_heap st)) p) as Hp.
  { intros p. apply fresh_proto_mono. by rewrite length_insert. }
  split; simpl.
  - by rewrite length_insert.
  - intros l' w ?%Hs. by apply Hv.
  - intros c o' Hc Hl'. destruct (decide (c = l)) as [->|Hne].
    + pose proof (lookup_lt_Some _ _ _ Hl') as Hlt. rewrite length_insert in Hlt.
      rewrite list_lookup_insert_eq in Hl' by done.
      injection Hl' as <-. split; [|by apply Hp].
      eapply Forall_impl; [done|]. apply Hv.
    + rewrite list_lookup_insert_ne in Hl' by done.
      destruct (Ho _ _ Hc Hl') as [HF' HP']. split; [|by apply Hp].
      eapply Forall_impl; [done|]. apply Hv.
Qed.

Lemma update_prop_vals k w props v :
  v ∈ p_val <$> update_prop k w props → v = w ∨ v ∈ p_val <$> props.
Proof.
  unfold update_prop. rewrite !list_elem_of_fmap.
  intros (p & -> & (q & -> & Hq)%list_elem_of_fmap).
  case_bool_decide; simpl; [by left|]. right. by exists q.
Qed.

Lemma deepClone_fresh n v st c st' :
  deepClone n v st = Some (c, st') → fresh_inv n0 st →
  fresh_inv n0 st' ∧ ∀ w, c = Normal w → fresh_val n0 (st_heap st') w.
Proof.
  revert v st c st'. induction n as [|n IH]; intros v st c st' H Hinv; [done|].
  apply deepClone_cases in H as (n' & [= <-] & H).
  destruct H as [(-> & -> & Hv)|[(l & w & -> & Hs & -> & ->)|
    [(l & elems & c' & -> & Hs & Hh & Hloop & ->)|(l & pr & props & c' & -> & Hs & Hh & Hloop & ->)]]].
  - split; [done|]. intros w [= <-]. destruct v; try done. by destruct (Hv l).
  - split; [done|]. intros w' [= <-]. by eapply fi_seen.
  - pose proof (fi_len _ _ Hinv) as Hlen.
    eapply (for_of_inv (λ s, fresh_inv n0 s ∧ length (st_heap st) < length (st_heap s)))
      in Hloop as [Hinv' Hlen'].
    + split; [done|]. destruct c'; [|done]. intros w [= <-]. simpl. lia.
    + intros v s c0 s' [Hs0 Hl0]
        [(e & Hd & _)|(w & s1 & ws & Hd & Hws & _ & ->)]%array_body_Some.
      * pose proof (deepClone_extends _ _ _ _ _ Hd) as [Hp%prefix_length _].
        split; [by eapply IH|lia].
      * pose proof (deepClone_extends _ _ _ _ _ Hd) as [Hp'%prefix_length _].
        destruct (IH _ _ _ _ Hd Hs0) as [Hs1 Hw]. split.
        -- apply fresh_inv_set; [done|lia| |done]. simpl.
           destruct (fi_obj _ _ Hs1 (length (st_heap st)) _ ltac:(lia) Hws) as [HF _].
           apply Forall_app. split; [done|]. apply Forall_singleton. by apply Hw.
        -- simpl. rewrite length_insert. lia.
    + split; [by apply fresh_inv_alloc|]. simpl. rewrite length_app. simpl. lia.
  - pose proof (fi_len _ _ Hinv) as Hlen.
    eapply (for_keys_inv (λ s, fresh_inv n0 s ∧ length (st_heap st) < length (st_heap s)))
      in Hloop as [Hinv' Hlen'].
    + split; [done|]. destruct c'; [|done]. intros w [= <-]. simpl. lia.
    + intros key s c0 s' _ [Hs0 Hl0]
        (pr' & props' & p & _ & _ & [(e & Hd & _)|(w & s1 & Hd & Ha)])%object_body_Some.
      * pose proof (deepClone_extends _ _ _ _ _ Hd) as [Hp%prefix_length _].
        split; [by eapply IH|lia].
      * pose proof (deepClone_extends _ _ _ _ _ Hd) as [Hp'%prefix_length _].
        destruct (IH _ _ _ _ Hd Hs0) as [Hs1 Hw]. specialize (Hw _ eq_refl).
        apply assign_state in Ha as (pr1 & ps1 & Hout & [->|(pr2 & ps2 & _ & -> & Hpr & Hps)]).
        { split; [done|lia]. }
        destruct (fi_obj _ _ Hs1 (length (st_heap st)) _ ltac:(lia) Hout) as [HF HP]. simpl in HF, HP.
        split; [|simpl; rewrite length_insert; lia].
        apply fresh_inv_set; [done|lia|..]; simpl.
        -- destruct Hps as [->|[->| ->]]; [done|..].
           ++ apply Forall_forall. intros x [->|Hx]%update_prop_vals; [done|].
              by eapply Forall_forall in HF.
           ++ rewrite fmap_app. apply Forall_app. split; [done|]. by apply Forall_singleton.
        -- destruct Hpr as [->|[->|(c2 & -> & ->)]]; done.
    + split; [by apply fresh_inv_alloc|]. simpl. rewrite length_app. simpl. lia.
Qed.

Lemma reach_fresh st v l :
  fresh_inv n0 st → reach links (st_heap st) v l →
  fresh_val n0 (st_heap st) v → n0 ≤ l.
Proof.
  intros Hinv. induction 1 as [l o Hl|l o v l' Hl Hv _ IH]; simpl; intros Hf; [lia|].
  apply IH. destruct (fi_obj _ _ Hinv l o ltac:(lia) Hl) as [HF HP].
  unfold links in Hv. apply elem_of_app in Hv as [Hv|Hv].
  - by eapply Forall_forall in HF.
  - destruct (proto_of o); try by apply elem_of_nil in Hv.
    by apply list_elem_of_singleton in Hv as ->.
Qed.

End Fresh.

Lemma fresh_inv_init h : fresh_inv (length h) (State h ∅).
Proof.
  split; simpl.
  - done.
  - intros l w. by rewrite lookup_empty.
  - intros c o Hc Hl. apply lookup_lt_Some in Hl. lia.
Qed.

(** ** Well-formed heaps *)

Lemma wf_heap_closed h : wf_heap h = true → closed_heap h = true.
Proof. unfold wf_heap. by intros [? _]%andb_true_iff. Qed.

Lemma wf_heap_distinct h l pr props :
  wf_heap h = true → h !! l = Some (JsObject pr props) → NoDup (p_key <$> props).
Proof.
  unfold wf_heap, distinct_keys. intros [_ Hd]%andb_true_iff Hl.
  rewrite forallb_forall in Hd.
  specialize (Hd (JsObject pr props)). simpl in Hd.
  apply bool_decide_eq_true in Hd; [done|].
  apply list_elem_of_In. by eapply list_elem_of_lookup_2.
Qed.

Lemma object_keys_NoDup props : NoDup (p_key <$> props) → NoDup (object_keys props).
Proof.
  induction props as [|p props IH]; simpl; [constructor|].
  rewrite NoDup_cons. intros [Hp Hnd]. unfold object_keys. simpl.
  destruct p as [[s|id] v []]; simpl; try by apply IH.
  apply NoDup_cons. split; [|by apply IH].
  intros (q & Hq & Hk & _)%object_keys_elem. apply Hp.
  apply list_elem_of_fmap. exists q. by split.
Qed.

Lemma own_prop_unique k props p :
  NoDup (p_key <$> props) → p ∈ props → p_key p = k → own_prop k props = Some p.
Proof.
  intros Hnd Hin Hk. destruct (own_prop k props) as [q|] eqn:E.
  - apply own_prop_Some in E as [Hq Hkq]. f_equal.
    apply list_elem_of_lookup in Hin as [i Hi]. apply list_elem_of_lookup in Hq as [j Hj].
    assert (i = j) as ->; [|congruence].
    eapply NoDup_lookup; [exact Hnd|..]; rewrite list_lookup_fmap.
    + by rewrite Hi.
    + rewrite Hj. simpl. congruence.
  - by destruct (own_prop_None _ _ _ E Hin).
Qed.

Lemma object_keys_child key props p :
  NoDup (p_key <$> props) → key ∈ object_keys props →
  own_prop (KString key) props = Some p →
  ∀ pr, p_val p ∈ children (JsObject pr props).
Proof.
  intros Hnd (q & Hq & Hk & He)%object_keys_elem Hp pr.
  rewrite (own_prop_unique _ _ _ Hnd Hq Hk) in Hp. injection Hp as <-.
  simpl. apply list_elem_of_omap. exists q. split; [done|]. by rewrite Hk, He.
Qed.

Lemma children_fields o v : v ∈ children o → v ∈ fields o.
Proof.
  destruct o as [elems|pr props]; simpl; [done|].
  intros (p & Hp & Hv)%list_elem_of_omap. apply list_elem_of_fmap. exists p.
  destruct (p_key p), (p_enum p); by simplify_eq.
Qed.

(** ** Images grow with [seen] *)

Lemma image_val_mono (s s' : gmap loc val) v w :
  s ⊆ s' → image_val s v = Some w → image_val s' v = Some w.
Proof. intros Hsub. destruct v; simpl; try done. intros H. by eapply lookup_weaken. Qed.

Lemma replay_snoc seen props keys key :
  replay seen props (keys ++ [key]) = replay_key seen props (replay seen props keys) key.
Proof. unfold replay. by rewrite foldl_app. Qed.

Lemma replay_mono (s s' : gmap loc val) props keys r :
  s ⊆ s' → replay s props keys = Some r → replay s' props keys = Some r.
Proof.
  intros Hsub. revert r. induction keys as [|key keys IH] using rev_ind; intros r; [done|].
  rewrite !replay_snoc. destruct (replay s props keys) as [a|]; [|done].
  rewrite (IH _ eq_refl). simpl.
  destruct (own_prop _ props) as [p|]; [|done].
  destruct (image_val s (p_val p)) as [w|] eqn:E; [|done].
  by rewrite (image_val_mono _ _ _ _ Hsub E).
Qed.

Lemma image_upto_mono (s s' : gmap loc val) k o o' :
  s ⊆ s' → image_upto s k o o' → image_upto s' k o o'.
Proof.
  intros Hsub. destruct o as [vs|pr props], o' as [ws|pr' ps]; simpl; try done.
  - intros H. eapply Forall2_impl; [done|]. intros v w. by apply image_val_mono.
  - by apply replay_mono.
Qed.

Lemma image_of_mono (s s' : gmap loc val) o o' :
  s ⊆ s' → image_of s o o' → image_of s' o o'.
Proof.
  intros Hsub. destruct o as [vs|pr props], o' as [ws|pr' ps]; simpl; try done.
  - intros H. eapply Forall2_impl; [done|]. intros v w. by apply image_val_mono.
  - by apply replay_mono.
Qed.

(** What is known of a clone under construction from the keys copied so
    far: its properties are those keys except [__proto__], in order, all
    enumerable; and its prototype is still %Object.prototype% as long as
    [__proto__] was not among them. *)
Lemma replay_shape seen props keys pr ps :
  replay seen props keys = Some (pr, ps) →
  p_key <$> ps = KString <$> filter (λ k, k ≠ "__proto__") keys ∧
  Forall (λ p, p_enum p = true) ps ∧
  ("__proto__" ∉ keys → pr = ObjectPrototype).
Proof.
  revert pr ps. induction keys as [|key keys IH] using rev_ind; intros pr ps.
  { intros [= <- <-]. by repeat split. }
  rewrite replay_snoc. destruct (replay seen props keys) as [[pr0 ps0]|]; [|done]. simpl.
  destruct (own_prop _ props) as [p|]; [|done].
  destruct (image_val seen (p_val p)) as [w|]; [|done].
  destruct (IH _ _ eq_refl) as (Hk & He & Hpr).
  unfold apply_key. rewrite filter_app, filter_cons, filter_nil. simpl.
  case_bool_decide as Hkey; intros [= <- <-].
  - rewrite decide_False by (by intros ?). rewrite app_nil_r.
    split; [done|]. split; [done|]. rewrite elem_of_app, list_elem_of_singleton.
    intros Hn. destruct Hn. by right.
  - rewrite decide_True by done. rewrite !fmap_app, Hk. simpl.
    split; [done|]. split.
    + apply Forall_app. split; [done|]. by apply Forall_singleton.
    + rewrite elem_of_app. intros Hn. apply Hpr. intros ?. apply Hn. by left.
Qed.

Lemma replay_own_prop_None seen props keys pr ps key :
  replay seen props keys = Some (pr, ps) → key ∉ keys →
  own_prop (KString key) ps = None.
Proof.
  intros (Hk & _ & _)%replay_shape Hkey.
  destruct (own_prop (KString key) ps) as [p|] eqn:E; [|done].
  apply own_prop_Some in E as [Hin Hp]. exfalso. apply Hkey.
  assert (KString key ∈ p_key <$> ps) as Hin'.
  { apply list_elem_of_fmap. by exists p. }
  rewrite Hk in Hin'. apply list_elem_of_fmap in Hin' as (k' & [= <-] & Hk').
  by apply list_elem_of_filter in Hk' as [_ ?].
Qed.

(** ** Loops that complete normally *)

Lemma for_of_normal (I : nat → state → Prop) n body l i st st' :
  I i st →
  (∀ j s elems v s', I j s → st_heap s !! l = Some (JsArray elems) →
     elems !! j = Some v → body v s = Some (Normal tt, s') → I (S j) s') →
  for_of n body l i st = Some (Normal tt, st') →
  ∃ j elems, I j st' ∧ st_heap st' !! l = Some (JsArray elems) ∧ elems !! j = None.
Proof.
  intros HI Hbody. revert i st HI. induction n as [|n IH]; intros i st HI; [done|].
  simpl. destruct (st_heap st !! l) as [[elems|]|] eqn:Hl; [|done..].
  destruct (elems !! i) as [v|] eqn:Hv.
  - intros ([] & s' & Hb & Hrest)%bind_Normal. eapply IH; [|exact Hrest]. eauto.
  - intros [= <-]. eauto.
Qed.

Lemma for_keys_normal (I : nat → state → Prop) body keys j st st' :
  I j st →
  (∀ i k s s', I i s → keys !! i = Some k →
     body k s = Some (Normal tt, s') → I (S i) s') →
  for_keys body (drop j keys) st = Some (Normal tt, st') →
  I (j `max` length keys) st'.
Proof.
  intros HI Hbody. remember (drop j keys) as ks eqn:Hks.
  revert j st HI Hks. induction ks as [|k ks IH]; intros j st HI Hks; simpl.
  - intros [= <-]. assert (length keys ≤ j) as Hle.
    { destruct (decide (length keys ≤ j)); [done|].
      apply (f_equal length) in Hks. rewrite length_drop in Hks. simpl in Hks. lia. }
    by rewrite Nat.max_l.
  - assert (keys !! j = Some k) as Hk.
    { rewrite <-(Nat.add_0_r j), <-lookup_drop, <-Hks. done. }
    intros ([] & s' & Hb & Hrest)%bind_Normal.
    assert (S j `max` length keys = j `max` length keys) as <-.
    { apply lookup_lt_Some in Hk. lia. }
    eapply IH; [| |exact Hrest]; [by eauto|].
    rewrite (drop_S _ _ _ Hk) in Hks. by injection Hks.
Qed.

(** ** The correspondence is kept by every step *)

Section Correspondence.

(** The heap the run started from: the source graph. *)
Context (h0 : list object).

Lemma hom_inv_init : hom_inv h0 (State h0 ∅).
Proof.
  split; simpl.
  - done.
  - intros l w. by rewrite lookup_empty.
  - intros l1 l2 w. by rewrite lookup_empty.
  - intros c. lia.
  - intros l c. by rewrite lookup_empty.
Qed.

Lemma hom_inv_alloc st l o o' :
  hom_inv h0 st → st_seen st !! l = None → h0 !! l = Some o →
  image_upto (st_seen (alloc_seen l o' st).2) 0 o o' →
  hom_inv h0 (alloc_seen l o' st).2.
Proof.
  intros [Hp Hs Hi Hj Him] Hl Ho Himg.
  pose proof (prefix_length _ _ Hp) as Hlen.
  assert (st_seen st ⊆ <[l:=VObject (length (st_heap st))]> (st_seen st)) as Hsub
    by (by apply insert_subseteq).
  split; simpl in *.
  - by apply prefix_app_r.
  - intros l' w. rewrite length_app. simpl. destruct (decide (l' = l)) as [->|Hne].
    + rewrite lookup_insert_eq. intros [= <-]. split; [by eapply lookup_lt_Some|].
      eexists. split; [done|lia].
    + rewrite lookup_insert_ne by done. intros [? (c & -> & ?)]%Hs. split; [done|].
      eexists. split; [done|lia].
  - intros l1 l2 w.
    destruct (decide (l1 = l)) as [->|Hne1], (decide (l2 = l)) as [->|Hne2]; [done|..].
    + rewrite lookup_insert_eq, lookup_insert_ne by done.
      intros [= <-] [_ (c & [= <-] & ?)]%Hs. lia.
    + rewrite lookup_insert_eq, lookup_insert_ne by done.
      intros [_ (c & -> & ?)]%Hs [= <-]. lia.
    + rewrite !lookup_insert_ne by done. apply Hi.
  - intros c. rewrite length_app. simpl. intros Hc.
    destruct (decide (c = length (st_heap st))) as [->|Hne].
    + exists l. by rewrite lookup_insert_eq.
    + destruct (Hj c) as [l' Hl']; [lia|]. exists l'.
      rewrite lookup_insert_ne; [done|]. intros <-. congruence.
  - intros l' c. destruct (decide (l' = l)) as [->|Hne].
    + rewrite lookup_insert_eq. intros [= <-]. exists o, o', 0.
      split; [done|]. split; [by apply list_lookup_middle|done].
    + rewrite lookup_insert_ne by done. intros (o1 & o2 & k & ? & ? & ?)%Him.
      exists o1, o2, k. split; [done|]. split; [by apply lookup_app_l_Some|].
      by eapply image_upto_mono.
Qed.

Lemma hom_inv_set st l c o o' k :
  hom_inv h0 st → st_seen st !! l = Some (VObject c) → h0 !! l = Some o →
  image_upto (st_seen st) k o o' →
  hom_inv h0 (set_heap c o' st).
Proof.
  intros [Hp Hs Hi Hj Him] Hl Ho Himg.
  destruct (Hs _ _ Hl) as [_ (c' & [= <-] & Hc)].
  split; simpl.
  - apply prefix_insert_ge; [done|lia].
  - intros l' w. rewrite length_insert. apply Hs.
  - done.
  - intros c'. rewrite length_insert. apply Hj.
  - intros l' c' Hl'. destruct (decide (c' = c)) as [->|Hne].
    + assert (l' = l) as -> by (by eapply Hi). exists o, o', k.
      split; [done|]. split; [|done]. apply list_lookup_insert_eq. lia.
    + rewrite list_lookup_insert_ne by done. by apply Him.
Qed.

Lemma done_at_extends st st' l :
  extends st st' → done_at h0 st l → done_at h0 st' l.
Proof.
  intros [Hp Hs] (c & o & o' & Hl & Ho & Hc & Him). exists c, o, o'.
  split; [by eapply lookup_weaken|]. split; [done|].
  split; [by eapply prefix_lookup_Some|by eapply image_of_mono].
Qed.

Lemma done_at_set_other st l c x o :
  done_at h0 st l → st_seen st !! l = Some (VObject c) → c ≠ x →
  done_at h0 (set_heap x o st) l.
Proof.
  intros (c' & o1 & o2 & Hl & Ho & Hc & Him) Hl' Hne.
  assert (c' = c) as -> by congruence.
  exists c, o1, o2. simpl. by rewrite list_lookup_insert_ne.
Qed.

(** [out[key] = w] on a clone under construction, for a key new to it
    that it meets while its prototype is still %Object.prototype% if
    the key is [__proto__]. *)
Lemma assign_apply_key n out key w st st' pr ps :
  st_heap st !! out = Some (JsObject pr ps) →
  own_prop (KString key) ps = None →
  (key = "__proto__" → pr = ObjectPrototype) →
  assign n out key w st = Some (Normal tt, st') →
  ∃ pr' ps', apply_key (pr, ps) key w = (pr', ps') ∧
             st' = set_heap out (JsObject pr' ps') st.
Proof.
  intros Hh Hown Hpr. unfold assign, apply_key. rewrite Hh, Hown. simpl.
  case_bool_decide as Hkey; [|intros [= <-]; by eexists _, _].
  rewrite (Hpr Hkey) in *.
  assert (set_heap out (JsObject ObjectPrototype ps) st = st) as Hid.
  { destruct st as [h s]. unfold set_heap. simpl in *. f_equal. by apply list_insert_id. }
  assert (reaches_proto_accessor n (st_heap st) ObjectPrototype = Some true) as ->
    by (by destruct n).
  destruct w; simpl; try (intros [= <-]; by eexists _, _).
  - unfold set_prototype_of. rewrite Hh. simpl.
    assert (on_proto_chain n (st_heap st) out ProtoNull = Some false) as ->
      by (by destruct n).
    intros [= <-]. by eexists _, _.
  - unfold set_prototype_of. rewrite Hh. simpl.
    destruct (on_proto_chain _ _ _ _) as [[]|]; [done| |done].
    intros [= <-]. by eexists _, _.
Qed.

Lemma done_at_set_clone st l l' c o :
  hom_inv h0 st → st_seen st !! l = Some (VObject c) → l' ≠ l →
  done_at h0 st l' → done_at h0 (set_heap c o st) l'.
Proof.
  intros Hinv Hl Hne Hd. pose proof Hd as (c' & _ & _ & Hl' & _).
  eapply done_at_set_other; [done..|].
  intros ->. apply Hne. by eapply hi_inj.
Qed.

(** The entries [seen] gained since the loop began, after one more turn
    of the loop: a child was cloned, then the clone under construction
    was updated. *)
Lemma new_entries_step st1 s s1 l c o' v x :
  (∀ l', st_seen st1 !! l' = None → is_Some (st_seen s !! l') →
         done_at h0 s l' ∧ reach children h0 (VObject l) l') →
  (∀ l', st_seen s !! l' = None → is_Some (st_seen s1 !! l') →
         done_at h0 s1 l' ∧ reach children h0 v l') →
  extends s s1 → hom_inv h0 s1 →
  st_seen st1 !! l = Some (VObject c) → st_seen st1 ⊆ st_seen s →
  h0 !! l = Some x → v ∈ children x →
  ∀ l', st_seen st1 !! l' = None → is_Some (st_seen (set_heap c o' s1) !! l') →
        done_at h0 (set_heap c o' s1) l' ∧ reach children h0 (VObject l) l'.
Proof.
  intros Hold Hnew Hext Hinv1 Hl Hsub Hx Hv l' Hl1 Hl'. simpl in Hl'.
  assert (l' ≠ l) as Hne by (intros ->; congruence).
  assert (st_seen s1 !! l = Some (VObject c)) as Hl1'.
  { eapply lookup_weaken; [|apply Hext]. by eapply lookup_weaken. }
  destruct (st_seen s !! l') as [w'|] eqn:Hs.
  - destruct (Hold l' Hl1) as [Hd Hr]; [by rewrite Hs|]. split; [|done].
    eapply done_at_set_clone; [done..|]. by eapply done_at_extends.
  - destruct (Hnew l' Hs Hl') as [Hd Hr]. split.
    + by eapply done_at_set_clone.
    + by eapply reach_step.
Qed.

Lemma NoDup_not_in_take {A} (l : list A) i x :
  NoDup l → l !! i = Some x → x ∉ take i l.
Proof.
  intros Hnd Hi (j & Hj)%list_elem_of_lookup.
  pose proof (lookup_lt_Some _ _ _ Hj) as Hlt. rewrite length_take in Hlt.
  rewrite lookup_take_lt in Hj by lia.
  assert (i = j) by (by eapply NoDup_lookup). lia.
Qed.

(** ** The main lemma: a completed call has built the image *)

Lemma deepClone_hom :
  wf_heap h0 = true →
  ∀ n v st w st', deepClone n v st = Some (Normal w, st') →
    hom_inv h0 st → val_closed (length h0) v = true →
    hom_post h0 v w st st'.
Proof.
  intros Hwf. pose proof (wf_heap_closed _ Hwf) as Hclosed.
  induction n as [|n IH]; intros v st w st' H Hinv Hv; [done|].
  apply deepClone_cases in H as (n' & [= <-] & H).
  destruct H as [([= ->] & -> & Hprim)|[(l & w' & -> & Hs & [= ->] & ->)|
    [(l & elems & c' & -> & Hs & Hh & Hloop & Hc)|(l & pr & props & c' & -> & Hs & Hh & Hloop & Hc)]]].
  - split; [done|]. split; [by destruct v; try done; destruct (Hprim l)|].
    intros l Hl [? ?]. congruence.
  - split; [done|]. split; [done|]. intros l' Hl [? ?]. congruence.
  - destruct c' as [[]|e]; [|done]. injection Hc as ->.
    apply val_closed_lt in Hv.
    assert (h0 !! l = Some (JsArray elems)) as Ho.
    { by rewrite (prefix_lookup_lt _ _ _ Hv (hi_prefix _ _ Hinv)). }
    set (arr := length (st_heap st)) in *.
    set (st1 := (alloc_seen l (JsArray []) st).2) in *.
    assert (st_seen st1 !! l = Some (VObject arr)) as Hl1 by apply lookup_insert_eq.
    eapply (for_of_normal (λ j s,
      hom_inv h0 s ∧ st_seen st1 ⊆ st_seen s ∧
      (∀ l', st_seen st1 !! l' = None → is_Some (st_seen s !! l') →
             done_at h0 s l' ∧ reach children h0 (VObject l) l') ∧
      ∃ ws, st_heap s !! arr = Some (JsArray ws) ∧
            Forall2 (λ v w, image_val (st_seen s) v = Some w) (take j elems) ws))
      in Hloop.
    + destruct Hloop as (j & elems' & (Hinv' & Hsub & Hnew & ws & Hws & Hall) & Hl' & Hj).
      rewrite (prefix_lookup_Some _ _ _ _ Ho (hi_prefix _ _ Hinv')) in Hl'.
      injection Hl' as <-. rewrite take_ge in Hall by (by apply lookup_ge_None_1).
      assert (st_seen st' !! l = Some (VObject arr)) as Hl' by (by eapply lookup_weaken).
      split; [done|]. split; [done|]. intros l' Hn Hsome.
      destruct (decide (l' = l)) as [->|Hne].
      * split; [|by eapply reach_here]. by exists arr, (JsArray elems), (JsArray ws).
      * apply Hnew; [|done]. unfold st1. simpl. by rewrite lookup_insert_ne.
    + split; [|split; [done|split]].
      * unfold st1. apply hom_inv_alloc with (JsArray elems); [done..|]. simpl. constructor.
      * intros l' Hn [? Hsome]. congruence.
      * exists []. split; [by apply list_lookup_middle|]. simpl. constructor.
    + intros j s elems' v s' (Hinvs & Hsub & Hnew & ws & Hws & Hall) Hl' Hj Hbody.
      rewrite (prefix_lookup_Some _ _ _ _ Ho (hi_prefix _ _ Hinvs)) in Hl'.
      injection Hl' as <-.
      unfold array_body in Hbody. apply bind_Normal in Hbody as (w & s1 & Hd & Hp).
      pose proof (deepClone_extends _ _ _ _ _ Hd) as Hext.
      assert (v ∈ elems) as Hin by (by eapply list_elem_of_lookup_2).
      destruct (IH _ _ _ _ Hd Hinvs) as (Hinv1 & Himg & Hnew1).
      { by eapply closed_heap_lookup. }
      apply push_Some in Hp as (ws' & Hws' & _ & ->).
      rewrite (prefix_lookup_Some _ _ _ _ Hws (proj1 Hext)) in Hws'. injection Hws' as <-.
      assert (st_seen s1 !! l = Some (VObject arr)) as Hl1'.
      { eapply lookup_weaken; [|apply Hext]. by eapply lookup_weaken. }
      assert (Forall2 (λ v w, image_val (st_seen s1) v = Some w)
                (take (S j) elems) (ws ++ [w])) as Hall'.
      { rewrite (take_S_r _ _ _ Hj). apply Forall2_app.
        - eapply Forall2_impl; [done|]. intros ??. apply image_val_mono, Hext.
        - by constructor. }
      split; [by eapply hom_inv_set|]. split; [simpl; by etrans; [|apply Hext]|]. split.
      * by eapply new_entries_step.
      * exists (ws ++ [w]). split; [|done]. simpl. apply list_lookup_insert_eq.
        by eapply lookup_lt_Some, prefix_lookup_Some, Hext.
  - destruct c' as [[]|e]; [|done]. injection Hc as ->.
    apply val_closed_lt in Hv.
    assert (h0 !! l = Some (JsObject pr props)) as Ho.
    { by rewrite (prefix_lookup_lt _ _ _ Hv (hi_prefix _ _ Hinv)). }
    pose proof (wf_heap_distinct _ _ _ _ Hwf Ho) as Hnd.
    pose proof (object_keys_NoDup _ Hnd) as Hndk.
    set (out := length (st_heap st)) in *.
    set (st1 := (alloc_seen l (JsObject ObjectPrototype []) st).2) in *.
    assert (st_seen st1 !! l = Some (VObject out)) as Hl1 by apply lookup_insert_eq.
    eapply (for_keys_normal (λ j s,
      hom_inv h0 s ∧ st_seen st1 ⊆ st_seen s ∧
      (∀ l', st_seen st1 !! l' = None → is_Some (st_seen s !! l') →
             done_at h0 s l' ∧ reach children h0 (VObject l) l') ∧
      ∃ pr' ps, st_heap s !! out = Some (JsObject pr' ps) ∧
                replay (st_seen s) props (take j (object_keys props)) = Some (pr', ps))
      _ (object_keys props) 0) in Hloop.
    + destruct Hloop as (Hinv' & Hsub & Hnew & pr' & ps & Hps & Hall).
      rewrite take_ge in Hall by lia.
      assert (st_seen st' !! l = Some (VObject out)) as Hl' by (by eapply lookup_weaken).
      split; [done|]. split; [done|]. intros l' Hn Hsome.
      destruct (decide (l' = l)) as [->|Hne].
      * split; [|by eapply reach_here]. by exists out, (JsObject pr props), (JsObject pr' ps).
      * apply Hnew; [|done]. unfold st1. simpl. by rewrite lookup_insert_ne.
    + split; [|split; [done|split]].
      * unfold st1. by apply hom_inv_alloc with (JsObject pr props).
      * intros l' Hn [? Hsome]. congruence.
      * exists ObjectPrototype, []. split; [by apply list_lookup_middle|done].
    + intros j key s s' (Hinvs & Hsub & Hnew & pr' & ps & Hps & Hall) Hj Hbody.
      unfold object_body in Hbody. apply bind_Normal in Hbody as (v & s0 & Hg & Hbody).
      apply get_Some in Hg as (pr0 & props0 & p & Hl' & Hp & [= ->] & ->).
      rewrite (prefix_lookup_Some _ _ _ _ Ho (hi_prefix _ _ Hinvs)) in Hl'.
      injection Hl' as <- <-.
      apply bind_Normal in Hbody as (w & s1 & Hd & Ha).
      pose proof (deepClone_extends _ _ _ _ _ Hd) as Hext.
      assert (p_val p ∈ children (JsObject pr props)) as Hin.
      { eapply object_keys_child; [done| |done]. by eapply list_elem_of_lookup_2. }
      destruct (IH _ _ _ _ Hd Hinvs) as (Hinv1 & Himg & Hnew1).
      { eapply closed_heap_lookup; [done..|]. by apply children_fields. }
      pose proof (prefix_lookup_Some _ _ _ _ Hps (proj1 Hext)) as Hps1.
      pose proof (replay_mono _ _ _ _ _ (proj2 Hext) Hall) as Hall1.
      pose proof (NoDup_not_in_take _ _ _ Hndk Hj) as Hfresh.
      eapply assign_apply_key in Ha as (pr2 & ps2 & Hap & ->); [|done| |].
      2:{ by eapply replay_own_prop_None. }
      2:{ intros ->. by eapply replay_shape. }
      assert (st_seen s1 !! l = Some (VObject out)) as Hl1'.
      { eapply lookup_weaken; [|apply Hext]. by eapply lookup_weaken. }
      assert (replay (st_seen s1) props (take (S j) (object_keys props)) = Some (pr2, ps2))
        as Hall'.
      { rewrite (take_S_r _ _ _ Hj), replay_snoc, Hall1. simpl. by rewrite Hp, Himg, Hap. }
      split; [by eapply (hom_inv_set _ _ _ (JsObject pr props))|].
      split; [simpl; by etrans; [|apply Hext]|]. split.
      * by eapply new_entries_step.
      * exists pr2, ps2. split; [|done]. simpl. apply list_lookup_insert_eq.
        by eapply lookup_lt_Some.
Qed.

End Correspondence.

(** ** Reading the finished clone *)

Lemma own_prop_app_Some k ps qs p :
  own_prop k ps = Some p → own_prop k (ps ++ qs) = Some p.
Proof.
  unfold own_prop. induction ps as [|q ps IH]; simpl; [done|].
  by destruct (bool_decide (p_key q = k)).
Qed.

Lemma own_prop_app_None k ps qs :
  own_prop k ps = None → own_prop k (ps ++ qs) = own_prop k qs.
Proof.
  unfold own_prop. induction ps as [|q ps IH]; simpl; [done|].
  by destruct (bool_decide (p_key q = k)).
Qed.

(** Every key that was copied left its clone in the container: as an own
    enumerable property of the same name, or, for [__proto__], as the
    prototype. *)
Lemma replay_field seen props keys pr' ps' :
  NoDup keys → replay seen props keys = Some (pr', ps') →
  ∀ k p, k ∈ keys → own_prop (KString k) props = Some p →
  ∃ w, image_val seen (p_val p) = Some w ∧
       if bool_decide (k = "__proto__") then pr' = set_proto_to ObjectPrototype w
       else own_prop (KString k) ps' = Some (Prop_ (KString k) w true).
Proof.
  revert pr' ps'. induction keys as [|key keys IH] using rev_ind; intros pr' ps' Hnd Hr k p Hk Hp.
  { by apply elem_of_nil in Hk. }
  apply NoDup_app in Hnd as (Hnd & Hnot & _).
  rewrite replay_snoc in Hr.
  destruct (replay seen props keys) as [[pr0 ps0]|] eqn:Hr0; [|done]. simpl in Hr.
  destruct (own_prop (KString key) props) as [pk|] eqn:Hpk; [|done].
  destruct (image_val seen (p_val pk)) as [wk|] eqn:Hwk; [|done].
  injection Hr as Hr. unfold apply_key in Hr. simpl in Hr.
  assert (key ∉ keys) as Hkey.
  { intros Hin. apply (Hnot _ Hin). by left. }
  apply elem_of_app in Hk as [Hk|Hk]; [|apply list_elem_of_singleton in Hk as ->].
  - destruct (IH _ _ Hnd eq_refl k p Hk Hp) as (w & Hw & Hres). exists w. split; [done|].
    assert (k ≠ key) by (intros ->; done).
    case_bool_decide as Hkp; case_bool_decide as Hkeyp; simplify_eq; try done.
    by apply own_prop_app_Some.
  - rewrite Hpk in Hp. injection Hp as <-. exists wk. split; [done|].
    case_bool_decide as Hkeyp; simplify_eq.
    + f_equal. by eapply replay_shape.
    + rewrite own_prop_app_None by (by eapply replay_own_prop_None).
      unfold own_prop. simpl. by rewrite bool_decide_eq_true_2.
Qed.

(** ** The only abrupt completion *)

Lemma assign_throw n out key w st e st' :
  assign n out key w st = Some (Throw e, st') →
  e = TypeError "Cyclic __proto__ value" ∧ key = "__proto__".
Proof.
  unfold assign. destruct (st_heap st !! out) as [[|pr props]|]; try done.
  destruct (own_prop _ props); [done|].
  case_bool_decide; [|done].
  destruct (reaches_proto_accessor _ _ _) as [[]|]; [|done..].
  destruct w; simpl; try done.
  - intros (? & ? & _ & [(? & _)|[(? & _)|([= <-] & _)]])%set_prototype_of_Some; done.
  - intros (? & ? & _ & [(? & _)|[(? & _)|([= <-] & _)]])%set_prototype_of_Some; done.
Qed.

Lemma for_of_Throw n (body : val → M unit) l i st e st' :
  for_of n body l i st = Some (Throw e, st') →
  ∃ v s, body v s = Some (Throw e, st').
Proof.
  revert i st. induction n as [|n IH]; intros i st; [done|]. simpl.
  destruct (st_heap st !! l) as [[elems|]|]; try done.
  destruct (elems !! i) as [v|]; [|done].
  rewrite bind_Some. intros [(e0 & s' & Hb & [= <- <-])|(a & s' & Hb & Hrest)]; eauto.
Qed.

Lemma for_keys_Throw (body : string → M unit) keys st e st' :
  for_keys body keys st = Some (Throw e, st') →
  ∃ k s, body k s = Some (Throw e, st').
Proof.
  revert st. induction keys as [|k keys IH]; intros st; [done|]. simpl.
  rewrite bind_Some. intros [(e0 & s' & Hb & [= <- <-])|(a & s' & Hb & Hrest)]; eauto.
Qed.

Lemma deepClone_throw n v st e st' :
  deepClone n v st = Some (Throw e, st') → e = TypeError "Cyclic __proto__ value".
Proof.
  revert v st e st'. induction n as [|n IH]; intros v st e st' H; [done|].
  apply deepClone_cases in H as (n' & [= <-] & H).
  destruct H as [([=] & _)|[(l & w & _ & _ & [=] & _)|
    [(l & elems & c' & -> & Hs & Hh & Hloop & Hc)|(l & pr & props & c' & -> & Hs & Hh & Hloop & Hc)]]].
  - destruct c' as [[]|e']; [done|]. injection Hc as ->.
    apply for_of_Throw in Hloop as (v & s & Hb).
    apply array_body_Some in Hb as [(e1 & Hd & [= <-])|(? & ? & ? & _ & _ & [=] & _)].
    by eapply IH.
  - destruct c' as [[]|e']; [done|]. injection Hc as ->.
    apply for_keys_Throw in Hloop as (key & s & Hb).
    apply object_body_Some in Hb
      as (? & ? & p & _ & _ & [(e1 & Hd & [= <-])|(w & s2 & Hd & Ha)]).
    + by eapply IH.
    + by apply assign_throw in Ha as [-> _].
Qed.

(** ** From the source graph to [seen] and back *)

Lemma image_of_child seen o o' v :
  (∀ pr props, o = JsObject pr props → NoDup (p_key <$> props)) →
  image_of seen o o' → v ∈ children o → is_Some (image_val seen v).
Proof.
  intros Hnd. destruct o as [vs|pr props], o' as [ws|pr' ps']; simpl; try done.
  - intros Hall (i & Hi)%list_elem_of_lookup.
    destruct (Forall2_lookup_l _ _ _ _ _ Hall Hi) as (w & _ & Hw). by eexists.
  - intros Hr (p & Hp & Hv)%list_elem_of_omap.
    destruct (p_key p) as [k|] eqn:Hk; [|done].
    destruct (p_enum p) eqn:He; [|done]. injection Hv as <-.
    specialize (Hnd _ _ eq_refl).
    destruct (replay_field _ _ _ _ _ (object_keys_NoDup _ Hnd) Hr k p) as (w & Hw & _).
    + apply object_keys_elem. by exists p.
    + by apply own_prop_unique.
    + by eexists.
Qed.

Lemma reach_seen h0 st v l :
  wf_heap h0 = true →
  (∀ l, is_Some (st_seen st !! l) → done_at h0 st l) →
  reach children h0 v l → is_Some (image_val (st_seen st) v) →
  is_Some (st_seen st !! l).
Proof.
  intros Hwf Hdone. induction 1 as [l o Hl|l o v l' Hl Hv _ IH]; [done|].
  simpl. intros Hs. apply IH.
  destruct (Hdone _ Hs) as (c & o1 & o' & _ & Ho & _ & Him). simplify_eq.
  eapply image_of_child; [|done..].
  intros pr props ->. by eapply wf_heap_distinct.
Qed.

(** The state in which a top-level call has returned: [seen] is defined
    exactly on the source objects reachable from the argument, and each
    has its finished clone. *)
Lemma deepClone_top h v n r st' :
  wf_heap h = true → val_closed (length h) v = true →
  deepClone n v (State h ∅) = Some (Normal r, st') →
  hom_inv h st' ∧ image_val (st_seen st') v = Some r ∧
  (∀ l, is_Some (st_seen st' !! l) → done_at h st' l) ∧
  (∀ l, is_Some (st_seen st' !! l) ↔ reach children h v l).
Proof.
  intros Hwf Hv H.
  destruct (deepClone_hom h Hwf _ _ _ _ _ H (hom_inv_init h) Hv) as (Hinv & Hr & Hnew).
  assert (∀ l, is_Some (st_seen st' !! l) → done_at h st' l) as Hdone.
  { intros l Hl. by apply Hnew. }
  split; [done|]. split; [done|]. split; [done|]. intros l. split.
  - intros Hl. by apply Hnew.
  - intros Hl. eapply reach_seen; [done..|]. by rewrite Hr.
Qed.

(** A reference held in a field of a source object whose clone is
    finished: the clone holds, in the same field, the clone that [seen]
    records for the referenced object; but what the source holds under
    the key [__proto__] went through the accessor and has become the
    prototype of the clone. *)
Lemma field_clone h st l o s S :
  wf_heap h = true → hom_inv h st → done_at h st l →
  h !! l = Some o → field o s = Some (VObject S) →
  ∃ c o' S', st_seen st !! l = Some (VObject c) ∧
             st_seen st !! S = Some (VObject S') ∧
             st_heap st !! c = Some o' ∧
             (s ≠ Key "__proto__" → field o' s = Some (VObject S')) ∧
             (s = Key "__proto__" → proto_of o' = ProtoObj S').
Proof.
  intros Hwf Hinv (c & o1 & o' & Hl & Ho1 & Hc & Him) Ho Hf.
  assert (o1 = o) as -> by congruence. clear Ho1.
  assert (∀ w, st_seen st !! S = Some w → ∃ S', w = VObject S') as Hobj.
  { intros w Hw. destruct (hi_seen _ _ Hinv _ _ Hw) as [_ (S' & -> & _)]. eauto. }
  destruct o as [vs|pr props], o' as [ws|pr' ps'], s as [i|k]; simpl in *; try done.
  - destruct (Forall2_lookup_l _ _ _ _ _ Him Hf) as (w & Hw & Hm). simpl in Hm.
    destruct (Hobj _ Hm) as [S' ->]. exists c, (JsArray ws), S'.
    split; [done|]. split; [done|]. split; [done|]. split; [done|]. by intros [=].
  - destruct (own_prop (KString k) props) as [p|] eqn:Hp; [|done].
    destruct (p_enum p) eqn:He; [|done]. injection Hf as Hf.
    pose proof (wf_heap_distinct _ _ _ _ Hwf Ho) as Hnd.
    destruct (replay_field _ _ _ _ _ (object_keys_NoDup _ Hnd) Him k p) as (w & Hw & Hres);
      [|done|].
    { apply object_keys_elem. exists p. by apply own_prop_Some in Hp as [? ?]. }
    rewrite Hf in Hw. simpl in Hw. destruct (Hobj _ Hw) as [S' ->].
    exists c, (JsObject pr' ps'), S'. split; [done|]. split; [done|]. split; [done|].
    case_bool_decide as Hk.
    + subst k pr'. split; [by intros []|done].
    + split; [|by intros [= ->]]. intros _. simpl. by rewrite Hres.
Qed.

(** ** Bodies that agree where it matters *)



Lemma array_body_seen n c v st r st' :
  array_body n c v st = Some (r, st') → st_seen st ⊆ st_seen st'.
Proof.
  intros [(e & Hd & _)|(w & s1 & ws & Hd & _ & _ & ->)]%array_body_Some;
    by apply deepClone_extends in Hd as [_ ?].
Qed.

Lemma object_body_seen n l c key st r st' :
  object_body n l c key st = Some (r, st') → st_seen st ⊆ st_seen st'.
Proof.
  intros (? & ? & p & _ & _ & [(e & Hd & _)|(w & s1 & Hd & Ha)])%object_body_Some.
  - by apply deepClone_extends in Hd as [_ ?].
  - apply deepClone_extends in Hd as [_ ?].
    by apply assign_state in Ha as (? & ? & _ & [->|(? & ? & _ & -> & _)]).
Qed.

Lemma populate_seen n l c o st r st' :
  populate n l c o st = Some (r, st') → st_seen st ⊆ st_seen st'.
Proof.
  destruct o as [elems|pr props]; simpl.
  - apply (for_of_inv (λ s, st_seen st ⊆ st_seen s)); [|done].
    intros v s c0 s' Hs Hb. etrans; [done|]. by eapply array_body_seen.
  - apply (for_keys_inv (λ s, st_seen st ⊆ st_seen s)); [|done].
    intros k s c0 s' _ Hs Hb. etrans; [done|]. by eapply object_body_seen.
Qed.


(** ** The call from the top *)

Lemma clone_Some n v h c h' :
  clone n v h = Some (c, h') ↔
  ∃ st', deepClone n v (State h ∅) = Some (c, st') ∧ st_heap st' = h'.
Proof.
  unfold clone. destruct (deepClone n v (State h ∅)) as [[c0 st0]|]; split.
  - intros [= <- <-]. eauto.
  - by intros (st' & [= <- <-] & <-).
  - done.
  - by intros (st' & [=] & _).
Qed.

Lemma clone_terminates h v :
  closed_heap h = true → val_closed (length h) v = true →
  ∃ n c h', clone n v h = Some (c, h').
Proof.
  intros Hh Hv. destruct (deepClone_terminates h v Hh Hv) as (n & c & st' & H).
  exists n, c, (st_heap st'). apply clone_Some. eauto.
Qed.

(** ** Away from [__proto__]: the clone of an ordinary object *)

Lemma filter_no_proto (keys : list string) :
  "__proto__" ∉ keys → filter (λ k, k ≠ "__proto__") keys = keys.
Proof.
  induction keys as [|k keys IH]; [done|].
  rewrite not_elem_of_cons. intros [Hk Hkeys].
  rewrite filter_cons, decide_True by done. by rewrite IH.
Qed.

Lemma field_own_enumerable pr props k v :
  field (JsObject pr props) (Key k) = Some v →
  ∃ p, own_prop (KString k) props = Some p ∧ p_val p = v ∧ k ∈ object_keys props.
Proof.
  simpl. destruct (own_prop (KString k) props) as [p|] eqn:Hp; [|done].
  destruct (p_enum p) eqn:He; [|done]. intros [= <-]. exists p.
  split; [done|]. split; [done|]. apply object_keys_elem. exists p.
  by apply own_prop_Some in Hp as [? ?].
Qed.

Lemma object_keys_field pr props k :
  NoDup (p_key <$> props) → k ∈ object_keys props →
  ∃ p, own_prop (KString k) props = Some p ∧
       field (JsObject pr props) (Key k) = Some (p_val p).
Proof.
  intros Hnd (p & Hin & Hk & He)%object_keys_elem. exists p.
  pose proof (own_prop_unique _ _ _ Hnd Hin Hk) as Hp.
  split; [done|]. simpl. by rewrite Hp, He.
Qed.

Lemma object_keys_all_enumerable ps keys :
  p_key <$> ps = KString <$> keys → Forall (λ p, p_enum p = true) ps →
  object_keys ps = keys.
Proof.
  revert keys. induction ps as [|p ps IH]; intros [|k keys]; try done.
  rewrite !fmap_cons, Forall_cons. intros [= Hk Hks] [He Hes].
  unfold object_keys. simpl. rewrite Hk, He. f_equal. by apply IH.
Qed.

(** The clone of an ordinary object that has no own enumerable property
    named [__proto__], in a run that starts with [seen] empty, is a new
    plain object: its prototype is %Object.prototype%, whatever that of
    the source; its properties are those that [Object.keys] lists for the
    source, in that order, all enumerable.  Each holds the clone of the
    source's value: what [deepClone] answers for that value with the
    [seen] map of the run, the value itself when it is a primitive and an
    object allocated by the run when it is an object. *)
Lemma clone_plain_object (h : list object) (l : nat) pr props n r st' :
  wf_heap h = true → h !! l = Some (JsObject pr props) →
  "__proto__" ∉ object_keys props →
  deepClone n (VObject l) (State h ∅) = Some (Normal r, st') →
  ∃ c ps,
    r = VObject c ∧ length h ≤ c ∧
    st_heap st' !! c = Some (JsObject ObjectPrototype ps) ∧
    p_key <$> ps = KString <$> object_keys props ∧
    Forall (λ p, p_enum p = true) ps ∧
    object_keys ps = object_keys props ∧
    ∀ k v, field (JsObject pr props) (Key k) = Some v →
      ∃ w, field (JsObject ObjectPrototype ps) (Key k) = Some w ∧
           (∀ m, deepClone (S m) v st' = Some (Normal w, st')) ∧
           match v with
           | VObject _ => ∃ c', w = VObject c' ∧ length h ≤ c' < length (st_heap st')
           | _ => w = v
           end.
Proof.
  intros Hwf Hl Hnp H.
  assert (val_closed (length h) (VObject l) = true) as Hv.
  { simpl. apply bool_decide_eq_true. by eapply lookup_lt_Some. }
  destruct (deepClone_top _ _ _ _ _ Hwf Hv H) as (Hinv & Hr & Hdone & _).
  simpl in Hr.
  destruct (Hdone l) as (c & o & o' & Hlc & Ho & Hc & Him); [by rewrite Hr|].
  assert (o = JsObject pr props) as -> by congruence.
  assert (r = VObject c) as -> by congruence.
  destruct o' as [|pr' ps]; [done|]. simpl in Him.
  destruct (replay_shape _ _ _ _ _ Him) as (Hkeys & Henum & Hproto).
  rewrite filter_no_proto in Hkeys by done. rewrite (Hproto Hnp) in *.
  destruct (hi_seen _ _ Hinv _ _ Hlc) as [_ (c' & [= <-] & Hc')].
  exists c, ps. split; [done|]. split; [lia|]. split; [done|].
  split; [done|]. split; [done|]. split; [by apply object_keys_all_enumerable|].
  intros k v (p & Hp & <- & Hk)%field_own_enumerable.
  pose proof (object_keys_NoDup _ (wf_heap_distinct _ _ _ _ Hwf Hl)) as Hnd.
  destruct (replay_field _ _ _ _ _ Hnd Him k p Hk Hp) as (w & Hw & Hres).
  exists w. rewrite bool_decide_eq_false_2 in Hres by (by intros ->).
  split; [simpl; by rewrite Hres|].
  destruct (p_val p) as [| | | | | | |lv] eqn:Hpv; simpl in Hw;
    try (injection Hw as <-; split; [by intros m|done]).
  split; [intros m; by apply deepClone_seen|].
  destruct (hi_seen _ _ Hinv _ _ Hw) as [_ (cv & -> & Hcv)]. by exists cv.
Qed.

Example clone_shared :
  clone 5 (VObject 0) shared = Some (Normal (VObject 3), shared_cloned).
Proof. reflexivity. Qed.

(** ** Away from [__proto__] and from cycles: the clone compares equal *)

Lemma deep_equal_primitive k (h1 h2 : list object) v :
  (∀ l, v ≠ VObject l) → deep_equal k h1 h2 v v = true.
Proof.
  intros Hv. destruct v, k; simpl; try reflexivity;
    try (by apply bool_decide_eq_true_2); by destruct (Hv l).
Qed.

Lemma deep_equal_image h st k :
  wf_heap h = true → no_proto_key h = true → hom_inv h st →
  (∀ l, is_Some (st_seen st !! l) → done_at h st l) →
  ∀ v w, bounded k h v = true → image_val (st_seen st) v = Some w →
         deep_equal k h (st_heap st) v w = true.
Proof.
  intros Hwf Hnp Hinv Hdone. induction k as [|k IH]; intros v w Hb Hw.
  { destruct v as [| | | | | | |l]; [..|by simpl in Hb]; simpl in Hw; simplify_eq;
      by apply deep_equal_primitive. }
  destruct v as [| | | | | | |l]; simpl in Hw; simplify_eq;
    try (by apply deep_equal_primitive).
  simpl in Hb. destruct (h !! l) as [o|] eqn:Hl; [|done].
  rewrite forallb_forall in Hb.
  destruct (Hdone l) as (c & o1 & o' & Hlc & Ho & Hc & Him); [by rewrite Hw|].
  assert (o1 = o) as -> by congruence. assert (w = VObject c) as -> by congruence.
  simpl. rewrite Hl, Hc. destruct o as [vs|pr props], o' as [ws|pr' ps]; simpl in Him; try done.
  - apply andb_true_iff. split.
    + apply bool_decide_eq_true. by eapply Forall2_length.
    + apply forallb_forall. intros [x y] Hxy%list_elem_of_In.
      apply list_elem_of_lookup in Hxy as [i Hi].
      apply lookup_zip_with_Some in Hi as (x' & y' & [= <- <-] & Hx & Hy).
      simpl. apply IH.
      * apply Hb, list_elem_of_In. simpl. by eapply list_elem_of_lookup_2.
      * destruct (Forall2_lookup_l _ _ _ _ _ Him Hx) as (y'' & Hy' & Hxy).
        by simplify_eq.
  - pose proof (no_proto_key_lookup _ _ _ _ Hnp Hl) as Hnk.
    pose proof (wf_heap_distinct _ _ _ _ Hwf Hl) as Hnd.
    destruct (replay_shape _ _ _ _ _ Him) as (Hkeys & Henum & _).
    rewrite filter_no_proto in Hkeys by done. unfold obj_equal.
    rewrite (object_keys_all_enumerable _ _ Hkeys Henum).
    rewrite !andb_true_iff. repeat split.
    + apply forallb_forall. intros x Hx%list_elem_of_In. by apply bool_decide_eq_true.
    + apply forallb_forall. intros x Hx%list_elem_of_In. by apply bool_decide_eq_true.
    + apply forallb_forall. intros x Hx%list_elem_of_In.
      destruct (object_keys_field pr props x Hnd Hx) as (p & Hp & Hf).
      destruct (replay_field _ _ _ _ _ (object_keys_NoDup _ Hnd) Him x p Hx Hp)
        as (y & Hy & Hres).
      rewrite bool_decide_eq_false_2 in Hres by (by intros ->).
      simpl in Hf. simpl. rewrite Hf, Hres. simpl. apply IH; [|done].
      apply Hb, list_elem_of_In. by eapply object_keys_child.
Qed.

(** On a finite acyclic graph none of whose objects has an own
    enumerable property named [__proto__], the call returns and the clone
    compares equal to the source. *)
Theorem clone_deep_equal (h : list object) (v : val) (k : nat) :
  wf_heap h = true → no_proto_key h = true →
  val_closed (length h) v = true → bounded k h v = true →
  (∃ n r h', clone n v h = Some (Normal r, h')) ∧
  ∀ n r h', clone n v h = Some (Normal r, h') → deep_equal k h h' v r = true.
Proof.
  intros Hwf Hnp Hv Hb. split.
  - destruct (deepClone_returns h v (wf_heap_closed _ Hwf) Hnp Hv) as (n & r & st' & H).
    exists n, r, (st_heap st'). apply clone_Some. eauto.
  - intros n r h' (st' & H & <-)%clone_Some.
    destruct (deepClone_top _ _ _ _ _ Hwf Hv H) as (Hinv & Hr & Hdone & _).
    by eapply deep_equal_image.
Qed.

Lemma clone_deep_equal_witness :
  (∃ n r h', clone n (VObject 0) shared = Some (Normal r, h')) ∧
  ∀ n r h', clone n (VObject 0) shared = Some (Normal r, h') →
            deep_equal 3 shared h' (VObject 0) r = true.
Proof.
  apply (clone_deep_equal shared (VObject 0) 3); reflexivity.
Defined.

(** ** The heap a call leaves behind is well formed again *)

Lemma val_closed_mono n n' v : n ≤ n' → val_closed n v = true → val_closed n' v = true.
Proof.
  intros Hle. destruct v; simpl; try done.
  intros ?%bool_decide_eq_true. apply bool_decide_eq_true. lia.
Qed.

(** Each property of a clone holds the clone of the value of a property
    that [Object.keys] lists for the source. *)
Lemma replay_values seen props keys pr' ps' :
  replay seen props keys = Some (pr', ps') →
  Forall (λ q, ∃ k p, k ∈ keys ∧ own_prop (KString k) props = Some p ∧
                      image_val seen (p_val p) = Some (p_val q)) ps'.
Proof.
  revert pr' ps'. induction keys as [|key keys IH] using rev_ind; intros pr' ps'.
  { intros [= <- <-]. constructor. }
  rewrite replay_snoc. destruct (replay seen props keys) as [[pr0 ps0]|]; [|done]. simpl.
  destruct (own_prop _ props) as [p|] eqn:Hp; [|done].
  destruct (image_val seen (p_val p)) as [w|] eqn:Hw; [|done].
  assert (Forall (λ q, ∃ k p, k ∈ keys ++ [key] ∧ own_prop (KString k) props = Some p ∧
                              image_val seen (p_val p) = Some (p_val q)) ps0) as Hold.
  { eapply Forall_impl; [exact (IH _ _ eq_refl)|]. intros q (k & p0 & Hk & Hrest).
    exists k, p0. split; [|done]. apply elem_of_app. by left. }
  unfold apply_key. case_bool_decide; intros [= <- <-]; simpl; [done|].
  apply Forall_app. split; [done|]. apply Forall_singleton.
  exists key, p. split; [|done]. apply elem_of_app. right. by left.
Qed.

Lemma clone_heap_wf h v n r st' :
  wf_heap h = true → val_closed (length h) v = true →
  deepClone n v (State h ∅) = Some (Normal r, st') →
  wf_heap (st_heap st') = true ∧
  val_closed (length (st_heap st')) r = true ∧
  (no_proto_key h = true → no_proto_key (st_heap st') = true).
Proof.
  intros Hwf Hv H.
  destruct (deepClone_top _ _ _ _ _ Hwf Hv H) as (Hinv & Hr & Hdone & _).
  destruct (deepClone_fresh (length h) _ _ _ _ _ H (fresh_inv_init h)) as [Hfresh _].
  pose proof (prefix_length _ _ (hi_prefix _ _ Hinv)) as Hlen.
  (* every object of the final heap is a source object or a finished clone *)
  assert (∀ o, In o (st_heap st') →
    In o h ∨ ∃ c l o0, length h ≤ c ∧ st_heap st' !! c = Some o ∧ h !! l = Some o0 ∧
                       image_of (st_seen st') o0 o) as Hcases.
  { intros o [c Hc]%list_elem_of_In%list_elem_of_lookup.
    destruct (decide (c < length h)) as [Hlt|Hge].
    - left. apply list_elem_of_In. apply list_elem_of_lookup. exists c.
      by rewrite (prefix_lookup_lt _ _ _ Hlt (hi_prefix _ _ Hinv)).
    - right. destruct (hi_surj _ _ Hinv c) as [l Hl].
      { split; [lia|]. by eapply lookup_lt_Some. }
      destruct (Hdone l) as (c' & o0 & o' & Hl' & Ho0 & Hc' & Him); [by rewrite Hl|].
      assert (c' = c) as -> by congruence. assert (o' = o) as -> by congruence.
      exists c, l, o0. split; [lia|done]. }
  pose proof Hwf as [Hclosed Hdistinct]%andb_true_iff.
  unfold closed_heap, distinct_keys in Hclosed, Hdistinct.
  rewrite forallb_forall in Hclosed, Hdistinct.
  split; [|split].
  - apply andb_true_iff. split; apply forallb_forall; intros o Ho.
    + destruct (Hcases o Ho) as [Hin|(c & l & o0 & Hc & Hoc & _)].
      * specialize (Hclosed o Hin). rewrite forallb_forall in Hclosed.
        apply forallb_forall. intros x Hx. eapply val_closed_mono; [done|]. by apply Hclosed.
      * destruct (fi_obj _ _ Hfresh c o Hc Hoc) as [HF _].
        apply forallb_forall. intros x Hx%list_elem_of_In.
        eapply Forall_forall in HF; [|done].
        destruct x; simpl in *; try done. apply bool_decide_eq_true. lia.
    + destruct (Hcases o Ho) as [Hin|(c & l & o0 & Hc & Hoc & Ho0 & Him)];
        [by apply Hdistinct|].
      destruct o0 as [vs|pr props], o as [ws|pr' ps]; simpl in Him; try done.
      apply bool_decide_eq_true.
      destruct (replay_shape _ _ _ _ _ Him) as (-> & _ & _).
      apply NoDup_fmap_2; [by intros ?? [=]|]. apply NoDup_filter.
      apply object_keys_NoDup. by eapply wf_heap_distinct.
  - destruct v; simpl in Hr; simplify_eq; try done.
    destruct (hi_seen _ _ Hinv _ _ Hr) as [_ (c & -> & Hc)].
    simpl. apply bool_decide_eq_true. lia.
  - intros Hnp. unfold no_proto_key in *. rewrite forallb_forall in Hnp.
    apply forallb_forall. intros o Ho.
    destruct (Hcases o Ho) as [Hin|(c & l & o0 & Hc & Hoc & Ho0 & Him)]; [by apply Hnp|].
    destruct o0 as [vs|pr props], o as [ws|pr' ps]; simpl in Him; try done.
    destruct (replay_shape _ _ _ _ _ Him) as (Hkeys & Henum & _).
    rewrite (object_keys_all_enumerable _ _ Hkeys Henum).
    apply negb_true_iff, bool_decide_eq_false.
    intros [Hne _]%list_elem_of_filter. by apply Hne.
Qed.

(** The clone is no deeper than the source. *)
Lemma bounded_image h st k :
  wf_heap h = true → hom_inv h st →
  (∀ l, is_Some (st_seen st !! l) → done_at h st l) →
  ∀ v w, bounded k h v = true → image_val (st_seen st) v = Some w →
         bounded k (st_heap st) w = true.
Proof.
  intros Hwf Hinv Hdone. induction k as [|k IH]; intros v w Hb Hw.
  { destruct v as [| | | | | | |l]; [..|by simpl in Hb]; simpl in Hw; by simplify_eq. }
  destruct v as [| | | | | | |l]; simpl in Hw; simplify_eq; try done.
  simpl in Hb. destruct (h !! l) as [o|] eqn:Hl; [|done].
  rewrite forallb_forall in Hb.
  destruct (Hdone l) as (c & o1 & o' & Hlc & Ho & Hc & Him); [by rewrite Hw|].
  assert (o1 = o) as -> by congruence. assert (w = VObject c) as -> by congruence.
  simpl. rewrite Hc. apply forallb_forall. intros y Hy%list_elem_of_In.
  destruct o as [vs|pr props], o' as [ws|pr' ps]; simpl in Him; try done.
  - simpl in Hy. apply list_elem_of_lookup in Hy as [i Hi].
    destruct (Forall2_lookup_r _ _ _ _ _ Him Hi) as (x & Hx & Hxy).
    apply (IH x); [|done]. apply Hb, list_elem_of_In. simpl. by eapply list_elem_of_lookup_2.
  - simpl in Hy. apply list_elem_of_omap in Hy as (q & Hq & Hy).
    assert (p_val q = y) as <-.
    { destruct (p_key q), (p_enum q); by simplify_eq. }
    pose proof (replay_values _ _ _ _ _ Him) as Hvals.
    eapply Forall_forall in Hvals as (key & p & Hkey & Hp & Hpq); [|done].
    apply (IH (p_val p)); [|done]. apply Hb, list_elem_of_In.
    eapply object_keys_child; [|done..]. by eapply wf_heap_distinct.
Qed.

(** ** Comparison composes *)

Lemma obj_equal_trans (e12 e23 e13 : val → val → bool) o1 o2 o3 :
  (∀ a b c, e12 a b = true → e23 b c = true → e13 a c = true) →
  obj_equal e12 o1 o2 = true → obj_equal e23 o2 o3 = true →
  obj_equal e13 o1 o3 = true.
Proof.
  intros Htrans.
  destruct o1 as [xs|p1 ps], o2 as [ys|p2 qs], o3 as [zs|p3 rs]; try done.
  - unfold obj_equal. rewrite !andb_true_iff, !bool_decide_eq_true, !forallb_forall.
    intros [Hl12 H12] [Hl23 H23]. split; [congruence|].
    intros [x z] Hxz%list_elem_of_In. apply list_elem_of_lookup in Hxz as [i Hi].
    apply lookup_zip_with_Some in Hi as (x' & z' & [= <- <-] & Hx & Hz).
    destruct (lookup_lt_is_Some_2 ys i) as [y Hy].
    { rewrite <-Hl12. by eapply lookup_lt_Some. }
    apply (Htrans x y z).
    + apply (H12 (x, y)), list_elem_of_In, list_elem_of_lookup. exists i.
      apply lookup_zip_with_Some. by exists x, y.
    + apply (H23 (y, z)), list_elem_of_In, list_elem_of_lookup. exists i.
      apply lookup_zip_with_Some. by exists y, z.
  - unfold obj_equal. rewrite !andb_true_iff, !forallb_forall.
    intros [[Hk12 Hk21] Hf12] [[Hk23 Hk32] Hf23].
    assert (∀ k, In k (object_keys ps) → In k (object_keys qs)) as Hpq.
    { intros k Hk. specialize (Hk12 k Hk). apply bool_decide_eq_true in Hk12.
      by apply list_elem_of_In. }
    assert (∀ k, In k (object_keys rs) → In k (object_keys qs)) as Hrq.
    { intros k Hk. specialize (Hk32 k Hk). apply bool_decide_eq_true in Hk32.
      by apply list_elem_of_In. }
    repeat split.
    + intros k Hk. by apply Hk23, Hpq.
    + intros k Hk. by apply Hk21, Hrq.
    + intros k Hk. specialize (Hf12 k Hk). specialize (Hf23 k (Hpq k Hk)).
      simpl in *.
      destruct (own_prop (KString k) ps) as [p|]; [|done].
      destruct (p_enum p); [|done].
      destruct (own_prop (KString k) qs) as [q|]; [|done].
      destruct (p_enum q); [|done].
      destruct (own_prop (KString k) rs) as [r|]; [|done].
      destruct (p_enum r); [|done]. by eapply Htrans.
Qed.

Lemma deep_equal_not_object k (h1 h2 : list object) a b :
  (∀ l, a ≠ VObject l) → deep_equal k h1 h2 a b = true → b = a.
Proof.
  intros Ha. destruct a as [| | | | | | |l]; [..|by destruct (Ha l)];
    destruct k, b; simpl; try done; intros H%bool_decide_eq_true; by simplify_eq.
Qed.

Lemma deep_equal_trans k (h1 h2 h3 : list object) a b c :
  deep_equal k h1 h2 a b = true → deep_equal k h2 h3 b c = true →
  deep_equal k h1 h3 a c = true.
Proof.
  revert a b c. induction k as [|k IH]; intros a b c.
  - destruct a as [| | | | | | |l]; [..|by destruct b]; intros H12 H23;
      apply deep_equal_not_object in H12 as ->; try done;
      apply deep_equal_not_object in H23 as ->; try done;
      by apply deep_equal_primitive.
  - destruct a as [| | | | | | |l1]; cycle 7.
    { destruct b as [| | | | | | |l2]; try done.
      destruct c as [| | | | | | |l3]; [by destruct k..|]. simpl.
      destruct (h1 !! l1) as [o1|]; [|done].
      destruct (h2 !! l2) as [o2|]; [|done].
      destruct (h3 !! l3) as [o3|]; [|done].
      by apply obj_equal_trans. }
    all: intros H12 H23; apply deep_equal_not_object in H12 as ->; try done;
      apply deep_equal_not_object in H23 as ->; try done;
      by apply deep_equal_primitive.
Qed.

(** On a finite acyclic graph none of whose objects has an own
    enumerable property named [__proto__], cloning the clone returns
    again, and what it returns compares equal to the original. *)
Theorem clone_twice_deep_equal (h : list object) (v : val) (k : nat) :
  wf_heap h = true → no_proto_key h = true →
  val_closed (length h) v = true → bounded k h v = true →
  (∃ n1 r1 h1 n2 r2 h2, clone n1 v h = Some (Normal r1, h1) ∧
                        clone n2 r1 h1 = Some (Normal r2, h2)) ∧
  ∀ n1 r1 h1 n2 r2 h2,
    clone n1 v h = Some (Normal r1, h1) → clone n2 r1 h1 = Some (Normal r2, h2) →
    deep_equal k h h2 v r2 = true.
Proof.
  intros Hwf Hnp Hv Hb.
  assert (∀ n1 r1 h1, clone n1 v h = Some (Normal r1, h1) →
    wf_heap h1 = true ∧ no_proto_key h1 = true ∧ val_closed (length h1) r1 = true ∧
    bounded k h1 r1 = true ∧ deep_equal k h h1 v r1 = true) as Hfirst.
  { intros n1 r1 h1 (st1 & H1 & <-)%clone_Some.
    destruct (clone_heap_wf _ _ _ _ _ Hwf Hv H1) as (Hwf1 & Hv1 & Hnp1).
    destruct (deepClone_top _ _ _ _ _ Hwf Hv H1) as (Hinv & Hr & Hdone & _).
    split; [done|]. split; [by apply Hnp1|]. split; [done|]. split.
    - by apply (bounded_image h st1 k Hwf Hinv Hdone v r1).
    - by apply (deep_equal_image h st1 k Hwf Hnp Hinv Hdone v r1). }
  split.
  - destruct (proj1 (clone_deep_equal h v k Hwf Hnp Hv Hb)) as (n1 & r1 & h1 & H1).
    destruct (Hfirst _ _ _ H1) as (Hwf1 & Hnp1 & Hv1 & Hb1 & _).
    destruct (proj1 (clone_deep_equal h1 r1 k Hwf1 Hnp1 Hv1 Hb1)) as (n2 & r2 & h2 & H2).
    by exists n1, r1, h1, n2, r2, h2.
  - intros n1 r1 h1 n2 r2 h2 H1 H2.
    destruct (Hfirst _ _ _ H1) as (Hwf1 & Hnp1 & Hv1 & Hb1 & He1).
    eapply deep_equal_trans; [done|].
    by eapply (proj2 (clone_deep_equal h1 r1 k Hwf1 Hnp1 Hv1 Hb1)).
Qed.

Lemma clone_twice_deep_equal_witness :
  (∃ n1 r1 h1 n2 r2 h2, clone n1 (VObject 0) shared = Some (Normal r1, h1) ∧
                        clone n2 r1 h1 = Some (Normal r2, h2)) ∧
  ∀ n1 r1 h1 n2 r2 h2,
    clone n1 (VObject 0) shared = Some (Normal r1, h1) →
    clone n2 r1 h1 = Some (Normal r2, h2) →
    deep_equal 3 shared h2 (VObject 0) r2 = true.
Proof.
  apply (clone_twice_deep_equal shared (VObject 0) 3); reflexivity.
Defined.

(** * The specification, statement by statement *)

(** C5.  A primitive input — any value that is not a container, null
    included — is returned as it is, the very same value, and nothing
    changes: [clone(5) === 5], [clone("x") === "x"], [clone(null) === null]. *)
Theorem C5_primitive_returned_unchanged (v : val) (n : nat) (st : state) :
  typeof v ≠ "object" ∨ v = VNull →
  deepClone (S n) v st = Some (Normal v, st) ∧
  clone (S n) v (st_heap st) = Some (Normal v, st_heap st) ∧
  strict_equals v v = true.
Proof.
  intros Hv. assert (∀ l, v ≠ VObject l) as Hprim.
  { intros l ->. by destruct Hv. }
  split; [by apply deepClone_primitive|]. split.
  - apply clone_Some. exists (State (st_heap st) ∅). split; [|done].
    by apply deepClone_primitive.
  - unfold strict_equals. by apply bool_decide_eq_true.
Qed.

Lemma C5_witness :
  ((typeof (VNumber 5) ≠ "object" ∨ VNumber 5 = VNull) ∧
   deepClone 1 (VNumber 5) (State [] ∅) = Some (Normal (VNumber 5), State [] ∅) ∧
   clone 1 (VNumber 5) [] = Some (Normal (VNumber 5), []) ∧
   strict_equals (VNumber 5) (VNumber 5) = true) ∧
  ((typeof (VString "x") ≠ "object" ∨ VString "x" = VNull) ∧
   deepClone 1 (VString "x") (State [] ∅) = Some (Normal (VString "x"), State [] ∅) ∧
   clone 1 (VString "x") [] = Some (Normal (VString "x"), []) ∧
   strict_equals (VString "x") (VString "x") = true) ∧
  ((typeof VNull ≠ "object" ∨ VNull = VNull) ∧
   deepClone 1 VNull (State [] ∅) = Some (Normal VNull, State [] ∅) ∧
   clone 1 VNull [] = Some (Normal VNull, []) ∧
   strict_equals VNull VNull = true).
Proof.
  assert (typeof (VNumber 5) ≠ "object" ∨ VNumber 5 = VNull) as H5
    by (left; discriminate).
  assert (typeof (VString "x") ≠ "object" ∨ VString "x" = VNull) as Hx
    by (left; discriminate).
  assert (typeof VNull ≠ "object" ∨ VNull = VNull) as Hn
    by (right; reflexivity).
  split; [|split]; (split; [assumption|]).
  - exact (C5_primitive_returned_unchanged (VNumber 5) 0 (State [] ∅) H5).
  - exact (C5_primitive_returned_unchanged (VString "x") 0 (State [] ∅) Hx).
  - exact (C5_primitive_returned_unchanged VNull 0 (State [] ∅) Hn).
Defined.

(** C2.  On every closed heap the call terminates, cycles or not: some
    amount of fuel lets it complete, and a completion that is not a
    return is the TypeError of the [__proto__] setter; where no object
    has an own enumerable property of that name, the call returns.  For
    [let c = {}; c.self = c;] the call returns [r] with [r.self === r]. *)
Theorem C2_clone_terminates :
  (∀ h v, closed_heap h = true → val_closed (length h) v = true →
     (∃ n c h', clone n v h = Some (c, h') ∧
        ((∃ r, c = Normal r) ∨ c = Throw (TypeError "Cyclic __proto__ value"))) ∧
     (no_proto_key h = true → ∃ n r h', clone n v h = Some (Normal r, h'))) ∧
  (∀ n, ∃ r h' w, clone (S (S n)) (VObject 0) self_ref = Some (Normal r, h') ∧
                  read h' r (Key "self") = Some w ∧ strict_equals w r = true).
Proof.
  split.
  - intros h v Hh Hv. split.
    + destruct (clone_terminates h v Hh Hv) as (n & c & h' & H).
      exists n, c, h'. split; [done|]. destruct c as [r|e]; [by eauto|]. right.
      apply clone_Some in H as (st' & H & _). by rewrite (deepClone_throw _ _ _ _ _ H).
    + intros Hnp. destruct (deepClone_returns h v Hh Hnp Hv) as (n & r & st' & H).
      exists n, r, (st_heap st'). apply clone_Some. eauto.
  - intros n. exists (VObject 1), (self_ref ++ [JsObject ObjectPrototype
      [Prop_ (KString "self") (VObject 1) true]]), (VObject 1).
    by vm_compute.
Qed.

Lemma C2_witness :
  closed_heap self_ref = true ∧ val_closed (length self_ref) (VObject 0) = true ∧
  no_proto_key self_ref = true ∧
  (∃ n c h', clone n (VObject 0) self_ref = Some (c, h') ∧
     ((∃ r, c = Normal r) ∨ c = Throw (TypeError "Cyclic __proto__ value"))) ∧
  ∃ n r h', clone n (VObject 0) self_ref = Some (Normal r, h').
Proof.
  destruct (proj1 C2_clone_terminates self_ref (VObject 0) eq_refl eq_refl)
    as [Hterm Hret].
  split; [reflexivity|]. split; [reflexivity|]. split; [reflexivity|].
  split; [exact Hterm|]. exact (Hret eq_refl).
Defined.

(** C7.  A call changes no object that existed before it: the heap it
    leaves behind is the heap it found, followed by the objects it
    allocated.  In particular the argument and everything reachable from
    it are as they were.  [clone] threads nothing but the heap: its [seen]
    starts empty and is dropped on return. *)
Theorem C7_input_never_mutated (h : list object) (v : val) :
  closed_heap h = true → val_closed (length h) v = true →
  (∃ n c h', clone n v h = Some (c, h')) ∧
  ∀ n c h', clone n v h = Some (c, h') →
    h `prefix_of` h' ∧
    (∀ l o, h !! l = Some o → h' !! l = Some o) ∧
    take (length h) h' = h.
Proof.
  intros Hh Hv. split; [by apply clone_terminates|].
  intros n c h' (st' & H & <-)%clone_Some.
  apply deepClone_extends in H as [Hp _]. simpl in Hp.
  split; [done|]. split.
  - intros l o Hl. by eapply prefix_lookup_Some.
  - destruct Hp as [k ->]. by rewrite take_app_length.
Qed.

Lemma C7_witness :
  closed_heap shared = true ∧ val_closed (length shared) (VObject 0) = true ∧
  clone 5 (VObject 0) shared = Some (Normal (VObject 3), shared_cloned) ∧
  shared `prefix_of` shared_cloned ∧
  (∀ l o, shared !! l = Some o → shared_cloned !! l = Some o) ∧
  take (length shared) shared_cloned = shared.
Proof.
  split; [reflexivity|]. split; [reflexivity|]. split; [reflexivity|].
  apply (proj2 (C7_input_never_mutated shared (VObject 0) eq_refl eq_refl)
           5 (Normal (VObject 3)) shared_cloned).
  reflexivity.
Defined.

(** C4.  Whatever can be reached from the returned clone — through
    fields or prototype slots — was allocated by the call.  So writing to
    an object of the clone leaves the objects of the input as they were,
    and writing to an object of the input leaves those of the clone as
    they were. *)
Theorem C4_clone_shares_nothing (h : list object) (v : val) :
  closed_heap h = true → val_closed (length h) v = true →
  (∃ n c h', clone n v h = Some (c, h')) ∧
  ∀ n r h', clone n v h = Some (Normal r, h') →
    ∀ l, reach links h' r l →
      length h ≤ l ∧
      (∀ o, take (length h) (<[l:=o]> h') = h) ∧
      (∀ l0 o, l0 < length h → <[l0:=o]> h' !! l = h' !! l).
Proof.
  intros Hh Hv. split; [by apply clone_terminates|].
  intros n r h' (st' & H & <-)%clone_Some l Hl.
  destruct (deepClone_fresh (length h) _ _ _ _ _ H (fresh_inv_init h)) as [Hinv Hr].
  pose proof (reach_fresh _ _ _ _ Hinv Hl (Hr _ eq_refl)) as Hfresh.
  apply deepClone_extends in H as [[k Hk] _]. simpl in Hk.
  split; [done|]. split.
  - intros o. rewrite Hk, insert_app_r_alt by done. by rewrite take_app_length.
  - intros l0 o Hl0. apply list_lookup_insert_ne. lia.
Qed.

Lemma C4_witness :
  closed_heap shared = true ∧ val_closed (length shared) (VObject 0) = true ∧
  clone 5 (VObject 0) shared = Some (Normal (VObject 3), shared_cloned) ∧
  reach links shared_cloned (VObject 3) 4 ∧
  length shared ≤ 4 ∧
  (∀ o, take (length shared) (<[4:=o]> shared_cloned) = shared) ∧
  (∀ l0 o, l0 < length shared → <[l0:=o]> shared_cloned !! 4 = shared_cloned !! 4).
Proof.
  assert (reach links shared_cloned (VObject 3) 4) as Hreach.
  { eapply reach_step; [reflexivity| |eapply reach_here; reflexivity]. compute_done. }
  split; [reflexivity|]. split; [reflexivity|]. split; [reflexivity|].
  split; [exact Hreach|].
  apply (proj2 (C4_clone_shares_nothing shared (VObject 0) eq_refl eq_refl)
           5 (VObject 3) shared_cloned eq_refl 4 Hreach).
Defined.



(** C1.  Two fields that hold the same object do not always come out
    as two fields that hold its one clone.  In [proto_shared] the fields
    [__proto__] and [a] of the root both hold the object [s].  The call
    returns, and [s] is cloned once; the field [a] of the clone of the
    root holds that clone, but the clone of the root has no field
    [__proto__]: the assignment [out["__proto__"] = ...] went to the
    accessor of %Object.prototype% and made the clone of [s] the
    prototype.  As [s] in turn owns [__proto__: null], the chain of the
    clone ends in null before the accessor, and reading [__proto__] from
    it yields undefined. *)
Theorem C1_shared_field_lost_under_proto_key (n : nat) :
  let root := JsObject ObjectPrototype [Prop_ (KString "__proto__") (VObject 1) true;
                                        Prop_ (KString "a") (VObject 1) true] in
  let out := JsObject (ProtoObj 3) [Prop_ (KString "a") (VObject 3) true] in
  let h' := proto_shared ++ [out; JsObject ProtoNull []] in
  wf_heap proto_shared = true ∧ proto_shared !! 0 = Some root ∧
  field root (Key "__proto__") = Some (VObject 1) ∧
  field root (Key "a") = Some (VObject 1) ∧
  clone (S (S (S n))) (VObject 0) proto_shared = Some (Normal (VObject 2), h') ∧
  h' !! 2 = Some out ∧
  field out (Key "a") = Some (VObject 3) ∧
  field out (Key "__proto__") = None ∧
  get_value (S (S n)) (VObject 2) "__proto__" (State h' ∅)
    = Some (Normal VUndefined, State h' ∅).
Proof.
  intros root out h'.
  split; [done|]. split; [done|]. split; [done|]. split; [done|].
  split; [by vm_compute|]. split; [done|]. split; [done|]. split; [done|].
  by destruct n.
Qed.

(** C9.  The call can throw.  On the object whose own property
    [__proto__] refers to the object itself, the assignment
    [out["__proto__"] = out] reaches the accessor of %Object.prototype%,
    whose setter refuses to close a prototype cycle: the call ends with a
    TypeError and returns nothing, however much fuel it is given. *)
Theorem C9_throws_on_proto_cycle (n : nat) :
  wf_heap proto_loop = true ∧
  val_closed (length proto_loop) (VObject 0) = true ∧
  clone (S (S n)) (VObject 0) proto_loop =
    Some (Throw (TypeError "Cyclic __proto__ value"),
          proto_loop ++ [JsObject ObjectPrototype []]) ∧
  ∀ m c h', clone m (VObject 0) proto_loop = Some (c, h') →
            c = Throw (TypeError "Cyclic __proto__ value").
Proof.
  split; [done|]. split; [done|]. split; [by vm_compute|].
  intros [|[|m]] c h'; [done..|]. by intros [= <- _].
Qed.

(** C3.  The clone of the acyclic one-object graph
    [{"__proto__": 5}] (an own property, as [JSON.parse] makes it) is an
    object without properties: the assignment went to the accessor, which
    ignores a number.  The clone does not compare equal to the source,
    whose key it lacks. *)
Theorem C3_proto_key_not_copied (n : nat) :
  wf_heap proto_five = true ∧ bounded 1 proto_five (VObject 0) = true ∧
  clone (S (S n)) (VObject 0) proto_five =
    Some (Normal (VObject 1), proto_five ++ [JsObject ObjectPrototype []]) ∧
  object_keys [Prop_ (KString "__proto__") (VNumber 5) true] = ["__proto__"] ∧
  ∀ k, deep_equal k proto_five (proto_five ++ [JsObject ObjectPrototype []])
         (VObject 0) (VObject 1) = false ∧
       deep_equal k (proto_five ++ [JsObject ObjectPrototype []]) proto_five
         (VObject 1) (VObject 0) = false.
Proof.
  split; [done|]. split; [done|]. split; [by vm_compute|]. split; [done|].
  by intros [|k].
Qed.

(** C8.  Cloning the clone does not bring the lost key back:
    for [{"__proto__": 5}], [clone(clone(V))] is again an object without
    properties and does not compare equal to [V]. *)
Theorem C8_clone_of_clone_differs (n k : nat) :
  ∃ h1 h2,
    clone (S (S n)) (VObject 0) proto_five = Some (Normal (VObject 1), h1) ∧
    clone (S (S k)) (VObject 1) h1 = Some (Normal (VObject 2), h2) ∧
    h2 !! 0 = Some (JsObject ObjectPrototype [Prop_ (KString "__proto__") (VNumber 5) true]) ∧
    h2 !! 2 = Some (JsObject ObjectPrototype []) ∧
    ∀ j, deep_equal j proto_five h2 (VObject 0) (VObject 2) = false ∧
         deep_equal j h2 proto_five (VObject 2) (VObject 0) = false.
Proof.
  exists (proto_five ++ [JsObject ObjectPrototype []]),
         (proto_five ++ [JsObject ObjectPrototype []; JsObject ObjectPrototype []]).
  split; [by vm_compute|]. split; [by vm_compute|]. split; [done|]. split; [done|].
  by intros [|j].
Qed.

(** C10.  The clone of the ordinary object [{"__proto__": null}] (an own
    property) is not a plain object with the same own properties: it has
    no own property, and its prototype is null, not %Object.prototype%. *)
Theorem C10_proto_key_sets_prototype (n : nat) :
  wf_heap proto_null = true ∧
  object_keys [Prop_ (KString "__proto__") VNull true] = ["__proto__"] ∧
  clone (S (S n)) (VObject 0) proto_null =
    Some (Normal (VObject 1), proto_null ++ [JsObject ProtoNull []]).
Proof.
  split; [done|]. split; [done|]. by vm_compute.
Qed.

(** * Further properties of the code *)

(** ** deepClone *)

(** X1.  A call that has returned has left its answer in [seen]: called again
    on the same value with the same map, [deepClone] returns the very same
    result and changes nothing, neither the heap nor the map. *)
Theorem deepClone_again_same_result (n : nat) (v r : val) (st st' : state) :
  deepClone n v st = Some (Normal r, st') →
  image_val (st_seen st') v = Some r ∧
  ∀ m, deepClone (S m) v st' = Some (Normal r, st').
Proof.
  intros H.
  assert (image_val (st_seen st') v = Some r) as Him.
  { pose proof H as Hc.
    apply deepClone_cases in Hc as (n' & -> & Hc).
    destruct Hc as [([= Hr] & -> & Hv)|[(l & w & -> & Hs & [= <-] & ->)|
      [(l & elems & c' & -> & Hs & Hh & Hloop & Hc)|
       (l & pr & props & c' & -> & Hs & Hh & Hloop & Hc)]]].
    - subst r. destruct v; try done. by destruct (Hv l).
    - done.
    - destruct c' as [[]|e]; [|done]. injection Hc as ->. simpl.
      eapply lookup_weaken; [apply lookup_insert_eq|].
      by apply (populate_seen n' l (length (st_heap st)) (JsArray elems) _ _ _ Hloop).
    - destruct c' as [[]|e]; [|done]. injection Hc as ->. simpl.
      eapply lookup_weaken; [apply lookup_insert_eq|].
      by apply (populate_seen n' l (length (st_heap st)) (JsObject pr props) _ _ _ Hloop). }
  split; [done|]. intros m.
  assert ((∀ l, v ≠ VObject l) ∨ ∃ l, v = VObject l) as [Hprim|[l ->]]
    by (destruct v; eauto; by left).
  - destruct v; try (by injection Him as <-). by destruct (Hprim l).
  - by apply deepClone_seen.
Qed.

Lemma deepClone_again_same_result_witness :
  let st' := State (self_ref ++ [JsObject ObjectPrototype
                                   [Prop_ (KString "self") (VObject 1) true]])
                   (<[0 := VObject 1]> ∅) in
  deepClone 2 (VObject 0) (State self_ref ∅) = Some (Normal (VObject 1), st') ∧
  image_val (st_seen st') (VObject 0) = Some (VObject 1) ∧
  ∀ m, deepClone (S m) (VObject 0) st' = Some (Normal (VObject 1), st').
Proof.
  intros st'.
  assert (deepClone 2 (VObject 0) (State self_ref ∅) = Some (Normal (VObject 1), st'))
    as Hrun by reflexivity.
  split; [exact Hrun|].
  exact (deepClone_again_same_result 2 (VObject 0) (VObject 1) (State self_ref ∅) st' Hrun).
Defined.

(** X2.  A call that returns has allocated one object for each object that
    can be reached from its argument, and no other: the heap has grown by
    the number of reachable objects, shared ones counted once. *)
Theorem clone_allocates_one_object_per_node (h : list object) (v : val) :
  wf_heap h = true → val_closed (length h) v = true →
  (∃ n c h', clone n v h = Some (c, h')) ∧
  ∀ n r h', clone n v h = Some (Normal r, h') →
    ∃ nodes : list nat,
      NoDup nodes ∧ (∀ l, l ∈ nodes ↔ reach children h v l) ∧
      length h' = length h + length nodes.
Proof.
  intros Hwf Hv. split; [by apply clone_terminates; [apply wf_heap_closed|]|].
  intros n r h' (st' & H & <-)%clone_Some.
  destruct (deepClone_top _ _ _ _ _ Hwf Hv H) as (Hinv & _ & _ & Hreach).
  set (m := st_seen st') in *.
  exists (map_to_list m).*1.
  split; [apply NoDup_fst_map_to_list|]. split.
  { intros l. rewrite <-Hreach. rewrite list_elem_of_fmap. split.
    - intros ([l' w] & -> & Hlw%elem_of_map_to_list). by eexists.
    - intros [w Hw]. exists (l, w). split; [done|]. by apply elem_of_map_to_list. }
  set (f := λ lw : nat * val, match lw.2 with VObject c => c | _ => 0 end).
  assert (f <$> map_to_list m ≡ₚ seq (length h) (length (st_heap st') - length h)) as Hperm.
  { apply NoDup_Permutation.
    - apply NoDup_fmap_2_strong; [|apply NoDup_map_to_list].
      intros [l1 w1] [l2 w2] Hl1%elem_of_map_to_list Hl2%elem_of_map_to_list Hf.
      destruct (hi_seen _ _ Hinv _ _ Hl1) as (_ & c1 & -> & _).
      destruct (hi_seen _ _ Hinv _ _ Hl2) as (_ & c2 & -> & _).
      unfold f in Hf. simpl in Hf. subst c2.
      by rewrite (hi_inj _ _ Hinv _ _ _ Hl1 Hl2).
    - apply NoDup_seq.
    - intros c. rewrite list_elem_of_fmap, elem_of_seq. split.
      + intros ([l w] & -> & Hlw%elem_of_map_to_list).
        destruct (hi_seen _ _ Hinv _ _ Hlw) as (_ & c & -> & Hc). unfold f. simpl. lia.
      + intros Hc. destruct (hi_surj _ _ Hinv c) as [l Hl]; [lia|].
        exists (l, VObject c). split; [done|]. by apply elem_of_map_to_list. }
  apply Permutation_length in Hperm.
  rewrite length_fmap, length_seq in Hperm. rewrite length_fmap.
  pose proof (prefix_length _ _ (hi_prefix _ _ Hinv)). lia.
Qed.

Lemma clone_allocates_one_object_per_node_witness :
  wf_heap shared = true ∧ val_closed (length shared) (VObject 0) = true ∧
  clone 5 (VObject 0) shared = Some (Normal (VObject 3), shared_cloned) ∧
  ∃ nodes : list nat,
    NoDup nodes ∧ (∀ l, l ∈ nodes ↔ reach children shared (VObject 0) l) ∧
    length shared_cloned = length shared + length nodes.
Proof.
  split; [reflexivity|]. split; [reflexivity|]. split; [reflexivity|].
  exact (proj2 (clone_allocates_one_object_per_node shared (VObject 0) eq_refl eq_refl)
           5 (VObject 3) shared_cloned eq_refl).
Defined.

(** X3.  Where no object has an own enumerable property named [__proto__],
    cloning is faithful.  On a finite graph without cycles the call
    returns, and what it returns compares equal to its argument: same
    kinds of container, same keys, same order of elements, same
    primitives at the leaves. *)
Theorem clone_equals_source_without_proto_keys (h : list object) (v : val) (k : nat) :
  wf_heap h = true → no_proto_key h = true →
  val_closed (length h) v = true → bounded k h v = true →
  (∃ n r h', clone n v h = Some (Normal r, h')) ∧
  ∀ n r h', clone n v h = Some (Normal r, h') → deep_equal k h h' v r = true.
Proof. apply clone_deep_equal. Qed.

Lemma clone_equals_source_without_proto_keys_witness :
  wf_heap shared = true ∧ no_proto_key shared = true ∧
  val_closed (length shared) (VObject 0) = true ∧ bounded 3 shared (VObject 0) = true ∧
  (∃ n r h', clone n (VObject 0) shared = Some (Normal r, h')) ∧
  ∀ n r h', clone n (VObject 0) shared = Some (Normal r, h') →
            deep_equal 3 shared h' (VObject 0) r = true.
Proof.
  split; [reflexivity|]. split; [reflexivity|]. split; [reflexivity|].
  split; [reflexivity|].
  exact (clone_equals_source_without_proto_keys shared (VObject 0) 3
           eq_refl eq_refl eq_refl eq_refl).
Defined.

(** X4.  Under the same conditions the clone can be cloned again, and the
    clone of the clone compares equal to the original. *)
Theorem clone_of_clone_equals_source_without_proto_keys (h : list object) (v : val)
    (k : nat) :
  wf_heap h = true → no_proto_key h = true →
  val_closed (length h) v = true → bounded k h v = true →
  (∃ n1 r1 h1 n2 r2 h2, clone n1 v h = Some (Normal r1, h1) ∧
                        clone n2 r1 h1 = Some (Normal r2, h2)) ∧
  ∀ n1 r1 h1 n2 r2 h2,
    clone n1 v h = Some (Normal r1, h1) → clone n2 r1 h1 = Some (Normal r2, h2) →
    deep_equal k h h2 v r2 = true.
Proof. apply clone_twice_deep_equal. Qed.

Lemma clone_of_clone_equals_source_without_proto_keys_witness :
  wf_heap shared = true ∧ no_proto_key shared = true ∧
  val_closed (length shared) (VObject 0) = true ∧ bounded 3 shared (VObject 0) = true ∧
  (∃ n1 r1 h1 n2 r2 h2, clone n1 (VObject 0) shared = Some (Normal r1, h1) ∧
                        clone n2 r1 h1 = Some (Normal r2, h2)) ∧
  ∀ n1 r1 h1 n2 r2 h2,
    clone n1 (VObject 0) shared = Some (Normal r1, h1) →
    clone n2 r1 h1 = Some (Normal r2, h2) →
    deep_equal 3 shared h2 (VObject 0) r2 = true.
Proof.
  split; [reflexivity|]. split; [reflexivity|]. split; [reflexivity|].
  split; [reflexivity|].
  exact (clone_of_clone_equals_source_without_proto_keys shared (VObject 0) 3
           eq_refl eq_refl eq_refl eq_refl).
Defined.

(** X5.  The clone of an ordinary object that has no own enumerable
    property named [__proto__], in a top-level call ([seen] empty).  The
    call completes, and it returns when no object of the heap has such a
    property.  What it returns is a new plain object: its prototype is
    %Object.prototype%, whatever the prototype of the source, and its
    properties are those that [Object.keys] lists for the source, in that
    order, all of them enumerable and string-keyed, so that what the
    source holds under a symbol or in a property that is not enumerable
    is left behind.  Each property holds the clone of what the source
    holds there: the very value that [deepClone] answers for it with the
    [seen] map of the run, which is the source's value when that is a
    primitive and an object allocated by the run when it is an object. *)
Theorem clone_of_object_is_plain (h : list object) (l : nat) (pr : proto)
    (props : list prop) :
  wf_heap h = true → h !! l = Some (JsObject pr props) →
  "__proto__" ∉ object_keys props →
  (∃ n c st', deepClone n (VObject l) (State h ∅) = Some (c, st')) ∧
  (no_proto_key h = true →
   ∃ n r st', deepClone n (VObject l) (State h ∅) = Some (Normal r, st')) ∧
  ∀ n r st', deepClone n (VObject l) (State h ∅) = Some (Normal r, st') →
    ∃ c ps,
      r = VObject c ∧ length h ≤ c ∧
      st_heap st' !! c = Some (JsObject ObjectPrototype ps) ∧
      p_key <$> ps = KString <$> object_keys props ∧
      Forall (λ p, p_enum p = true) ps ∧
      object_keys ps = object_keys props ∧
      ∀ k v, field (JsObject pr props) (Key k) = Some v →
        ∃ w, field (JsObject ObjectPrototype ps) (Key k) = Some w ∧
             (∀ m, deepClone (S m) v st' = Some (Normal w, st')) ∧
             match v with
             | VObject _ => ∃ c', w = VObject c' ∧ length h ≤ c' < length (st_heap st')
             | _ => w = v
             end.
Proof.
  intros Hwf Hl Hnp.
  assert (val_closed (length h) (VObject l) = true) as Hv.
  { simpl. apply bool_decide_eq_true. by eapply lookup_lt_Some. }
  split; [by apply deepClone_terminates; [apply wf_heap_closed|]|].
  split; [intros Hno; by apply deepClone_returns; [apply wf_heap_closed|..]|].
  intros n r st' H. by eapply clone_plain_object.
Qed.

Lemma clone_of_object_is_plain_witness :
  let props := [Prop_ (KString "a") (VObject 1) true; Prop_ (KString "b") (VObject 2) true] in
  let st' := State shared_cloned (<[2 := VObject 5]> (<[1 := VObject 4]> (<[0 := VObject 3]> ∅))) in
  wf_heap shared = true ∧ shared !! 0 = Some (JsObject ObjectPrototype props) ∧
  ("__proto__" ∉ object_keys props) ∧ no_proto_key shared = true ∧
  deepClone 5 (VObject 0) (State shared ∅) = Some (Normal (VObject 3), st') ∧
  ∃ c ps,
    VObject 3 = VObject c ∧ length shared ≤ c ∧
    st_heap st' !! c = Some (JsObject ObjectPrototype ps) ∧
    p_key <$> ps = KString <$> object_keys props ∧
    Forall (λ p, p_enum p = true) ps ∧
    object_keys ps = object_keys props ∧
    ∀ k v, field (JsObject ObjectPrototype props) (Key k) = Some v →
      ∃ w, field (JsObject ObjectPrototype ps) (Key k) = Some w ∧
           (∀ m, deepClone (S m) v st' = Some (Normal w, st')) ∧
           match v with
           | VObject _ => ∃ c', w = VObject c' ∧ length shared ≤ c' < length (st_heap st')
           | _ => w = v
           end.
Proof.
  intros props st'.
  assert ("__proto__" ∉ object_keys props) as Hnp by compute_done.
  assert (deepClone 5 (VObject 0) (State shared ∅) = Some (Normal (VObject 3), st'))
    as Hrun by reflexivity.
  split; [reflexivity|]. split; [reflexivity|]. split; [exact Hnp|].
  split; [reflexivity|]. split; [exact Hrun|].
  exact (proj2 (proj2 (clone_of_object_is_plain shared 0 ObjectPrototype props
                         eq_refl eq_refl Hnp)) 5 (VObject 3) st' Hrun).
Defined.

(** X23.  Sharing is kept, away from the key [__proto__].  A top-level
    call on a closed heap completes.  When it returns, its [seen] map
    sends every source object that can be reached from the argument,
    and no other, to an object the call has allocated; different source
    objects have different clones and every allocated object is the
    clone of a source object.  Whenever two fields of reachable source
    objects, neither of them named [__proto__], hold the same object
    [S], the same two fields of the clones hold the one object that
    [seen] records for [S]. *)
Theorem clone_keeps_sharing (h : list object) (v : val) :
  wf_heap h = true → val_closed (length h) v = true →
  (∃ n c st', deepClone n v (State h ∅) = Some (c, st')) ∧
  ∀ n r st', deepClone n v (State h ∅) = Some (Normal r, st') →
    image_val (st_seen st') v = Some r ∧
    (∀ l, reach children h v l ↔ is_Some (st_seen st' !! l)) ∧
    (∀ l w, st_seen st' !! l = Some w →
            ∃ c, w = VObject c ∧ length h ≤ c < length (st_heap st')) ∧
    (∀ l1 l2 w, st_seen st' !! l1 = Some w → st_seen st' !! l2 = Some w → l1 = l2) ∧
    (∀ c, length h ≤ c < length (st_heap st') → ∃ l, st_seen st' !! l = Some (VObject c)) ∧
    ∀ l1 l2 o1 o2 s1 s2 S,
      reach children h v l1 → reach children h v l2 →
      h !! l1 = Some o1 → h !! l2 = Some o2 →
      field o1 s1 = Some (VObject S) → field o2 s2 = Some (VObject S) →
      s1 ≠ Key "__proto__" → s2 ≠ Key "__proto__" →
      ∃ c1 c2 o1' o2' S',
        st_seen st' !! l1 = Some (VObject c1) ∧ st_seen st' !! l2 = Some (VObject c2) ∧
        st_seen st' !! S = Some (VObject S') ∧
        st_heap st' !! c1 = Some o1' ∧ st_heap st' !! c2 = Some o2' ∧
        field o1' s1 = Some (VObject S') ∧ field o2' s2 = Some (VObject S').
Proof.
  intros Hwf Hv. split; [by apply deepClone_terminates; [apply wf_heap_closed|]|].
  intros n r st' H.
  destruct (deepClone_top _ _ _ _ _ Hwf Hv H) as (Hinv & Hr & Hdone & Hreach).
  split; [done|]. split; [by intros l; rewrite Hreach|].
  split; [by intros l w [_ ?]%(hi_seen _ _ Hinv)|].
  split; [by apply (hi_inj _ _ Hinv)|]. split; [by apply (hi_surj _ _ Hinv)|].
  intros l1 l2 o1 o2 s1 s2 S Hr1 Hr2 Ho1 Ho2 Hf1 Hf2 Hs1 Hs2.
  destruct (field_clone _ _ _ _ _ _ Hwf Hinv (Hdone _ (proj2 (Hreach l1) Hr1)) Ho1 Hf1)
    as (c1 & o1' & S1 & Hc1 & HS1 & Ho1' & Hh1 & _).
  destruct (field_clone _ _ _ _ _ _ Hwf Hinv (Hdone _ (proj2 (Hreach l2) Hr2)) Ho2 Hf2)
    as (c2 & o2' & S2 & Hc2 & HS2 & Ho2' & Hh2 & _).
  assert (S2 = S1) as -> by congruence.
  exists c1, c2, o1', o2', S1. eauto 10.
Qed.

Lemma clone_keeps_sharing_witness :
  let st' := State shared_cloned (<[2 := VObject 5]> (<[1 := VObject 4]> (<[0 := VObject 3]> ∅))) in
  wf_heap shared = true ∧ val_closed (length shared) (VObject 0) = true ∧
  deepClone 5 (VObject 0) (State shared ∅) = Some (Normal (VObject 3), st') ∧
  ∃ c1 c2 o1' o2' S',
    st_seen st' !! 0 = Some (VObject c1) ∧ st_seen st' !! 2 = Some (VObject c2) ∧
    st_seen st' !! 1 = Some (VObject S') ∧
    st_heap st' !! c1 = Some o1' ∧ st_heap st' !! c2 = Some o2' ∧
    field o1' (Key "a") = Some (VObject S') ∧
    field o2' (Index 0) = Some (VObject S').
Proof.
  intros st'.
  assert (deepClone 5 (VObject 0) (State shared ∅) = Some (Normal (VObject 3), st'))
    as Hrun by reflexivity.
  split; [reflexivity|]. split; [reflexivity|]. split; [exact Hrun|].
  destruct (proj2 (clone_keeps_sharing shared (VObject 0) eq_refl eq_refl)
              5 (VObject 3) st' Hrun)
    as (_ & _ & _ & _ & _ & Halias).
  eapply (Halias 0 2 _ _ (Key "a") (Index 0) 1); try reflexivity; try discriminate.
  - eapply reach_here; reflexivity.
  - eapply reach_step; [reflexivity| |eapply reach_here; reflexivity]. compute_done.
Defined.

(** * mutate, safeMutate, updateName *)

(** ** Property lists *)

Lemma own_prop_cons k p props :
  own_prop k (p :: props) = if bool_decide (p_key p = k) then Some p else own_prop k props.
Proof. done. Qed.

Lemma own_prop_add_prop k p props :
  own_prop (p_key p) props = None →
  own_prop k (add_prop p props) =
  if bool_decide (p_key p = k) then Some p else own_prop k props.
Proof.
  induction props as [|q props IH]; intros Hnew; [done|].
  cbn [add_prop]. rewrite own_prop_cons in Hnew. case_bool_decide as Hq; [done|].
  destruct (goes_before p q); rewrite !own_prop_cons; [done|].
  rewrite (IH Hnew). repeat case_bool_decide; congruence.
Qed.

Lemma own_prop_map k (f : prop → prop) props :
  (∀ p, p_key (f p) = p_key p) →
  own_prop k (map f props) = f <$> own_prop k props.
Proof.
  intros Hf. induction props as [|q props IH]; [done|].
  cbn [map]. rewrite !own_prop_cons, Hf, IH. by case_bool_decide.
Qed.

Lemma own_prop_key k props p : own_prop k props = Some p → p_key p = k.
Proof. by intros [_ ?]%own_prop_Some. Qed.

Lemma own_prop_update_prop k k' w props :
  own_prop k (update_prop k' w props) =
  if bool_decide (k = k') then (λ p, Prop_ k' w (p_enum p)) <$> own_prop k' props
  else own_prop k props.
Proof.
  unfold update_prop. rewrite own_prop_map by (intros p; by case_bool_decide).
  case_bool_decide as Hk.
  - subst k. destruct (own_prop k' props) as [p|] eqn:Hp; [|done]. simpl.
    by rewrite bool_decide_eq_true_2 by by eapply own_prop_key.
  - destruct (own_prop k props) as [p|] eqn:Hp; [|done]. simpl.
    rewrite bool_decide_eq_false_2; [done|].
    apply own_prop_key in Hp. congruence.
Qed.

Lemma own_prop_create_data_property k k' w props :
  own_prop k (create_data_property k' w props) =
  if bool_decide (k = k') then Some (Prop_ k' w true) else own_prop k props.
Proof.
  unfold create_data_property. destruct (own_prop k' props) as [q|] eqn:Hq.
  - rewrite own_prop_map by (intros p; by case_bool_decide).
    case_bool_decide as Hk.
    + subst k. rewrite Hq. simpl.
      by rewrite bool_decide_eq_true_2 by by eapply own_prop_key.
    + destruct (own_prop k props) as [p|] eqn:Hp; [|done]. simpl.
      rewrite bool_decide_eq_false_2; [done|].
      apply own_prop_key in Hp. congruence.
  - rewrite own_prop_add_prop by done. simpl.
    repeat case_bool_decide; congruence.
Qed.

(** Among properties with distinct keys, the enumerable ones answer for
    themselves. *)
Lemma own_prop_filter_enum k props :
  NoDup (p_key <$> props) →
  own_prop k (filter (λ p, p_enum p = true) props) =
  own_prop k props ≫= λ p, if p_enum p then Some p else None.
Proof.
  induction props as [|q props IH]; [done|].
  rewrite fmap_cons, NoDup_cons. intros [Hq Hnd].
  rewrite own_prop_cons. destruct (p_enum q) eqn:He.
  - rewrite filter_cons_True by done. rewrite own_prop_cons.
    case_bool_decide; simpl; [by rewrite He|by apply IH].
  - rewrite filter_cons_False by (by rewrite He). rewrite IH by done.
    case_bool_decide as Hk; simpl; [|done]. rewrite He.
    destruct (own_prop k props) as [p|] eqn:Hp; [|done].
    destruct Hq. apply own_prop_Some in Hp as [Hin Hkp].
    apply list_elem_of_fmap. exists p. split; [congruence|done].
Qed.

(** ** Assignment to a named property *)

(** Away from the key [__proto__], an assignment to an ordinary object
    touches that object only, and of its properties only the one
    assigned. *)
Lemma put_named n l key w st pr props :
  key ≠ "__proto__" → st_heap st !! l = Some (JsObject pr props) →
  ∃ props',
    put n (VObject l) key w st = Some (Normal tt, set_heap l (JsObject pr props') st) ∧
    (p_val <$> own_prop (KString key) props') = Some w ∧
    (∀ k, k ≠ KString key → own_prop k props' = own_prop k props) ∧
    (own_prop (KString key) props = None →
     own_prop (KString key) props' = Some (Prop_ (KString key) w true)).
Proof.
  intros Hkey Hl. unfold put. rewrite Hl.
  destruct (own_prop (KString key) props) as [p|] eqn:Hp.
  - exists (update_prop (KString key) w props). split; [done|].
    split; [|split; [|done]].
    + by rewrite own_prop_update_prop, bool_decide_eq_true_2, Hp.
    + intros k Hk. by rewrite own_prop_update_prop, bool_decide_eq_false_2.
  - rewrite bool_decide_eq_false_2 by done.
    exists (add_prop (Prop_ (KString key) w true) props). split; [done|].
    split; [|split].
    + by rewrite own_prop_add_prop, bool_decide_eq_true_2.
    + intros k Hk. rewrite own_prop_add_prop by done.
      by rewrite bool_decide_eq_false_2.
    + intros _. by rewrite own_prop_add_prop, bool_decide_eq_true_2.
Qed.

Lemma set_heap_last h o o' s :
  set_heap (length h) o' (State (h ++ [o]) s) = State (h ++ [o']) s.
Proof.
  unfold set_heap. simpl. f_equal.
  rewrite insert_app_r_alt by done. by rewrite Nat.sub_diag.
Qed.

Lemma copy_data_properties_closed h o :
  val_closed (length h) o = true → is_Some (copy_data_properties h o).
Proof.
  destruct o; simpl; try by eexists.
  intros Hl%bool_decide_eq_true.
  destruct (lookup_lt_is_Some_2 h l Hl) as [ob ->]. by eexists.
Qed.

Lemma copy_data_properties_enum h o (props : list prop) :
  copy_data_properties h o = Some props → ∀ p, p ∈ props → p_enum p = true.
Proof.
  unfold copy_data_properties. intros H p Hp.
  assert (∀ ps, filter (λ p, p_enum p = true) <$> ps = Some props → p_enum p = true) as Hf.
  { intros [ps|] [= <-]. by apply list_elem_of_filter in Hp as [? _]. }
  destruct o; try (by apply (Hf _ H)); injection H as <-; by apply elem_of_nil in Hp.
Qed.

Lemma filter_all_enum (props : list prop) :
  (∀ p, p ∈ props → p_enum p = true) → filter (λ p, p_enum p = true) props = props.
Proof.
  induction props as [|q props IH]; intros Hall; [done|].
  rewrite filter_cons_True by (apply Hall; left).
  f_equal. apply IH. intros p Hp. apply Hall. by right.
Qed.

(** The call of [safeMutate], once the properties to copy are known. *)
Lemma safeMutate_Some n o h s props :
  copy_data_properties h o = Some props →
  ∃ ps,
    safeMutate n o (State h s) =
      Some (Normal (VObject (length h)), State (h ++ [JsObject ObjectPrototype ps]) s) ∧
    own_prop (KString "value") ps = Some (Prop_ (KString "value") (VString "safe") true) ∧
    (∀ k, k ≠ KString "value" → own_prop k ps = own_prop k props) ∧
    (∀ p, p ∈ ps → p_enum p = true) ∧
    (∀ p, p ∈ ps → p_key p = KString "value" → p_val p = VString "safe").
Proof.
  intros Hc. unfold safeMutate. simpl. rewrite Hc.
  unfold bind at 1. unfold alloc at 1. simpl.
  assert (st_heap (State (h ++ [JsObject ObjectPrototype props]) s) !! length h
          = Some (JsObject ObjectPrototype props)) as Hl.
  { simpl. by apply list_lookup_middle. }
  destruct (put_named n (length h) "value" (VString "safe") _ _ _ ltac:(done) Hl)
    as (ps & Hput & Hval & Hother & Hnew).
  exists ps. unfold bind. rewrite Hput, set_heap_last. split; [done|].
  pose proof (copy_data_properties_enum _ _ _ Hc) as Henum.
  unfold put in Hput. rewrite Hl in Hput.
  destruct (own_prop (KString "value") props) as [q|] eqn:Hq.
  - injection Hput as Hps.
    rewrite !insert_app_r_alt, Nat.sub_diag in Hps by done.
    apply app_inv_head in Hps. injection Hps as <-.
    split; [|split; [done|split]].
    + rewrite own_prop_update_prop, bool_decide_eq_true_2, Hq by done. simpl.
      rewrite (Henum q); [done|]. by apply own_prop_Some in Hq as [? _].
    + unfold update_prop. intros p (p0 & -> & Hp0)%list_elem_of_fmap.
      case_bool_decide; simpl; by apply Henum.
    + unfold update_prop. intros p (p0 & -> & Hp0)%list_elem_of_fmap.
      case_bool_decide as Hk0; [done|]. intros Hk. by destruct Hk0.
  - rewrite bool_decide_eq_false_2 in Hput by done.
    injection Hput as Hps.
    rewrite !insert_app_r_alt, Nat.sub_diag in Hps by done.
    apply app_inv_head in Hps. injection Hps as <-.
    split; [by apply Hnew|]. split; [done|].
    assert (∀ p, p ∈ add_prop (Prop_ (KString "value") (VString "safe") true) props →
                 p = Prop_ (KString "value") (VString "safe") true ∨ p ∈ props) as Hadd.
    { clear. induction props as [|q props IH]; intros p; cbn [add_prop].
      - intros ->%list_elem_of_singleton. by left.
      - destruct (goes_before _ q).
        + intros [->|Hp]%elem_of_cons; [by left|by right].
        + intros [->|Hp]%elem_of_cons; [right; by left|].
          destruct (IH _ Hp) as [->|?]; [by left|right; by right]. }
    split.
    + intros p [->|Hp]%Hadd; [done|by apply Henum].
    + intros p [->|Hp]%Hadd; [done|]. intros Hk.
      by destruct (own_prop_None _ _ _ Hq Hp).
Qed.

Lemma props_of_copy h o props :
  props_of h o = Some props →
  copy_data_properties h o = Some (filter (λ p, p_enum p = true) props).
Proof. unfold copy_data_properties. destruct o; try done; by intros ->. Qed.

Lemma update_prop_same k w (props : list prop) :
  (∀ p, p ∈ props → p_key p = k → p_val p = w) → update_prop k w props = props.
Proof.
  intros Hall. unfold update_prop.
  induction props as [|q props IH]; [done|]. cbn [map]. f_equal.
  - case_bool_decide as Hq; [|done].
    destruct q as [kq vq eq]. simpl in *. subst kq.
    f_equal. symmetry. by apply (Hall (Prop_ k vq eq)); [left|].
  - apply IH. intros p Hp. apply Hall. by right.
Qed.

(** ** safeMutate *)

(** X6.  [safeMutate] returns for every value, undefined, null and the other
    primitives included, and never throws.  What it returns is a new
    plain object: the heap it leaves is the heap it found, every object
    as it was, followed by that object, whose property [value] is
    ['safe']. *)
Theorem safeMutate_returns_new_object (n : nat) (o : val) (h : list object)
    (s : gmap nat val) :
  val_closed (length h) o = true →
  ∃ ps,
    safeMutate n o (State h s) =
      Some (Normal (VObject (length h)), State (h ++ [JsObject ObjectPrototype ps]) s) ∧
    own_prop (KString "value") ps = Some (Prop_ (KString "value") (VString "safe") true).
Proof.
  intros [props Hc]%copy_data_properties_closed.
  destruct (safeMutate_Some n o h s props Hc) as (ps & Hrun & Hval & _). eauto.
Qed.

Lemma safeMutate_returns_new_object_witness :
  val_closed (length shared) VNull = true ∧
  ∃ ps,
    safeMutate 0 VNull (State shared ∅) =
      Some (Normal (VObject (length shared)),
            State (shared ++ [JsObject ObjectPrototype ps]) ∅) ∧
    own_prop (KString "value") ps = Some (Prop_ (KString "value") (VString "safe") true).
Proof.
  split; [reflexivity|].
  exact (safeMutate_returns_new_object 0 VNull shared ∅ eq_refl).
Defined.

(** X7.  The copy is shallow.  Every own enumerable property of the argument
    other than [value], string- or symbol-keyed, one named [__proto__]
    included, is an own property of the copy with the very same value: a
    reference is copied as a reference, so what the argument refers to is
    shared with the copy.  Properties that are not enumerable are not
    copied. *)
Theorem safeMutate_copy_is_shallow (n : nat) (o : val) (h : list object)
    (s : gmap nat val) (props : list prop) :
  props_of h o = Some props → NoDup (p_key <$> props) →
  ∃ ps,
    safeMutate n o (State h s) =
      Some (Normal (VObject (length h)), State (h ++ [JsObject ObjectPrototype ps]) s) ∧
    ∀ k, k ≠ KString "value" →
      own_prop k ps = own_prop k props ≫= λ p, if p_enum p then Some p else None.
Proof.
  intros Hc%props_of_copy Hnd.
  destruct (safeMutate_Some n o h s _ Hc) as (ps & Hrun & _ & Hother & _).
  exists ps. split; [done|]. intros k Hk.
  rewrite Hother by done. by apply own_prop_filter_enum.
Qed.

Lemma safeMutate_copy_is_shallow_witness :
  let props := [Prop_ (KString "a") (VObject 1) true; Prop_ (KString "b") (VObject 2) true] in
  props_of shared (VObject 0) = Some props ∧ NoDup (p_key <$> props) ∧
  ∃ ps,
    safeMutate 0 (VObject 0) (State shared ∅) =
      Some (Normal (VObject (length shared)),
            State (shared ++ [JsObject ObjectPrototype ps]) ∅) ∧
    ∀ k, k ≠ KString "value" →
      own_prop k ps = own_prop k props ≫= λ p, if p_enum p then Some p else None.
Proof.
  intros props.
  assert (NoDup (p_key <$> props)) as Hnd by compute_done.
  split; [reflexivity|]. split; [exact Hnd|].
  exact (safeMutate_copy_is_shallow 0 (VObject 0) shared ∅ props eq_refl Hnd).
Defined.

(** X8.  Copying the copy changes nothing more: [safeMutate(safeMutate(o))]
    has exactly the properties of [safeMutate(o)], in the same order. *)
Theorem safeMutate_twice_same_properties (n n' : nat) (o : val) (h : list object)
    (s : gmap nat val) :
  val_closed (length h) o = true →
  ∃ ps,
    safeMutate n o (State h s) =
      Some (Normal (VObject (length h)), State (h ++ [JsObject ObjectPrototype ps]) s) ∧
    safeMutate n' (VObject (length h)) (State (h ++ [JsObject ObjectPrototype ps]) s) =
      Some (Normal (VObject (S (length h))),
            State (h ++ [JsObject ObjectPrototype ps; JsObject ObjectPrototype ps]) s).
Proof.
  intros [props Hc]%copy_data_properties_closed.
  destruct (safeMutate_Some n o h s props Hc) as (ps & Hrun & Hval & _ & Henum & Hsafe).
  exists ps. split; [done|].
  unfold safeMutate. simpl. rewrite list_lookup_middle by done. simpl.
  rewrite filter_all_enum by done.
  unfold bind at 1. unfold alloc at 1. simpl.
  unfold bind, put. simpl.
  rewrite length_app, Nat.add_1_r.
  replace (S (length h)) with (length (h ++ [JsObject ObjectPrototype ps]))
    by (rewrite length_app; simpl; lia).
  rewrite list_lookup_middle by done. rewrite Hval.
  rewrite update_prop_same by done.
  unfold ret, set_heap. simpl. rewrite insert_app_r_alt by done.
  rewrite Nat.sub_diag. simpl. by rewrite <-app_assoc.
Qed.

Lemma safeMutate_twice_same_properties_witness :
  val_closed (length shared) (VObject 0) = true ∧
  ∃ ps,
    safeMutate 0 (VObject 0) (State shared ∅) =
      Some (Normal (VObject (length shared)),
            State (shared ++ [JsObject ObjectPrototype ps]) ∅) ∧
    safeMutate 0 (VObject (length shared))
               (State (shared ++ [JsObject ObjectPrototype ps]) ∅) =
      Some (Normal (VObject (S (length shared))),
            State (shared ++ [JsObject ObjectPrototype ps; JsObject ObjectPrototype ps]) ∅).
Proof.
  split; [reflexivity|].
  exact (safeMutate_twice_same_properties 0 0 (VObject 0) shared ∅ eq_refl).
Defined.

(** ** mutate *)

Lemma read_only_above_app fr n (h h' : list object) p key r :
  read_only_above fr n h p key = Some r →
  read_only_above fr n (h ++ h') p key = Some r.
Proof.
  revert p. induction n as [|n IH]; intros [| | |l]; try done. simpl.
  destruct (h !! l) as [o|] eqn:Hl; [|done].
  rewrite (lookup_app_l_Some _ _ _ _ Hl).
  destruct (own_prop _ _); [done|]. apply IH.
Qed.

Lemma refused_app fr n (h h' : list object) l key r :
  refused fr n h l key = Some r → refused fr n (h ++ h') l key = Some r.
Proof.
  unfold refused. destruct (h !! l) as [o|] eqn:Hl; [|done].
  rewrite (lookup_app_l_Some _ _ _ _ Hl).
  destruct (own_prop _ _); [done|].
  destruct (read_only_above fr n h (proto_of o) key) as [r0|] eqn:Hr; [|done].
  by rewrite (read_only_above_app _ _ _ _ _ _ _ Hr).
Qed.

Lemma mutate_put fr n l (h : list object) s pr props :
  h !! l = Some (JsObject pr props) → refused fr n h l "value" = Some false →
  ∃ props',
    mutate fr n (VObject l) (State h s) =
      Some (Normal VUndefined, State (<[l := JsObject pr props']> h) s) ∧
    p_val <$> own_prop (KString "value") props' = Some (VString "mutated") ∧
    ∀ k, k ≠ KString "value" → own_prop k props' = own_prop k props.
Proof.
  intros Hl Hr.
  destruct (put_named n l "value" (VString "mutated") (State h s) pr props
              ltac:(done) Hl) as (props' & Hput & Hval & Hother & _).
  exists props'. split; [|done]. unfold mutate, bind, put_sloppy. cbn [st_heap].
  by rewrite Hr, Hput.
Qed.

(** X9.  [mutate] writes in place, where the write is not refused.  The
    write of [value] to an object is refused when the object is frozen,
    and when the property [value] it inherits belongs to a frozen object.
    Where it is not refused, [mutate] on an ordinary object allocates
    nothing and changes that one object only, of which it sets the
    property [value] to ['mutated'] and leaves the prototype and every
    other property as they were: whoever holds a reference to the object
    sees the change.  Where it is refused, nothing changes at all, and
    nothing is reported: the code is not strict.  Nothing changes either
    when the argument is a boolean, a number, a string, a symbol or a
    bigint.  In all these cases [mutate] returns undefined.  On null and
    on undefined it throws a TypeError and changes nothing. *)
Theorem mutate_writes_in_place (fr : gset nat) (n : nat) (h : list object)
    (s : gmap nat val) :
  (∀ l pr props, h !! l = Some (JsObject pr props) →
     refused fr n h l "value" = Some false →
     ∃ props',
       mutate fr n (VObject l) (State h s) =
         Some (Normal VUndefined, State (<[l := JsObject pr props']> h) s) ∧
       p_val <$> own_prop (KString "value") props' = Some (VString "mutated") ∧
       ∀ k, k ≠ KString "value" → own_prop k props' = own_prop k props) ∧
  (∀ l, refused fr n h l "value" = Some true →
     mutate fr n (VObject l) (State h s) = Some (Normal VUndefined, State h s)) ∧
  (∀ v, typeof v ≠ "object" → v ≠ VUndefined →
     mutate fr n v (State h s) = Some (Normal VUndefined, State h s)) ∧
  mutate fr n VNull (State h s) =
    Some (Throw (TypeError "Cannot set properties of null (setting 'value')"), State h s) ∧
  mutate fr n VUndefined (State h s) =
    Some (Throw (TypeError "Cannot set properties of undefined (setting 'value')"),
          State h s).
Proof.
  split; [intros l pr props; apply mutate_put|].
  split.
  { intros l Hr. unfold mutate, bind, put_sloppy. cbn [st_heap]. by rewrite Hr. }
  split; [|done].
  intros v Ht Hv. by destruct v.
Qed.

Lemma mutate_writes_in_place_witness :
  let plain := [Prop_ (KString "value") (VString "init") true] in
  let written := [Prop_ (KString "value") (VString "mutated") true] in
  (below_frozen !! 2 = Some (JsObject ObjectPrototype plain) ∧
   refused {[0]} 2 below_frozen 2 "value" = Some false ∧
   mutate {[0]} 2 (VObject 2) (State below_frozen ∅) =
     Some (Normal VUndefined,
           State (<[2 := JsObject ObjectPrototype written]> below_frozen) ∅)) ∧
  (refused {[0]} 2 below_frozen 1 "value" = Some true ∧
   mutate {[0]} 2 (VObject 1) (State below_frozen ∅) =
     Some (Normal VUndefined, State below_frozen ∅)) ∧
  (refused {[0]} 2 below_frozen 0 "value" = Some true ∧
   mutate {[0]} 2 (VObject 0) (State below_frozen ∅) =
     Some (Normal VUndefined, State below_frozen ∅)) ∧
  mutate {[0]} 2 (VNumber 5) (State below_frozen ∅) =
    Some (Normal VUndefined, State below_frozen ∅).
Proof.
  intros plain written.
  destruct (mutate_writes_in_place {[0]} 2 below_frozen ∅) as (Hw & Hr & Hp & _).
  assert (refused {[0]} 2 below_frozen 2 "value" = Some false) as H2 by reflexivity.
  assert (refused {[0]} 2 below_frozen 1 "value" = Some true) as H1 by reflexivity.
  assert (refused {[0]} 2 below_frozen 0 "value" = Some true) as H0 by reflexivity.
  split; [|split; [|split]].
  - split; [reflexivity|]. split; [exact H2|]. reflexivity.
  - split; [exact H1|]. exact (Hr 1 H1).
  - split; [exact H0|]. exact (Hr 0 H0).
  - apply Hp; discriminate.
Defined.

(** X10.  What the guide warns of: a write through the shallow copy
    reaches the original.  When a property [k] of [o] refers to an object
    [b], and the write of [value] to [b] is not refused, then
    [mutate(safeMutate(o)[k])] changes [b] itself, which [o[k]] still
    refers to. *)
Theorem mutate_through_copy_reaches_original (fr : gset nat) (n : nat) (l b : nat)
    (k : string) (h : list object) (s : gmap nat val) (pr prb : proto)
    (props propsb : list prop) (p : prop) :
  h !! l = Some (JsObject pr props) → NoDup (p_key <$> props) →
  own_prop (KString k) props = Some p → p_enum p = true → p_val p = VObject b →
  k ≠ "value" → h !! b = Some (JsObject prb propsb) →
  refused fr (S n) h b "value" = Some false →
  ∃ st' propsb',
    (let* copy := safeMutate (S n) (VObject l) in
     let* x := get_value (S n) copy k in
     mutate fr (S n) x) (State h s) = Some (Normal VUndefined, st') ∧
    st_heap st' !! b = Some (JsObject prb propsb') ∧
    p_val <$> own_prop (KString "value") propsb' = Some (VString "mutated") ∧
    own_value (st_heap st') (VObject l) (KString k) = Some (VObject b).
Proof.
  intros Hl Hnd Hp He Hv Hk Hb Href.
  assert (props_of h (VObject l) = Some props) as Hprops by (simpl; by rewrite Hl).
  destruct (safeMutate_Some (S n) (VObject l) h s _ (props_of_copy _ _ _ Hprops))
    as (ps & Hcopy & _ & Hshare & _).
  assert (own_prop (KString k) ps = Some p) as Hps.
  { rewrite Hshare, own_prop_filter_enum by congruence. rewrite Hp. simpl. by rewrite He. }
  set (h1 := h ++ [JsObject ObjectPrototype ps]).
  assert (h1 !! b = Some (JsObject prb propsb)) as Hb1 by by apply lookup_app_l_Some.
  assert (refused fr (S n) h1 b "value" = Some false) as Href1 by by apply refused_app.
  destruct (mutate_put fr (S n) b h1 s prb propsb Hb1 Href1)
    as (propsb' & Hmut & Hval & Hother).
  exists (State (<[b := JsObject prb propsb']> h1) s), propsb'.
  split; [|split; [|split; [done|]]].
  - unfold bind at 1. rewrite Hcopy. unfold bind at 1.
    unfold get_value, lookup. cbn [lookup_chain st_heap].
    fold h1. unfold h1 at 1. rewrite list_lookup_middle by done.
    cbn [own_props]. rewrite Hps, Hv. exact Hmut.
  - simpl. apply list_lookup_insert_eq. by eapply lookup_lt_Some.
  - unfold own_value. simpl.
    destruct (decide (l = b)) as [->|Hlb].
    + rewrite list_lookup_insert_eq by by eapply lookup_lt_Some. simpl.
      assert (propsb = props) as -> by congruence.
      rewrite Hother by congruence. rewrite Hp. simpl. by rewrite Hv.
    + rewrite list_lookup_insert_ne by done.
      unfold h1. rewrite (lookup_app_l_Some _ _ _ _ Hl). simpl.
      rewrite Hp. simpl. by rewrite Hv.
Qed.

Lemma mutate_through_copy_reaches_original_witness :
  let props := [Prop_ (KString "a") (VObject 1) true; Prop_ (KString "b") (VObject 2) true] in
  shared !! 0 = Some (JsObject ObjectPrototype props) ∧ NoDup (p_key <$> props) ∧
  own_prop (KString "a") props = Some (Prop_ (KString "a") (VObject 1) true) ∧
  shared !! 1 = Some (JsObject ObjectPrototype []) ∧
  refused {[0]} 1 shared 1 "value" = Some false ∧
  ∃ st' propsb',
    (let* copy := safeMutate 1 (VObject 0) in
     let* x := get_value 1 copy "a" in
     mutate {[0]} 1 x) (State shared ∅) = Some (Normal VUndefined, st') ∧
    st_heap st' !! 1 = Some (JsObject ObjectPrototype propsb') ∧
    p_val <$> own_prop (KString "value") propsb' = Some (VString "mutated") ∧
    own_value (st_heap st') (VObject 0) (KString "a") = Some (VObject 1).
Proof.
  intros props.
  assert (NoDup (p_key <$> props)) as Hnd by compute_done.
  assert ("a" ≠ "value") as Hk by discriminate.
  assert (refused {[0]} 1 shared 1 "value" = Some false) as Href by reflexivity.
  split; [reflexivity|]. split; [exact Hnd|]. split; [reflexivity|].
  split; [reflexivity|]. split; [exact Href|].
  exact (mutate_through_copy_reaches_original {[0]} 0 0 1 "a" shared ∅
           ObjectPrototype ObjectPrototype props []
           (Prop_ (KString "a") (VObject 1) true)
           eq_refl Hnd eq_refl eq_refl eq_refl Hk eq_refl Href).
Defined.

(** ** updateName *)

Lemma goes_before_keys p p' q q' :
  p_key p' = p_key p → p_key q' = p_key q → goes_before p' q' = goes_before p q.
Proof. unfold goes_before. by intros -> ->. Qed.

Lemma map_add_prop (f : prop → prop) p props :
  (∀ q, p_key (f q) = p_key q) →
  map f (add_prop p props) = add_prop (f p) (map f props).
Proof.
  intros Hf. induction props as [|q props IH]; [done|].
  cbn [add_prop map]. rewrite (goes_before_keys p (f p) q (f q)) by done.
  destruct (goes_before p q); [done|]. cbn [map]. by rewrite IH.
Qed.

Lemma map_id_on (f : prop → prop) (props : list prop) :
  (∀ q, q ∈ props → f q = q) → map f props = props.
Proof.
  induction props as [|q props IH]; intros Hf; [done|].
  cbn [map]. rewrite Hf by left. f_equal. apply IH. intros q' Hq'. apply Hf. by right.
Qed.

Lemma create_data_property_twice k a b props :
  create_data_property k b (create_data_property k a props) =
  create_data_property k b props.
Proof.
  unfold create_data_property at 1.
  rewrite own_prop_create_data_property, bool_decide_eq_true_2 by done.
  unfold create_data_property.
  destruct (own_prop k props) as [q|] eqn:Hq.
  - rewrite map_map. apply map_ext. intros p. simpl.
    destruct (decide (p_key p = k)) as [Hp|Hp].
    + rewrite !(bool_decide_eq_true_2 _ Hp). simpl. by rewrite bool_decide_eq_true_2.
    + by rewrite !(bool_decide_eq_false_2 _ Hp).
  - rewrite map_add_prop by (intros p; by case_bool_decide).
    simpl. rewrite bool_decide_eq_true_2 by done. f_equal.
    apply map_id_on. intros p Hp.
    rewrite bool_decide_eq_false_2; [done|]. by eapply own_prop_None.
Qed.

Lemma updateName_Some obj name h s props :
  copy_data_properties h obj = Some props →
  updateName obj name (State h s) =
    Some (Normal (VObject (length h)),
          State (h ++ [JsObject ObjectPrototype
                         (create_data_property (KString "name") name props)]) s).
Proof. intros Hc. unfold updateName. simpl. by rewrite Hc. Qed.

(** X11.  [updateName] returns for every value and never throws.  It returns a
    new plain object and leaves every existing object as it was.  The
    property [name] of the result is the name given; every other own
    enumerable property of the argument is on the result with the very
    same value, and the properties that are not enumerable are left
    behind. *)
Theorem updateName_returns_renamed_copy (obj name : val) (h : list object)
    (s : gmap nat val) :
  val_closed (length h) obj = true →
  ∃ ps,
    updateName obj name (State h s) =
      Some (Normal (VObject (length h)), State (h ++ [JsObject ObjectPrototype ps]) s) ∧
    own_prop (KString "name") ps = Some (Prop_ (KString "name") name true) ∧
    ∀ props, props_of h obj = Some props → NoDup (p_key <$> props) →
      ∀ k, k ≠ KString "name" →
        own_prop k ps = own_prop k props ≫= λ p, if p_enum p then Some p else None.
Proof.
  intros [props Hc]%copy_data_properties_closed.
  eexists. split; [by apply updateName_Some|]. split.
  - by rewrite own_prop_create_data_property, bool_decide_eq_true_2.
  - intros props0 Hprops Hnd k Hk.
    rewrite own_prop_create_data_property, bool_decide_eq_false_2 by done.
    rewrite (props_of_copy _ _ _ Hprops) in Hc. injection Hc as <-.
    by apply own_prop_filter_enum.
Qed.

Lemma updateName_returns_renamed_copy_witness :
  val_closed (length shared) (VObject 0) = true ∧
  ∃ ps,
    updateName (VObject 0) (VString "n") (State shared ∅) =
      Some (Normal (VObject (length shared)),
            State (shared ++ [JsObject ObjectPrototype ps]) ∅) ∧
    own_prop (KString "name") ps = Some (Prop_ (KString "name") (VString "n") true) ∧
    ∀ props, props_of shared (VObject 0) = Some props → NoDup (p_key <$> props) →
      ∀ k, k ≠ KString "name" →
        own_prop k ps = own_prop k props ≫= λ p, if p_enum p then Some p else None.
Proof.
  split; [reflexivity|].
  exact (updateName_returns_renamed_copy (VObject 0) (VString "n") shared ∅ eq_refl).
Defined.

(** X12.  The last name wins: renaming a renamed copy gives an object with
    exactly the properties, in the same order, that renaming the original
    gives. *)
Theorem updateName_last_name_wins (obj a b : val) (h : list object) (s : gmap nat val) :
  val_closed (length h) obj = true →
  ∃ ps1 ps2,
    updateName obj a (State h s) =
      Some (Normal (VObject (length h)), State (h ++ [JsObject ObjectPrototype ps1]) s) ∧
    updateName (VObject (length h)) b (State (h ++ [JsObject ObjectPrototype ps1]) s) =
      Some (Normal (VObject (S (length h))),
            State (h ++ [JsObject ObjectPrototype ps1; JsObject ObjectPrototype ps2]) s) ∧
    updateName obj b (State h s) =
      Some (Normal (VObject (length h)), State (h ++ [JsObject ObjectPrototype ps2]) s).
Proof.
  intros [props Hc]%copy_data_properties_closed.
  pose proof (copy_data_properties_enum _ _ _ Hc) as Henum.
  exists (create_data_property (KString "name") a props),
         (create_data_property (KString "name") b props).
  split; [by apply updateName_Some|]. split; [|by apply updateName_Some].
  set (ps1 := create_data_property (KString "name") a props).
  assert (∀ p, p ∈ ps1 → p_enum p = true) as Henum1.
  { unfold ps1, create_data_property. intros p.
    destruct (own_prop (KString "name") props).
    - intros (q & -> & Hq)%list_elem_of_fmap. case_bool_decide; [done|by apply Henum].
    - clear -Henum. induction props as [|q props IH]; cbn [add_prop].
      + by intros ->%list_elem_of_singleton.
      + destruct (goes_before _ q).
        * intros [->|Hp]%elem_of_cons; [done|by apply Henum].
        * intros [->|Hp]%elem_of_cons; [apply Henum; by left|].
          apply IH; [|done]. intros p' Hp'. apply Henum. by right. }
  erewrite updateName_Some; last first.
  { simpl. rewrite list_lookup_middle by done. simpl.
    by rewrite filter_all_enum. }
  unfold ps1. rewrite create_data_property_twice.
  by rewrite length_app, Nat.add_1_r, <-app_assoc.
Qed.

Lemma updateName_last_name_wins_witness :
  val_closed (length shared) (VObject 0) = true ∧
  ∃ ps1 ps2,
    updateName (VObject 0) (VString "x") (State shared ∅) =
      Some (Normal (VObject (length shared)),
            State (shared ++ [JsObject ObjectPrototype ps1]) ∅) ∧
    updateName (VObject (length shared)) (VString "y")
               (State (shared ++ [JsObject ObjectPrototype ps1]) ∅) =
      Some (Normal (VObject (S (length shared))),
            State (shared ++ [JsObject ObjectPrototype ps1;
                              JsObject ObjectPrototype ps2]) ∅) ∧
    updateName (VObject 0) (VString "y") (State shared ∅) =
      Some (Normal (VObject (length shared)),
            State (shared ++ [JsObject ObjectPrototype ps2]) ∅).
Proof.
  split; [reflexivity|].
  exact (updateName_last_name_wins (VObject 0) (VString "x") (VString "y") shared ∅ eq_refl).
Defined.

(** * deepFreeze *)

(** ** The keys of arrays *)

Lemma pretty_N_go_head x s :
  (0 < x)%N → ∃ d t, pretty_N_go x s = String (pretty_N_char d) t.
Proof.
  revert s. induction (N.lt_wf_0 x) as [x _ IH]. intros s Hx.
  rewrite pretty_N_go_step by done.
  destruct (decide (x `div` 10 = 0)%N) as [->|Hd].
  - rewrite pretty_N_go_0. eauto.
  - apply IH; [by apply N.div_lt|by apply N.neq_0_lt_0].
Qed.

Lemma index_key_not_length i : index_key i ≠ "length".
Proof.
  unfold index_key, pretty, pretty_nat, pretty, pretty_N.
  case_decide as Hi; [done|].
  destruct (pretty_N_go_head (N.of_nat i) "") as (d & t & ->); [lia|].
  unfold pretty_N_char. by repeat case_match.
Qed.

Lemma array_props_NoDup elems : NoDup (p_key <$> array_props elems).
Proof.
  unfold array_props. rewrite fmap_app. apply NoDup_app. split; [|split].
  - apply NoDup_alt. intros i j k.
    rewrite !list_lookup_fmap, !list_lookup_imap.
    destruct (elems !! i) as [vi|]; [|done]. destruct (elems !! j) as [vj|]; [|done].
    simpl. intros [= <-] [= Hij]. by apply (inj pretty) in Hij.
  - intros k (p & -> & Hp)%list_elem_of_fmap.
    apply list_elem_of_lookup in Hp as [i Hp]. rewrite list_lookup_imap in Hp.
    destruct (elems !! i) as [vi|]; [|done]. injection Hp as <-. simpl.
    intros [= Hk]%list_elem_of_singleton. by apply index_key_not_length in Hk.
  - simpl. apply NoDup_singleton.
Qed.

Lemma own_props_NoDup h l o :
  distinct_keys h = true → h !! l = Some o → NoDup (p_key <$> own_props o).
Proof.
  intros Hd Hl. destruct o as [elems|pr props]; [apply array_props_NoDup|].
  unfold distinct_keys in Hd. rewrite forallb_forall in Hd.
  specialize (Hd (JsObject pr props)). simpl in Hd.
  apply bool_decide_eq_true in Hd; [done|].
  apply list_elem_of_In. by eapply list_elem_of_lookup_2.
Qed.

(** ** Names and the values under them *)

Lemma string_keys_elem name (props : list prop) :
  name ∈ string_keys props ↔ ∃ p, p ∈ props ∧ p_key p = KString name.
Proof.
  unfold string_keys. rewrite list_elem_of_omap. split.
  - intros (p & Hin & Hp). exists p. destruct p as [[s0|] v e]; simplify_eq/=. done.
  - intros (p & Hin & Hk). exists p. split; [done|]. by rewrite Hk.
Qed.

Lemma string_keys_own_prop name (props : list prop) :
  name ∈ string_keys props → ∃ p, own_prop (KString name) props = Some p ∧ p ∈ props.
Proof.
  intros (q & Hq & Hk)%string_keys_elem.
  destruct (own_prop (KString name) props) as [p|] eqn:Hp.
  - exists p. split; [done|]. by apply own_prop_Some in Hp as [? _].
  - by destruct (own_prop_None _ _ _ Hp Hq).
Qed.

Lemma named_fields_elem v o :
  v ∈ named_fields o ↔ ∃ p name, p ∈ own_props o ∧ p_key p = KString name ∧ p_val p = v.
Proof.
  unfold named_fields. rewrite list_elem_of_omap. split.
  - intros (p & Hin & Hp). exists p. destruct p as [[s0|] w e]; simplify_eq/=. eauto.
  - intros (p & name & Hin & Hk & Hv). exists p. split; [done|]. by rewrite Hk, Hv.
Qed.

(** With distinct keys, what an object holds under a string key is what
    the loop of [deepFreeze] reads under one of the names. *)
Lemma named_fields_name v o :
  NoDup (p_key <$> own_props o) → v ∈ named_fields o →
  ∃ name p, name ∈ string_keys (own_props o) ∧
            own_prop (KString name) (own_props o) = Some p ∧ p_val p = v.
Proof.
  intros Hnd (p & name & Hin & Hk & Hv)%named_fields_elem.
  exists name, p. split; [|split; [|done]].
  - apply string_keys_elem. eauto.
  - by apply own_prop_unique.
Qed.

Lemma own_prop_named_field name o p :
  own_prop (KString name) (own_props o) = Some p → p_val p ∈ named_fields o.
Proof.
  intros [Hin Hk]%own_prop_Some. apply named_fields_elem. eauto.
Qed.

(** ** The monad of deepFreeze *)

Lemma bindF_Some {A B} (m : F A) (k : A → F B) fr r :
  bindF m k fr = Some r ↔
  (∃ e fr', m fr = Some (Throw e, fr') ∧ r = (Throw e, fr')) ∨
  (∃ a fr', m fr = Some (Normal a, fr') ∧ k a fr' = Some r).
Proof.
  unfold bindF. destruct (m fr) as [[[a|e] fr']|]; split.
  - intros H. right. eauto.
  - intros [(e & fr'' & [=] & _)|(a' & fr'' & [= -> ->] & H)]. done.
  - intros [= <-]. left. eauto.
  - intros [(e' & fr'' & [= -> ->] & ->)|(a' & fr'' & [=] & _)]. done.
  - done.
  - intros [(e & fr'' & [=] & _)|(a' & fr'' & [=] & _)].
Qed.

(** The test of the loop body succeeds on the objects that are not frozen. *)
Lemma descends_object fr prop :
  to_boolean prop && bool_decide (typeof prop = "object") && negb (isFrozen fr prop) = true ↔
  ∃ y, prop = VObject y ∧ y ∉ fr.
Proof.
  split.
  - destruct prop; simpl; try done; rewrite ?andb_false_r; try done.
    intros Hy. exists l. split; [done|].
    by apply negb_true_iff, bool_decide_eq_false in Hy.
  - intros (y & -> & Hy). simpl. by rewrite bool_decide_eq_false_2.
Qed.

Lemma freeze_body_skip n h props name p fr :
  own_prop (KString name) props = Some p →
  (∀ y, p_val p = VObject y → y ∈ fr) →
  freeze_body n h props name fr = Some (Normal tt, fr).
Proof.
  intros Hp Hfr. unfold freeze_body. rewrite Hp.
  destruct (to_boolean _ && _ && _) eqn:Hd; [|done].
  apply descends_object in Hd as (y & Hy & Hn). by destruct (Hn (Hfr _ Hy)).
Qed.

Lemma freeze_body_descend n h props name p y fr :
  own_prop (KString name) props = Some p → p_val p = VObject y → y ∉ fr →
  freeze_body n h props name fr = bindF (deepFreeze n h (VObject y)) (λ _, retF tt) fr.
Proof.
  intros Hp Hy Hn. unfold freeze_body. rewrite Hp.
  rewrite (proj2 (descends_object fr (p_val p))) by eauto. by rewrite Hy.
Qed.

Lemma deepFreeze_object n h l o fr :
  h !! l = Some o →
  deepFreeze (S n) h (VObject l) fr =
  bindF (for_each (freeze_body n h (own_props o)) (string_keys (own_props o)))
        (λ _, freeze (VObject l)) fr.
Proof. intros Hl. simpl. by rewrite Hl. Qed.

(** A loop none of whose steps does anything. *)
Lemma for_each_skip body names fr :
  (∀ name, name ∈ names → body name fr = Some (Normal tt, fr)) →
  for_each body names fr = Some (Normal tt, fr).
Proof.
  induction names as [|name names IH]; intros Hb; [done|].
  simpl. unfold bindF. rewrite Hb by left. apply IH. intros ??. apply Hb. by right.
Qed.

(** A loop, step by step: [I] holds of the frozen set throughout. *)
Lemma for_each_inv (I : gset nat → Prop) body names fr r fr' :
  (∀ name fi ri fi', name ∈ names → I fi → body name fi = Some (ri, fi') →
     ri = Normal tt ∧ I fi') →
  I fr → for_each body names fr = Some (r, fr') →
  r = Normal tt ∧ I fr'.
Proof.
  revert fr. induction names as [|name names IH]; intros fr Hstep HI; simpl.
  { by intros [= <- <-]. }
  rewrite bindF_Some.
  intros [(e & fi & Hb & _)|([] & fi & Hb & Hrest)].
  { by destruct (Hstep name fr (Throw e) fi ltac:(left) HI Hb) as [? _]. }
  destruct (Hstep _ _ _ _ ltac:(left) HI Hb) as (_ & HI1).
  apply (IH fi); [|done..]. intros ?????. apply Hstep. by right.
Qed.

(** Moreover a step that completes establishes [Q] of its name, for good. *)
Lemma for_each_post (I : gset nat → Prop) (Q : string → gset nat → Prop)
    body names fr r fr' :
  (∀ name fi ri fi', name ∈ names → I fi → body name fi = Some (ri, fi') →
     ri = Normal tt ∧ I fi' ∧ Q name fi' ∧ ∀ name', Q name' fi → Q name' fi') →
  I fr → for_each body names fr = Some (r, fr') →
  r = Normal tt ∧ I fr' ∧ ∀ name, name ∈ names → Q name fr'.
Proof.
  revert fr. induction names as [|name names IH]; intros fr Hstep HI; simpl.
  { intros [= <- <-]. split; [done|]. split; [done|]. by intros ? ?%elem_of_nil. }
  rewrite bindF_Some.
  intros [(e & fi & Hb & _)|([] & fi & Hb & Hrest)].
  { by destruct (Hstep name fr (Throw e) fi ltac:(left) HI Hb) as [? _]. }
  destruct (Hstep _ _ _ _ ltac:(left) HI Hb) as (_ & HI1 & HQ1 & _).
  destruct (IH fi) as (-> & HI' & HQ'); [|done|done|].
  { intros ?????. apply Hstep. by right. }
  split; [done|]. split; [done|].
  intros name' [->|Hn]%elem_of_cons; [|by apply HQ'].
  assert (∀ nm fj rj fj', nm ∈ names → I fj ∧ Q name fj → body nm fj = Some (rj, fj') →
            rj = Normal tt ∧ I fj' ∧ Q name fj') as Hstep'.
  { intros nm fj rj fj' Hnm [HIj HQj] Hbj.
    destruct (Hstep nm fj rj fj' ltac:(by right) HIj Hbj) as (-> & HIj' & _ & Hkeep).
    split; [done|]. split; [done|]. by apply Hkeep. }
  by destruct (for_each_inv (λ f, I f ∧ Q name f) _ _ _ _ _ Hstep' (conj HI1 HQ1) Hrest)
    as [_ [_ ?]].
Qed.

Lemma thaw_edge_mono h (fr fr' : gset nat) l l' :
  fr ⊆ fr' → thaw_edge h fr' l l' → thaw_edge h fr l l'.
Proof.
  intros Hsub (o & Hl & Hin & Hn). exists o. split; [done|]. split; [done|].
  intros Hl'. by apply Hn, Hsub.
Qed.

(** ** Calls that return *)

Lemma deepFreeze_grows n h l fr r fr' :
  deepFreeze n h (VObject l) fr = Some (r, fr') → r = Normal (VObject l) ∧ fr ⊆ fr'.
Proof.
  revert l fr r fr'. induction n as [|n IH]; intros l fr r fr'; [done|].
  destruct (h !! l) as [o|] eqn:Hl; [|by simpl; rewrite Hl].
  rewrite (deepFreeze_object _ _ _ _ _ Hl), bindF_Some.
  assert (∀ name fi ri fi', name ∈ string_keys (own_props o) → fr ⊆ fi →
            freeze_body n h (own_props o) name fi = Some (ri, fi') →
            ri = Normal tt ∧ fr ⊆ fi') as Hstep.
  { intros name fi ri fi' _ Hsub. unfold freeze_body.
    destruct (own_prop _ _) as [p|]; [|done].
    destruct (to_boolean _ && _ && _) eqn:Hd; [|by intros [= <- <-]].
    apply descends_object in Hd as (y & -> & _). rewrite bindF_Some.
    intros [(e & fj & Hd & _)|(a & fj & Hd & [= <- <-])].
    - by destruct (IH _ _ _ _ Hd) as [? _].
    - destruct (IH _ _ _ _ Hd) as [_ ?]. split; [done|]. by etrans. }
  intros [(e & f1 & Hloop & _)|([] & f1 & Hloop & [= <- <-])].
  - by destruct (for_each_inv (λ fi, fr ⊆ fi) _ _ _ _ _ Hstep ltac:(done) Hloop) as [? _].
  - destruct (for_each_inv (λ fi, fr ⊆ fi) _ _ _ _ _ Hstep ltac:(done) Hloop) as [_ Hsub].
    split; [done|]. intros x Hx. by apply elem_of_union_r, Hsub.
Qed.

Lemma thaw_depth_mono k h (fr fr' : gset nat) v :
  fr ⊆ fr' → thaw_depth k h fr v = true → thaw_depth k h fr' v = true.
Proof.
  intros Hsub. revert v. induction k as [|k IH]; intros [| | | | | | |l]; try done.
  simpl. destruct (h !! l) as [o|]; [|done].
  rewrite !forallb_forall. intros Hall c Hc. specialize (Hall c Hc).
  apply orb_true_iff in Hall as [Hf|Hd]; apply orb_true_iff; [left|right; by apply IH].
  destruct c; try done. simpl in *. apply bool_decide_eq_true in Hf.
  by apply bool_decide_eq_true, Hsub.
Qed.

Lemma thaw_depth_object k h fr l :
  thaw_depth k h fr (VObject l) = true →
  ∃ k' o, k = S k' ∧ h !! l = Some o ∧
          ∀ y, VObject y ∈ named_fields o → y ∉ fr →
               thaw_depth k' h fr (VObject y) = true.
Proof.
  destruct k as [|k]; [done|]. simpl. destruct (h !! l) as [o|]; [|done].
  rewrite forallb_forall. intros Hall. exists k, o. split; [done|]. split; [done|].
  intros y Hy%list_elem_of_In Hn. apply Hall, orb_true_iff in Hy as [Hf|?]; [|done].
  simpl in Hf. by apply bool_decide_eq_true in Hf.
Qed.

(** Fuel for the depth of the part that is not frozen is enough. *)
Lemma deepFreeze_terminates k h l fr :
  thaw_depth k h fr (VObject l) = true →
  ∃ fr', deepFreeze k h (VObject l) fr = Some (Normal (VObject l), fr').
Proof.
  revert l fr. induction k as [|k IH]; intros l fr Hd; [done|].
  apply thaw_depth_object in Hd as (k' & o & [= <-] & Hl & Hdeep).
  rewrite (deepFreeze_object _ _ _ _ _ Hl).
  assert (∀ names fi, (∀ name, name ∈ names → name ∈ string_keys (own_props o)) →
            fr ⊆ fi →
            ∃ f', for_each (freeze_body k h (own_props o)) names fi = Some (Normal tt, f'))
    as Hloop.
  { induction names as [|name names IHn]; intros fi Hnames Hsub; [by eexists|].
    destruct (string_keys_own_prop name (own_props o)) as (p & Hp & Hin);
      [apply Hnames; left|].
    assert (∃ fj, freeze_body k h (own_props o) name fi = Some (Normal tt, fj) ∧ fi ⊆ fj)
      as (fj & Hb & Hsubj).
    { assert ((∃ y, p_val p = VObject y ∧ y ∉ fi) ∨ (∀ y, p_val p = VObject y → y ∈ fi))
        as [(y & Hy & Hn)|Hskip].
      { destruct (p_val p) as [| | | | | | |y]; try (by right).
        destruct (decide (y ∈ fi)); [right; by intros ? [= <-]|left; eauto]. }
      - destruct (IH y fi) as [fj Hrun].
        { apply (thaw_depth_mono _ _ fr); [done|]. apply Hdeep.
          - rewrite <-Hy. by eapply own_prop_named_field.
          - intros Hy'. by apply Hn, Hsub. }
        exists fj. rewrite (freeze_body_descend _ _ _ _ _ _ _ Hp Hy Hn).
        unfold bindF. rewrite Hrun. split; [done|].
        by apply deepFreeze_grows in Hrun as [_ ?].
      - exists fi. split; [|done]. by eapply freeze_body_skip. }
    destruct (IHn fj) as [f' Hrest]; [intros ??; apply Hnames; by right|by etrans|].
    exists f'. simpl. unfold bindF. by rewrite Hb. }
  destruct (Hloop (string_keys (own_props o)) fr) as [f1 Hrun]; [done..|].
  eexists. unfold bindF. by rewrite Hrun.
Qed.

(** A call on an object all of whose named fields are frozen freezes
    that object and looks no further. *)
Lemma deepFreeze_stops_at_frozen n h l o (fr : gset nat) :
  h !! l = Some o → (∀ y, VObject y ∈ named_fields o → y ∈ fr) →
  deepFreeze (S n) h (VObject l) fr = Some (Normal (VObject l), {[l]} ∪ fr).
Proof.
  intros Hl Hall. rewrite (deepFreeze_object _ _ _ _ _ Hl). unfold bindF.
  rewrite for_each_skip; [done|].
  intros name (p & Hp & Hin)%string_keys_own_prop.
  eapply freeze_body_skip; [done|]. intros y Hy. apply Hall.
  rewrite <-Hy. by eapply own_prop_named_field.
Qed.

(** ** What a run freezes *)

Section Freeze.

Context (h : list object) (F0 : gset nat).
Context (Hnd : ∀ l o, h !! l = Some o → NoDup (p_key <$> own_props o)).

Lemma freeze_inv_init : freeze_inv h F0 F0.
Proof. split; [done|]. by intros x y Hx Hx'. Qed.

Lemma deepFreeze_inv n l fr r fr' :
  freeze_inv h F0 fr → deepFreeze n h (VObject l) fr = Some (r, fr') →
  r = Normal (VObject l) ∧ freeze_inv h F0 fr' ∧ fr ⊆ fr' ∧ l ∈ fr' ∧
  (∀ y, thaw_edge h F0 l y → y ∈ fr') ∧
  (∀ x, x ∈ fr' → x ∈ fr ∨ rtc (thaw_edge h fr) l x).
Proof.
  revert l fr r fr'. induction n as [|n IH]; intros l fr r fr' Hinv; [done|].
  destruct (h !! l) as [o|] eqn:Hl; [|by simpl; rewrite Hl].
  rewrite (deepFreeze_object _ _ _ _ _ Hl), bindF_Some.
  set (I := λ fi : gset nat, freeze_inv h F0 fi ∧ fr ⊆ fi ∧
              ∀ x, x ∈ fi → x ∈ fr ∨ ∃ y, thaw_edge h fr l y ∧ rtc (thaw_edge h fr) y x).
  set (Q := λ (name : string) (fi : gset nat),
              ∀ p y, own_prop (KString name) (own_props o) = Some p →
                     p_val p = VObject y → y ∈ fi).
  assert (I fr) as HI0 by (split; [done|split; [done|by left]]).
  assert (∀ name fi ri fi', name ∈ string_keys (own_props o) → I fi →
            freeze_body n h (own_props o) name fi = Some (ri, fi') →
            ri = Normal tt ∧ I fi' ∧ Q name fi' ∧ ∀ name', Q name' fi → Q name' fi')
    as Hstep.
  { intros name fi ri fi' Hname (Hinvi & Hsub & Hsound) Hb.
    destruct (string_keys_own_prop _ _ Hname) as (p & Hp & Hin).
    assert ((∃ y, p_val p = VObject y ∧ y ∉ fi) ∨ (∀ y, p_val p = VObject y → y ∈ fi))
      as [(y & Hy & Hn)|Hskip].
    { destruct (p_val p) as [| | | | | | |y]; try (by right).
      destruct (decide (y ∈ fi)); [right; by intros ? [= <-]|left; eauto]. }
    - rewrite (freeze_body_descend _ _ _ _ _ _ _ Hp Hy Hn), bindF_Some in Hb.
      destruct Hb as [(e & fj & Hd & _)|(a & fj & Hd & [= <- <-])].
      { by destruct (IH _ _ _ _ Hinvi Hd) as [? _]. }
      destruct (IH _ _ _ _ Hinvi Hd) as (_ & Hinvj & Hsubj & Hyj & _ & Hsoundj).
      split; [done|]. split; [|split].
      + split; [done|]. split; [by etrans|].
        intros x [Hx|Hx]%Hsoundj; [by apply Hsound|]. right. exists y. split.
        * exists o. split; [done|]. split; [|intros Hy'; by apply Hn, Hsub].
          rewrite <-Hy. by eapply own_prop_named_field.
        * eapply rtc_subrel; [|done]. intros ??. by apply thaw_edge_mono.
      + unfold Q. intros p' y' Hp' Hy'.
        assert (p' = p) as -> by congruence. by assert (y' = y) as -> by congruence.
      + unfold Q. intros name' HQ p' y' Hp' Hy'. apply Hsubj. by eapply HQ.
    - rewrite (freeze_body_skip _ _ _ _ _ _ Hp Hskip) in Hb. injection Hb as <- <-.
      split; [done|]. split; [done|]. split; [|done].
      unfold Q. intros p' y' Hp' Hy'.
      assert (p' = p) as -> by congruence. by apply Hskip. }
  intros [(e & f1 & Hloop & _)|([] & f1 & Hloop & [= <- <-])].
  { by destruct (for_each_post I Q _ _ _ _ _ Hstep HI0 Hloop) as [? _]. }
  destruct (for_each_post I Q _ _ _ _ _ Hstep HI0 Hloop)
    as (_ & (Hinv1 & Hsub1 & Hsound1) & HQ1).
  assert (∀ y, thaw_edge h F0 l y → y ∈ f1) as Hheld.
  { intros y (o' & Hl' & Hin & _). simplify_eq.
    destruct (named_fields_name _ _ (Hnd _ _ Hl) Hin) as (name & p & Hname & Hp & Hy).
    by eapply HQ1. }
  split; [done|]. split; [|split; [|split; [|split]]].
  - split; [intros x Hx; by apply elem_of_union_r, (fz_mono _ _ _ Hinv1)|].
    intros x y [->%elem_of_singleton|Hx]%elem_of_union Hx0 He.
    + apply elem_of_union_r. by apply Hheld.
    + apply elem_of_union_r. by eapply (fz_closed _ _ _ Hinv1).
  - intros x Hx. by apply elem_of_union_r, Hsub1.
  - by apply elem_of_union_l, elem_of_singleton.
  - intros y Hy. apply elem_of_union_r. by apply Hheld.
  - intros x [->%elem_of_singleton|Hx]%elem_of_union; [right; apply rtc_refl|].
    destruct (Hsound1 _ Hx) as [?|(y & He & Hr)]; [by left|right].
    by eapply rtc_l.
Qed.

(** Every object that [l] leads to through objects that were not frozen
    is frozen when the call on [l] has returned. *)
Lemma deepFreeze_complete n l r fr' x :
  deepFreeze n h (VObject l) F0 = Some (r, fr') →
  rtc (thaw_edge h F0) l x → x ∈ fr'.
Proof.
  intros Hrun.
  destruct (deepFreeze_inv _ _ _ _ _ freeze_inv_init Hrun)
    as (_ & Hinv & _ & Hl & Hheld & _).
  intros Hpath. apply rtc_inv in Hpath as [->|(y & Hy & Hpath)]; [done|].
  assert (y ∈ fr') as Hy' by by apply Hheld.
  assert (y ∉ F0) as Hy0 by (by destruct Hy as (? & _ & _ & ?)).
  clear Hy. induction Hpath as [y|y z x Hyz _ IHp]; [done|].
  assert (z ∉ F0) by (by destruct Hyz as (? & _ & _ & ?)).
  apply IHp; [|done]. by eapply (fz_closed _ _ _ Hinv).
Qed.

End Freeze.

(** ** Calls that never return *)

Lemma for_each_None (I : gset nat → Prop) body names name fr :
  name ∈ names → I fr →
  (∀ nm fi ri fi', nm ∈ names → I fi → body nm fi = Some (ri, fi') →
     ri = Normal tt ∧ I fi') →
  (∀ fi, I fi → body name fi = None) →
  for_each body names fr = None.
Proof.
  intros Hname HI Hstep Hstuck. revert fr HI.
  induction names as [|nm names IH]; intros fr HI; [by apply elem_of_nil in Hname|].
  simpl. unfold bindF. destruct (body nm fr) as [[ri fi']|] eqn:Hb; [|done].
  destruct (Hstep _ _ _ _ ltac:(left) HI Hb) as [-> HI'].
  apply elem_of_cons in Hname as [->|Hname].
  - by rewrite Hstuck in Hb.
  - apply IH; [done| |done]. intros ?????. apply Hstep. by right.
Qed.

Section Cycle.

Context (h : list object) (F0 : gset nat).
Context (Hnd : ∀ l o, h !! l = Some o → NoDup (p_key <$> own_props o)).

Lemma thaw_cycle_step x :
  thaw_cycle h F0 x → ∃ y, thaw_edge h F0 x y ∧ thaw_cycle h F0 y.
Proof.
  intros (c & Hxc & Hcc). apply rtc_inv in Hxc as [->|(y & Hxy & Hyc)].
  - inversion Hcc as [? ? Hedge|? y ? Hedge Hyc]; subst.
    + exists c. split; [done|]. by exists c.
    + exists y. split; [done|]. exists c. split; [by apply tc_rtc|done].
  - exists y. split; [done|]. by exists c.
Qed.

Lemma deepFreeze_cycle n l (fr : gset nat) :
  F0 ⊆ fr → (∀ x, x ∈ fr → x ∉ F0 → ¬ thaw_cycle h F0 x) →
  (thaw_cycle h F0 l → deepFreeze n h (VObject l) fr = None) ∧
  (∀ r fr', deepFreeze n h (VObject l) fr = Some (r, fr') →
            ∀ x, x ∈ fr' → x ∉ F0 → ¬ thaw_cycle h F0 x).
Proof.
  revert l fr. induction n as [|n IH]; intros l fr Hsub Hok; [done|].
  destruct (h !! l) as [o|] eqn:Hl; [|by simpl; rewrite Hl].
  rewrite (deepFreeze_object _ _ _ _ _ Hl).
  set (K := λ fi : gset nat, F0 ⊆ fi ∧ ∀ x, x ∈ fi → x ∉ F0 → ¬ thaw_cycle h F0 x).
  assert (K fr) as HK0 by done.
  assert (∀ nm fi ri fi', nm ∈ string_keys (own_props o) → K fi →
            freeze_body n h (own_props o) nm fi = Some (ri, fi') →
            ri = Normal tt ∧ K fi') as Hstep.
  { intros nm fi ri fi' _ [Hsubi Hoki]. unfold freeze_body.
    destruct (own_prop _ _) as [p|]; [|done].
    destruct (to_boolean _ && _ && _) eqn:Hd; [|by intros [= <- <-]].
    apply descends_object in Hd as (y & -> & _). rewrite bindF_Some.
    intros [(e & fj & Hd & _)|(a & fj & Hd & [= <- <-])].
    - by destruct (deepFreeze_grows _ _ _ _ _ _ Hd) as [? _].
    - destruct (deepFreeze_grows _ _ _ _ _ _ Hd) as [_ Hsubj].
      split; [done|]. split; [by etrans|].
      by apply (proj2 (IH y fi Hsubi Hoki) _ _ Hd). }
  assert (thaw_cycle h F0 l →
          for_each (freeze_body n h (own_props o)) (string_keys (own_props o)) fr = None)
    as Hstuck.
  { intros (y & (o' & Hl' & Hin & Hy0) & Hcyc)%thaw_cycle_step.
    assert (o' = o) as -> by congruence.
    destruct (named_fields_name _ _ (Hnd _ _ Hl) Hin) as (name & p & Hname & Hp & Hy).
    apply (for_each_None K _ _ name); [done..|].
    intros fi [Hsubi Hoki].
    assert (y ∉ fi) as Hn by (intros Hy'; by apply (Hoki y)).
    rewrite (freeze_body_descend _ _ _ _ _ _ _ Hp Hy Hn). unfold bindF.
    by rewrite (proj1 (IH y fi Hsubi Hoki) Hcyc). }
  split.
  - intros Hcyc. unfold bindF. by rewrite (Hstuck Hcyc).
  - intros r fr'. rewrite bindF_Some.
    intros [(e & f1 & Hloop & _)|([] & f1 & Hloop & [= <- <-])].
    { by destruct (for_each_inv K _ _ _ _ _ Hstep HK0 Hloop) as [? _]. }
    destruct (for_each_inv K _ _ _ _ _ Hstep HK0 Hloop) as [_ [Hsub1 Hok1]].
    intros x [->%elem_of_singleton|Hx]%elem_of_union Hx0; [|by apply Hok1].
    intros Hcyc. by rewrite (Hstuck Hcyc) in Hloop.
Qed.

End Cycle.

(** ** Reachability *)

Lemma thaw_depth_defined k h fr l x :
  thaw_depth k h fr (VObject l) = true → rtc (thaw_edge h fr) l x → is_Some (h !! x).
Proof.
  revert l. induction k as [|k IH]; intros l Hd Hpath; [done|].
  apply thaw_depth_object in Hd as (k' & o & [= <-] & Hl & Hdeep).
  apply rtc_inv in Hpath as [<-|(y & (o' & Hl' & Hin & Hy) & Hpath)]; [by eexists|].
  assert (o' = o) as -> by congruence. by apply (IH y); [apply Hdeep|].
Qed.

Lemma rtc_thaw_reach h l x :
  is_Some (h !! x) → rtc (thaw_edge h ∅) l x → reach named_fields h (VObject l) x.
Proof.
  intros [ox Hx]. induction 1 as [x|l y x (o & Hl & Hin & _) _ IH].
  - by eapply reach_here.
  - eapply reach_step; [done..|]. by apply IH.
Qed.

Lemma reach_rtc_thaw h v x :
  reach named_fields h v x → ∀ l, v = VObject l → rtc (thaw_edge h ∅) l x.
Proof.
  induction 1 as [l o Hl|l o v l' Hl Hv Hreach IH]; intros l0 [= <-]; [done|].
  assert (∃ y, v = VObject y) as [y ->] by (inversion Hreach; eauto).
  eapply rtc_l; [|by apply IH]. exists o. split; [done|]. split; [done|].
  apply not_elem_of_empty.
Qed.

Lemma distinct_keys_own_props h :
  distinct_keys h = true → ∀ l o, h !! l = Some o → NoDup (p_key <$> own_props o).
Proof. intros Hd l o. by apply own_props_NoDup. Qed.

Lemma string_props_primitive s p y : p ∈ string_props s → p_val p ≠ VObject y.
Proof.
  unfold string_props. intros [Hp|Hp]%elem_of_app;
    [|by apply list_elem_of_singleton in Hp as ->].
  apply list_elem_of_lookup in Hp as [i Hp]. rewrite list_lookup_imap in Hp.
  destruct (_ !! i); [|done]. by injection Hp as <-.
Qed.

(** ** The statements *)

(** X13.  Started with nothing frozen on a structure without cycles,
    [deepFreeze] returns its argument, and the objects it has frozen are
    exactly those that can be reached from the argument through own
    string-keyed properties, enumerable or not, and through the elements
    of arrays.  What is held under a symbol, and the prototype, are not
    reached that way and stay as they were. *)
Theorem deepFreeze_freezes_all_reachable (k : nat) (h : list object) (l : nat) :
  distinct_keys h = true → thaw_depth k h ∅ (VObject l) = true →
  ∃ fr', deepFreeze k h (VObject l) ∅ = Some (Normal (VObject l), fr') ∧
         ∀ x, x ∈ fr' ↔ reach named_fields h (VObject l) x.
Proof.
  intros Hdk Hd. pose proof (distinct_keys_own_props _ Hdk) as Hnd.
  destruct (deepFreeze_terminates _ _ _ _ Hd) as [fr' Hrun].
  exists fr'. split; [done|]. intros x. split.
  - destruct (deepFreeze_inv h ∅ Hnd _ _ _ _ _ (freeze_inv_init h ∅) Hrun)
      as (_ & _ & _ & _ & _ & Hsound).
    intros [Hx|Hpath]%Hsound; [by apply not_elem_of_empty in Hx|].
    apply rtc_thaw_reach; [|done]. by eapply thaw_depth_defined.
  - intros Hreach. eapply (deepFreeze_complete h ∅ Hnd); [done|].
    by eapply reach_rtc_thaw.
Qed.

Lemma deepFreeze_freezes_all_reachable_witness :
  distinct_keys shared = true ∧ thaw_depth 3 shared ∅ (VObject 0) = true ∧
  ∃ fr', deepFreeze 3 shared (VObject 0) ∅ = Some (Normal (VObject 0), fr') ∧
         ∀ x, x ∈ fr' ↔ reach named_fields shared (VObject 0) x.
Proof.
  assert (distinct_keys shared = true) as Hnd by reflexivity.
  assert (thaw_depth 3 shared ∅ (VObject 0) = true) as Hd by (vm_compute; reflexivity).
  split; [exact Hnd|]. split; [exact Hd|].
  exact (deepFreeze_freezes_all_reachable 3 shared 0 Hnd Hd).
Defined.

(** X14.  [deepFreeze] does not look below an object that is frozen already.
    Whatever was frozen before the call, on a structure whose part that
    is not frozen has no cycle the call returns its argument, and the
    frozen objects are then: those frozen before, the argument, and every
    object that the argument leads to along objects that were not frozen.
    An object that can only be reached through one that was frozen
    before stays as it was. *)
Theorem deepFreeze_stops_below_frozen (k : nat) (h : list object) (l : nat)
    (fr : gset nat) :
  distinct_keys h = true → thaw_depth k h fr (VObject l) = true →
  ∃ fr', deepFreeze k h (VObject l) fr = Some (Normal (VObject l), fr') ∧
         ∀ x, x ∈ fr' ↔ x ∈ fr ∨ rtc (thaw_edge h fr) l x.
Proof.
  intros Hdk Hd. pose proof (distinct_keys_own_props _ Hdk) as Hnd.
  destruct (deepFreeze_terminates _ _ _ _ Hd) as [fr' Hrun].
  exists fr'. split; [done|]. intros x.
  destruct (deepFreeze_inv h fr Hnd _ _ _ _ _ (freeze_inv_init h fr) Hrun)
    as (_ & _ & Hsub & _ & _ & Hsound).
  split; [by apply Hsound|]. intros [Hx|Hpath]; [by apply Hsub|].
  by eapply (deepFreeze_complete h fr Hnd).
Qed.

Lemma deepFreeze_stops_below_frozen_witness :
  distinct_keys under_frozen = true ∧
  thaw_depth 1 under_frozen {[1]} (VObject 0) = true ∧
  ∃ fr', deepFreeze 1 under_frozen (VObject 0) {[1]} = Some (Normal (VObject 0), fr') ∧
         ∀ x, x ∈ fr' ↔ x ∈ ({[1]} : gset nat) ∨ rtc (thaw_edge under_frozen {[1]}) 0 x.
Proof.
  assert (distinct_keys under_frozen = true) as Hnd by reflexivity.
  assert (thaw_depth 1 under_frozen {[1]} (VObject 0) = true) as Hd
    by (vm_compute; reflexivity).
  split; [exact Hnd|]. split; [exact Hd|].
  exact (deepFreeze_stops_below_frozen 1 under_frozen 0 {[1]} Hnd Hd).
Defined.

(** X15.  Unlike [deepClone], [deepFreeze] keeps no record of the objects it
    is working on.  When its argument leads, along objects that are not
    frozen, to a cycle of objects that are not frozen, the recursion never
    ends: on a heap without dangling references, where a run can only
    stop short for want of fuel, no amount of fuel yields a result.  (An
    engine gives up with a stack overflow.) *)
Theorem deepFreeze_never_returns_on_cycle (h : list object) (l : nat) (fr : gset nat) :
  wf_heap h = true → thaw_cycle h fr l →
  ∀ n, deepFreeze n h (VObject l) fr = None.
Proof.
  intros Hwf Hcyc n.
  assert (distinct_keys h = true) as Hdk
    by (unfold wf_heap in Hwf; by apply andb_true_iff in Hwf as [_ ?]).
  pose proof (distinct_keys_own_props _ Hdk) as Hnd.
  by apply (proj1 (deepFreeze_cycle h fr Hnd n l fr ltac:(done) ltac:(done))).
Qed.

Lemma deepFreeze_never_returns_on_cycle_witness :
  wf_heap self_ref = true ∧ thaw_cycle self_ref ∅ 0 ∧
  ∀ n, deepFreeze n self_ref (VObject 0) ∅ = None.
Proof.
  assert (wf_heap self_ref = true) as Hnd by reflexivity.
  assert (thaw_cycle self_ref ∅ 0) as Hcyc.
  { exists 0. split; [apply rtc_refl|]. apply tc_once.
    exists (JsObject ObjectPrototype [Prop_ (KString "self") (VObject 0) true]).
    split; [reflexivity|]. split; [|apply not_elem_of_empty].
    apply list_elem_of_singleton. reflexivity. }
  split; [exact Hnd|]. split; [exact Hcyc|].
  exact (deepFreeze_never_returns_on_cycle self_ref 0 ∅ Hnd Hcyc).
Defined.

(** X16.  Freezing again changes nothing: once a call on an object has
    returned, another call on it returns the same object and leaves the
    set of frozen objects as it is. *)
Theorem deepFreeze_twice_changes_nothing (n : nat) (h : list object) (l : nat)
    (fr fr' : gset nat) (r : completion val) :
  distinct_keys h = true → deepFreeze n h (VObject l) fr = Some (r, fr') →
  r = Normal (VObject l) ∧
  ∀ m, deepFreeze (S m) h (VObject l) fr' = Some (Normal (VObject l), fr').
Proof.
  intros Hdk Hrun. pose proof (distinct_keys_own_props _ Hdk) as Hnd.
  destruct (deepFreeze_inv h fr Hnd _ _ _ _ _ (freeze_inv_init h fr) Hrun)
    as (-> & _ & Hsub & Hl & Hheld & _).
  split; [done|]. intros m.
  destruct (h !! l) as [o|] eqn:Ho.
  - rewrite (deepFreeze_stops_at_frozen m h l o fr' Ho).
    + do 2 f_equal. apply subseteq_union_1_L. by apply singleton_subseteq_l.
    + intros y Hy. destruct (decide (y ∈ fr)) as [Hin|Hn]; [by apply Hsub|].
      apply Hheld. by exists o.
  - destruct n as [|n]; [done|]. simpl in Hrun. by rewrite Ho in Hrun.
Qed.

Lemma deepFreeze_twice_changes_nothing_witness :
  distinct_keys shared = true ∧
  deepFreeze 3 shared (VObject 0) ∅ = Some (Normal (VObject 0), {[0; 1; 2]}) ∧
  Normal (VObject 0) = Normal (VObject 0) ∧
  ∀ m, deepFreeze (S m) shared (VObject 0) {[0; 1; 2]}
       = Some (Normal (VObject 0), {[0; 1; 2]}).
Proof.
  assert (distinct_keys shared = true) as Hnd by reflexivity.
  assert (deepFreeze 3 shared (VObject 0) ∅ = Some (Normal (VObject 0), {[0; 1; 2]}))
    as Hrun by (vm_compute; reflexivity).
  split; [exact Hnd|]. split; [exact Hrun|].
  exact (deepFreeze_twice_changes_nothing 3 shared 0 ∅ {[0; 1; 2]}
           (Normal (VObject 0)) Hnd Hrun).
Defined.

(** X17.  On undefined and on null [deepFreeze] throws a TypeError, that of
    [Object.getOwnPropertyNames], and freezes nothing.  Every other
    primitive, a string with its index properties included, is returned
    as it is, and nothing is frozen. *)
Theorem deepFreeze_primitives (n : nat) (h : list object) (fr : gset nat) :
  deepFreeze (S n) h VUndefined fr =
    Some (Throw (TypeError "Cannot convert undefined or null to object"), fr) ∧
  deepFreeze (S n) h VNull fr =
    Some (Throw (TypeError "Cannot convert undefined or null to object"), fr) ∧
  ∀ v, typeof v ≠ "object" → v ≠ VUndefined →
       deepFreeze (S n) h v fr = Some (Normal v, fr).
Proof.
  split; [done|]. split; [done|]. intros v Hty Hv.
  destruct v as [| | | | |s| |]; try done.
  simpl. unfold bindF.
  rewrite for_each_skip; [done|].
  intros name (p & Hp & Hin)%string_keys_own_prop.
  eapply (freeze_body_skip n h); [done|]. intros y Hy.
  by destruct (string_props_primitive _ _ y Hin).
Qed.

(** * unsafeMerge, safeMerge *)

(** ** Loops *)

Lemma bind_ext {A B} (m : M A) (k k' : A → M B) st :
  (∀ a s', m st = Some (Normal a, s') → k a s' = k' a s') →
  bind m k st = bind m k' st.
Proof. intros Hk. unfold bind. destruct (m st) as [[[a|e] s']|]; auto. Qed.

(** Whatever every run of the body preserves, [for]-[in] preserves. *)
Lemma for_in_loop_inv (I : state → Prop) n body l keys st c st' :
  (∀ k s c s', I s → body k s = Some (c, s') → I s') →
  I st → for_in_loop n body l keys st = Some (c, st') → I st'.
Proof.
  intros Hbody. revert st. induction keys as [|key keys IH]; intros st HI; simpl.
  { by intros [= <- <-]. }
  destruct (enumerable_on_chain _ _ _ _) as [[]|]; [|by apply IH|done].
  rewrite bind_Some. intros [(e & s' & Hb & [= -> ->])|(a & s' & Hb & Hrest)]; eauto.
Qed.

Lemma for_in_inv (I : state → Prop) n body source st c st' :
  (∀ k s c s', I s → body k s = Some (c, s') → I s') →
  I st → for_in n body source st = Some (c, st') → I st'.
Proof.
  intros Hbody HI. unfold for_in.
  assert (∀ keys, for_keys body keys st = Some (c, st') → I st') as Hkeys.
  { intros keys. apply for_keys_inv; [|done]. intros k s0 c0 s0' _. apply Hbody. }
  destruct source; try (by intros [= <- <-]);
    try (destruct (props_of _ _); [by apply Hkeys|done]).
  destruct (for_in_keys _ _ _ _); [|done]. by apply for_in_loop_inv.
Qed.

(** A loop every key of which passes the check at its turn. *)
Lemma for_in_loop_all (I : state → Prop) n body l keys st :
  (∀ s key, I s → key ∈ keys →
     enumerable_on_chain n (st_heap s) (ProtoObj l) key = Some true) →
  (∀ k s c s', I s → body k s = Some (c, s') → I s') →
  I st → for_in_loop n body l keys st = for_keys body keys st.
Proof.
  intros Hen Hbody. revert st. induction keys as [|key keys IH]; intros st HI; [done|].
  cbn [for_in_loop for_keys]. rewrite (Hen st key HI) by by left.
  apply bind_ext. intros a s' Hb. apply IH; [|by eapply Hbody].
  intros s0 key' Hs0 Hin. apply Hen; [done|by right].
Qed.

Lemma string_keys_NoDup (props : list prop) :
  NoDup (p_key <$> props) → NoDup (string_keys props).
Proof.
  induction props as [|p props IH]; [constructor|].
  rewrite fmap_cons, NoDup_cons. intros [Hp Hnd]. unfold string_keys. cbn [omap list_omap].
  destruct p as [[s0|id] v e]; simpl; [|by apply IH].
  apply NoDup_cons. split; [|by apply IH].
  intros (q & Hq & Hk)%string_keys_elem. apply Hp.
  apply list_elem_of_fmap. exists q. by split.
Qed.

(** The keys the loop runs its body on, out of the names [names], when
    the object has the properties [props]. *)
Lemma enumerable_names (props0 props : list prop) :
  NoDup (p_key <$> props0) → (∀ p, p ∈ props → p ∈ props0) →
  omap (λ r, match own_prop (KString r) props0 with
             | Some p => if p_enum p then Some r else None
             | None => None
             end) (string_keys props) = object_keys props.
Proof.
  intros Hnd. induction props as [|p props IH]; intros Hsub; [done|].
  unfold string_keys, object_keys. cbn [omap list_omap].
  assert (∀ q, q ∈ props → q ∈ props0) as Hsub' by (intros ??; apply Hsub; by right).
  destruct p as [[s0|id] v e] eqn:Hp; simpl; [|by apply IH].
  rewrite (own_prop_unique (KString s0) props0 _ Hnd (Hsub _ ltac:(left)) eq_refl).
  simpl. destruct e; [f_equal|]; by apply IH.
Qed.

Lemma handed_out_fresh (props : list prop) names visited :
  NoDup names → (∀ r, r ∈ names → r ∉ visited) →
  handed_out props names visited =
  omap (λ r, match own_prop (KString r) props with
             | Some p => if p_enum p then Some r else None
             | None => None
             end) names.
Proof.
  revert visited. induction names as [|r rest IH]; intros visited Hnd Hvis; [done|].
  apply NoDup_cons in Hnd as [Hr Hnd]. cbn [handed_out omap list_omap].
  rewrite bool_decide_eq_false_2 by (apply Hvis; by left).
  assert (∀ r', r' ∈ rest → r' ∉ r :: visited) as Hvis'.
  { intros r' Hr' [->|Hin]%elem_of_cons; [done|]. by apply (Hvis r'); [right|]. }
  assert (∀ r', r' ∈ rest → r' ∉ visited) as Hvis0.
  { intros r' Hr'. apply Hvis. by right. }
  destruct (own_prop (KString r) props) as [p|]; [|by apply IH].
  destruct (p_enum p); [f_equal|]; by apply IH.
Qed.

(** A source whose prototype is not an object of the heap, and which the
    body leaves alone: the loop runs the body on the own enumerable string
    keys, in order. *)
Lemma for_in_plain (I : state → Prop) n body ls os st :
  (∀ s, I s → st_heap s !! ls = Some os) →
  (∀ k s c s', I s → body k s = Some (c, s') → I s') →
  (∀ l', proto_of os ≠ ProtoObj l') →
  NoDup (p_key <$> own_props os) → length (own_props os) < n →
  I st →
  for_in n body (VObject ls) st = for_keys body (object_keys (own_props os)) st.
Proof.
  intros Hos Hbody Hproto Hnd Hn HI.
  destruct n as [|n]; [lia|].
  assert (∀ m visited, for_in_keys m (st_heap st) (proto_of os) visited = Some []) as Hup.
  { intros m visited. destruct (proto_of os) as [| | |l'] eqn:Hp; try by destruct m.
    by destruct (Hproto l'). }
  unfold for_in. cbn [for_in_keys]. rewrite (Hos _ HI), Hup, app_nil_r.
  rewrite handed_out_fresh;
    [|by apply string_keys_NoDup|by intros ?? ?%elem_of_nil].
  rewrite (enumerable_names (own_props os) (own_props os)) by done.
  apply (for_in_loop_all I); [|done..].
  intros s key Hs (p & Hin & Hk & He)%object_keys_elem.
  cbn [enumerable_on_chain]. rewrite (Hos _ Hs).
  by rewrite (own_prop_unique _ _ _ Hnd Hin Hk), He.
Qed.

(** A loop over keys every step of which returns: [I] holds of the keys
    dealt with so far and of the state. *)
Lemma for_keys_run (I : list string → state → Prop) body keys pre st :
  (∀ i key s, keys !! i = Some key → I (pre ++ take i keys) s →
     ∃ s', body key s = Some (Normal tt, s') ∧ I (pre ++ take (S i) keys) s') →
  I pre st →
  ∃ st', for_keys body keys st = Some (Normal tt, st') ∧ I (pre ++ keys) st'.
Proof.
  revert pre st. induction keys as [|k keys IH]; intros pre st Hstep HI; simpl.
  { exists st. by rewrite app_nil_r. }
  assert (I (pre ++ take 0 (k :: keys)) st) as HI0 by (by rewrite app_nil_r).
  destruct (Hstep 0 k st eq_refl HI0) as (s' & Hb & HI1). simpl in HI1.
  rewrite take_0 in HI1.
  destruct (IH (pre ++ [k]) s') as (st' & Hrest & HI'); [|done|].
  { intros i key s0 Hi HIi. rewrite <-app_assoc in HIi.
    destruct (Hstep (S i) key s0 Hi HIi) as (s0' & Hbi & HIi').
    exists s0'. split; [done|]. by rewrite <-app_assoc. }
  exists st'. unfold bind. rewrite Hb. split; [done|]. by rewrite <-app_assoc in HI'.
Qed.

(** ** for-in along a prototype chain *)







(** ** Reading the source *)

Lemma get_value_state n v key st c st' :
  get_value n v key st = Some (c, st') → st' = st.
Proof.
  unfold get_value, throw. destruct v; try (by intros [= _ <-]);
    (destruct (lookup _ _ _ _) as [[]|]; try done); by intros [= _ <-].
Qed.

Lemma call_hasOwnProperty_state n v key st c st' :
  call_hasOwnProperty n v key st = Some (c, st') → st' = st.
Proof.
  unfold call_hasOwnProperty, throw.
  destruct (lookup _ _ _ _) as [[]|]; try done; try (by intros [= _ <-]).
  destruct (props_of _ _); [|done]. by intros [= _ <-].
Qed.

Lemma get_value_own n ls os key p st :
  st_heap st !! ls = Some os → own_prop (KString key) (own_props os) = Some p →
  get_value (S n) (VObject ls) key st = Some (Normal (p_val p), st).
Proof. intros Hl Hp. unfold get_value. simpl. by rewrite Hl, Hp. Qed.

Lemma lookup_hasOwnProperty n h ls os :
  h !! ls = Some os → (∀ l', proto_of os ≠ ProtoObj l') →
  lookup (S n) h (VObject ls) "hasOwnProperty" =
  Some (match own_prop (KString "hasOwnProperty") (own_props os) with
        | Some p => Found (p_val p)
        | None => match proto_of os with ProtoNull => Missing | _ => Intrinsic end
        end).
Proof.
  intros Hl Hproto. simpl. rewrite Hl. destruct (own_prop _ _); [done|].
  destruct (proto_of os) as [| | |l0]; [by destruct n..|]. by destruct (Hproto l0).
Qed.



(** ** safeMerge *)

Lemma safe_body_target n lt source key pr props (h : list object) seen st c st' :
  lt < length h →
  st = State (<[lt := JsObject pr props]> h) seen →
  safe_body n (VObject lt) source key st = Some (c, st') →
  ∃ props', st' = State (<[lt := JsObject pr props']> h) seen ∧
            own_prop (KString "__proto__") props' = own_prop (KString "__proto__") props ∧
            own_prop (KString "constructor") props' = own_prop (KString "constructor") props.
Proof.
  intros Hlt ->. unfold safe_body. rewrite bind_Some.
  intros [(e & s1 & Hc & [= -> ->])|(own & s1 & Hc & Hrest)];
    pose proof (call_hasOwnProperty_state _ _ _ _ _ _ Hc) as ->; [by exists props|].
  destruct (own && _ && _) eqn:Hcond; [|injection Hrest as <- <-; by exists props].
  apply andb_true_iff in Hcond as [[_ Hk1%negb_true_iff]%andb_true_iff Hk2%negb_true_iff].
  apply bool_decide_eq_false in Hk1, Hk2.
  rewrite bind_Some in Hrest.
  destruct Hrest as [(e & s1 & Hg & [= -> ->])|(v & s1 & Hg & Hput)];
    pose proof (get_value_state _ _ _ _ _ _ Hg) as ->; [by exists props|].
  assert (st_heap (State (<[lt := JsObject pr props]> h) seen) !! lt
          = Some (JsObject pr props)) as Hl by by apply list_lookup_insert_eq.
  destruct (put_named n lt key v _ pr props Hk1 Hl) as (props' & Hp & _ & Hother & _).
  rewrite Hp in Hput. injection Hput as <- <-.
  exists props'. unfold set_heap. simpl. rewrite list_insert_insert_eq.
  split; [done|]. split; apply Hother; congruence.
Qed.

(** X18.  What [safeMerge] never does.  Whatever the source, in no run that
    completes, with a result or with an exception, does the target get
    another prototype, nor is an own property [__proto__] or
    [constructor] of the target created or changed.  The run allocates
    nothing and changes no object but the target; when it returns, it
    returns the target. *)
Theorem safeMerge_never_touches_prototype (n : nat) (lt : nat) (source : val)
    (h : list object) (s : gmap nat val) (pr : proto) (props : list prop)
    (c : completion val) (st' : state) :
  h !! lt = Some (JsObject pr props) →
  safeMerge n (VObject lt) source (State h s) = Some (c, st') →
  (∀ r, c = Normal r → r = VObject lt) ∧
  ∃ props', st' = State (<[lt := JsObject pr props']> h) s ∧
            own_prop (KString "__proto__") props' = own_prop (KString "__proto__") props ∧
            own_prop (KString "constructor") props' = own_prop (KString "constructor") props.
Proof.
  intros Hl. unfold safeMerge. rewrite bind_Some.
  set (I := λ st : state, ∃ props',
              st = State (<[lt := JsObject pr props']> h) s ∧
              own_prop (KString "__proto__") props' = own_prop (KString "__proto__") props ∧
              own_prop (KString "constructor") props' = own_prop (KString "constructor") props).
  assert (I (State h s)) as HI0.
  { exists props. by rewrite list_insert_id. }
  assert (∀ k st c st', I st → safe_body n (VObject lt) source k st = Some (c, st') → I st')
    as Hbody.
  { intros k st0 c0 st0' (props0 & -> & Hp0 & Hc0) Hb.
    destruct (safe_body_target _ _ _ _ _ _ _ _ _ _ _ (lookup_lt_Some _ _ _ Hl) eq_refl Hb)
      as (props1 & -> & Hp1 & Hc1).
    exists props1. split; [done|]. split; congruence. }
  intros [(e & s1 & Hloop & [= -> ->])|([] & s1 & Hloop & [= <- <-])].
  - split; [done|]. by apply (for_in_inv I _ _ _ _ _ _ Hbody HI0 Hloop).
  - split; [by intros r [= <-]|]. by apply (for_in_inv I _ _ _ _ _ _ Hbody HI0 Hloop).
Qed.

Lemma safeMerge_never_touches_prototype_witness :
  attack !! 0 = Some (JsObject ObjectPrototype []) ∧
  safeMerge 3 (VObject 0) (VObject 1) (State attack ∅) =
    Some (Normal (VObject 0), State attack ∅) ∧
  (∀ r, Normal (VObject 0) = Normal r → r = VObject 0) ∧
  ∃ props', State attack ∅ = State (<[0 := JsObject ObjectPrototype props']> attack) ∅ ∧
            own_prop (KString "__proto__") props' = own_prop (KString "__proto__") [] ∧
            own_prop (KString "constructor") props' = own_prop (KString "constructor") [].
Proof.
  assert (safeMerge 3 (VObject 0) (VObject 1) (State attack ∅) =
          Some (Normal (VObject 0), State attack ∅)) as Hrun by reflexivity.
  split; [reflexivity|]. split; [exact Hrun|].
  exact (safeMerge_never_touches_prototype 3 0 (VObject 1) attack ∅ ObjectPrototype []
           (Normal (VObject 0)) (State attack ∅) eq_refl Hrun).
Defined.

(** X19.  [safeMerge] relies on the source for the method it filters with.  On
    a source that has an enumerable key but no [hasOwnProperty] to call,
    because its prototype is null or because it has a property of that
    name of its own (as [JSON.parse] makes them), the first turn of the
    loop throws a TypeError, whatever the target, and nothing has been
    merged. *)
Theorem safeMerge_throws_without_hasOwnProperty (n : nat) (target : val) (ls : nat)
    (os : object) (h : list object) (s : gmap nat val) :
  h !! ls = Some os → (∀ l', proto_of os ≠ ProtoObj l') →
  NoDup (p_key <$> own_props os) → length (own_props os) < n →
  object_keys (own_props os) ≠ [] →
  proto_of os = ProtoNull ∨ is_Some (own_prop (KString "hasOwnProperty") (own_props os)) →
  safeMerge n target (VObject ls) (State h s) =
    Some (Throw (TypeError "source.hasOwnProperty is not a function"), State h s).
Proof.
  intros Hl Hproto Hnd Hn Hkeys Hno.
  destruct n as [|n]; [lia|].
  assert (∀ key, safe_body (S n) target (VObject ls) key (State h s) =
                 Some (Throw (TypeError "source.hasOwnProperty is not a function"),
                       State h s)) as Hbody.
  { intros key. unfold safe_body, bind, call_hasOwnProperty.
    rewrite (lookup_hasOwnProperty _ _ _ _ Hl Hproto).
    destruct (own_prop (KString "hasOwnProperty") (own_props os)) as [p|] eqn:Hp; [done|].
    destruct Hno as [->|[? [=]]]. done. }
  unfold safeMerge. fold (safe_body (S n) target (VObject ls)).
  unfold bind at 1.
  rewrite (for_in_plain (λ st, st = State h s) _ _ ls os); [|by intros ? ->| |done..].
  - destruct (object_keys (own_props os)) as [|key keys]; [done|].
    simpl. unfold bind. by rewrite Hbody.
  - intros k st c st' -> Hb. rewrite Hbody in Hb. by injection Hb as _ <-.
Qed.

Lemma safeMerge_throws_without_hasOwnProperty_witness :
  let os := JsObject ObjectPrototype [Prop_ (KString "hasOwnProperty") (VNumber 1) true] in
  [os] !! 0 = Some os ∧ (∀ l', proto_of os ≠ ProtoObj l') ∧
  NoDup (p_key <$> own_props os) ∧ length (own_props os) < 2 ∧
  object_keys (own_props os) ≠ [] ∧
  (proto_of os = ProtoNull ∨ is_Some (own_prop (KString "hasOwnProperty") (own_props os))) ∧
  safeMerge 2 VUndefined (VObject 0) (State [os] ∅) =
    Some (Throw (TypeError "source.hasOwnProperty is not a function"), State [os] ∅).
Proof.
  intros os.
  assert (∀ l', proto_of os ≠ ProtoObj l') as Hproto by (intros l'; discriminate).
  assert (NoDup (p_key <$> own_props os)) as Hnd by compute_done.
  assert (length (own_props os) < 2) as Hn by (simpl; lia).
  assert (object_keys (own_props os) ≠ []) as Hkeys by discriminate.
  assert (proto_of os = ProtoNull ∨
          is_Some (own_prop (KString "hasOwnProperty") (own_props os))) as Hno
    by (right; eexists; reflexivity).
  split; [reflexivity|]. split; [exact Hproto|]. split; [exact Hnd|].
  split; [exact Hn|]. split; [exact Hkeys|]. split; [exact Hno|].
  exact (safeMerge_throws_without_hasOwnProperty 2 VUndefined 0 os [os] ∅
           eq_refl Hproto Hnd Hn Hkeys Hno).
Defined.



(** ** unsafeMerge *)

Lemma put_target n lt key w pr props (h : list object) seen c st' :
  lt < length h →
  put n (VObject lt) key w (State (<[lt := JsObject pr props]> h) seen) = Some (c, st') →
  ∃ pr' props', st' = State (<[lt := JsObject pr' props']> h) seen.
Proof.
  intros Hlt. unfold put. simpl. rewrite list_lookup_insert_eq by done.
  assert (∀ o, set_heap lt o (State (<[lt := JsObject pr props]> h) seen)
               = State (<[lt := o]> h) seen) as Hset.
  { intros o. unfold set_heap. simpl. by rewrite list_insert_insert_eq. }
  rewrite !Hset.
  destruct (own_prop _ _); [intros [= _ <-]; by eexists _, _|].
  assert (∀ r, Some (Normal tt, State (<[lt := JsObject pr
                 (add_prop (Prop_ (KString key) w true) props)]> h) seen) = r →
               r = Some (c, st') →
               ∃ pr' props', st' = State (<[lt := JsObject pr' props']> h) seen) as Hcreate.
  { intros r <- [= _ <-]. by eexists _, _. }
  case_bool_decide; [|by eapply Hcreate].
  destruct (reaches_proto_accessor _ _ _) as [[]|]; [|by eapply Hcreate|done].
  intros Hs. assert (∀ p, set_prototype_of n lt p
      (State (<[lt := JsObject pr props]> h) seen) = Some (c, st') →
      ∃ pr' props', st' = State (<[lt := JsObject pr' props']> h) seen) as Hsp.
  { intros p (cur & props0 & _ & [(_ & -> & _)|[(_ & -> & _)|(_ & -> & _)]])%set_prototype_of_Some;
      rewrite ?Hset; by eexists _, _. }
  destruct w; simpl in Hs; try (injection Hs as _ <-; by eexists _, _); by eapply Hsp.
Qed.

Lemma on_proto_chain_insert n (h : list object) lt o p :
  on_proto_chain n h lt p = Some false →
  on_proto_chain n (<[lt := o]> h) lt p = Some false.
Proof.
  revert p. induction n as [|n IH]; intros [| | |l]; try done; simpl.
  case_bool_decide as Hl; [done|].
  rewrite list_lookup_insert_ne by done.
  destruct (h !! l); [|done]. apply IH.
Qed.

(** X21.  What the guide calls the dangerous pattern.  The target is an
    ordinary object, not frozen, that inherits from %Object.prototype%
    and has no own property [__proto__].  The source is another ordinary
    object; its prototype is null or an intrinsic one, its keys are
    distinct, and its own property [__proto__] is enumerable and holds an
    object [P] (as [JSON.parse] makes it).  The prototype chain of [P]
    ends, within the fuel, without passing through the target: [P] is
    not the target and does not inherit from it.  Then [unsafeMerge],
    given fuel beyond the number of properties of the source, returns the
    target and has not copied that property: the assignment went to the
    accessor, and [P] has become the prototype of the target.  The target
    has no own property [__proto__] afterwards, and a lookup on it of a
    key that it does not own and [P] owns finds what [P] holds.  No
    object but the target has changed. *)
Theorem unsafeMerge_replaces_prototype (n : nat) (lt ls P : nat) (h : list object)
    (s : gmap nat val) (propst propss : list prop) (prs : proto) (p : prop) :
  h !! lt = Some (JsObject ObjectPrototype propst) →
  own_prop (KString "__proto__") propst = None →
  h !! ls = Some (JsObject prs propss) → lt ≠ ls → (∀ l', prs ≠ ProtoObj l') →
  NoDup (p_key <$> propss) → length propss < n →
  own_prop (KString "__proto__") propss = Some p → p_enum p = true → p_val p = VObject P →
  on_proto_chain n h lt (ProtoObj P) = Some false →
  ∃ props',
    unsafeMerge n (VObject lt) (VObject ls) (State h s) =
      Some (Normal (VObject lt), State (<[lt := JsObject (ProtoObj P) props']> h) s) ∧
    own_prop (KString "__proto__") props' = None ∧
    ∀ key w m, own_prop (KString key) props' = None →
               own_value h (VObject P) (KString key) = Some w →
               lookup (S (S m)) (<[lt := JsObject (ProtoObj P) props']> h) (VObject lt) key
               = Some (Found w).
Proof.
  intros Hlt Hnone Hls Hne Hproto Hnd Hn Hp He Hv Hchain.
  destruct n as [|n]; [lia|].
  pose proof (lookup_lt_Some _ _ _ Hlt) as Hlen.
  set (os := JsObject prs propss).
  set (I := λ st : state, ∃ pr' props', st = State (<[lt := JsObject pr' props']> h) s).
  assert (I (State h s)) as HI0 by (exists ObjectPrototype, propst; by rewrite list_insert_id).
  assert (∀ st, I st → st_heap st !! ls = Some os) as Hsrc.
  { intros st (pr' & props' & ->). simpl. by rewrite list_lookup_insert_ne. }
  assert (∀ k st c st', I st → unsafe_body (S n) (VObject lt) (VObject ls) k st = Some (c, st') →
                        I st') as Hbody.
  { intros k st c st' (pr0 & props0 & ->). unfold unsafe_body. rewrite bind_Some.
    intros [(e & s1 & Hg & [= -> ->])|(v & s1 & Hg & Hput)];
      pose proof (get_value_state _ _ _ _ _ _ Hg) as ->; [by exists pr0, props0|].
    by eapply put_target. }
  set (keys := object_keys propss).
  assert (NoDup keys) as Hndk by by apply object_keys_NoDup.
  set (J := λ (pre : list string) (st : state), ∃ props',
              st = State (<[lt := JsObject (if bool_decide ("__proto__" ∈ pre)
                                            then ProtoObj P else ObjectPrototype)
                                           props']> h) s ∧
              own_prop (KString "__proto__") props' = None).
  assert (J [] (State h s)) as HJ0.
  { exists propst. rewrite bool_decide_eq_false_2 by by intros ?%elem_of_nil.
    by rewrite list_insert_id. }
  assert (∀ i key st, keys !! i = Some key → J ([] ++ take i keys) st →
            ∃ st', unsafe_body (S n) (VObject lt) (VObject ls) key st = Some (Normal tt, st') ∧
                   J ([] ++ take (S i) keys) st') as Hstep.
  { intros i key st Hi (props0 & -> & Hnone0).
    rewrite (take_S_r _ _ _ Hi). simpl.
    assert (key ∈ keys) as Hkey by by eapply list_elem_of_lookup_2.
    pose proof (NoDup_not_in_take _ _ _ Hndk Hi) as Hfresh.
    destruct (object_keys_own_prop _ _ Hkey) as [q Hq].
    set (pr0 := if bool_decide ("__proto__" ∈ take i keys) then ProtoObj P else ObjectPrototype).
    assert (st_heap (State (<[lt := JsObject pr0 props0]> h) s) !! ls = Some os) as Hs
      by (simpl; by rewrite list_lookup_insert_ne).
    assert (st_heap (State (<[lt := JsObject pr0 props0]> h) s) !! lt
            = Some (JsObject pr0 props0)) as Hl by by apply list_lookup_insert_eq.
    unfold unsafe_body, bind at 1. rewrite (get_value_own _ _ _ _ _ _ Hs Hq).
    destruct (decide (key = "__proto__")) as [->|Hk].
    - assert (q = p) as -> by (simpl in Hq; congruence). rewrite Hv.
      unfold pr0 in *. rewrite bool_decide_eq_false_2 in * by done.
      unfold put. rewrite Hl, Hnone0. rewrite bool_decide_eq_true_2 by done.
      cbn [reaches_proto_accessor proto_setter].
      unfold set_prototype_of. rewrite Hl.
      rewrite bool_decide_eq_false_2 by done.
      cbn [st_heap]. rewrite (on_proto_chain_insert _ _ _ _ _ Hchain).
      eexists. split; [done|]. exists props0.
      rewrite bool_decide_eq_true_2
        by (apply elem_of_app; right; by apply list_elem_of_singleton).
      unfold set_heap. simpl. by rewrite list_insert_insert_eq.
    - destruct (put_named (S n) lt key (p_val q) _ pr0 props0 Hk Hl)
        as (props1 & Hput & _ & Hother & _).
      rewrite Hput. eexists. split; [done|]. exists props1. split.
      + unfold set_heap. simpl. rewrite list_insert_insert_eq.
        assert (bool_decide ("__proto__" ∈ take i keys ++ [key])
                = bool_decide ("__proto__" ∈ take i keys)) as ->; [|done].
        apply bool_decide_ext. rewrite elem_of_app, list_elem_of_singleton.
        split; [|by left]. intros [?|?]; [done|congruence].
      + rewrite Hother by congruence. done. }
  destruct (for_keys_run J _ keys [] _ Hstep HJ0) as (st' & Hloop & props' & Hst & Hnone').
  simpl in Hst. rewrite bool_decide_eq_true_2 in Hst.
  2:{ apply object_keys_elem. exists p. split; [by apply own_prop_Some in Hp as [? _]|].
      split; [by eapply own_prop_key|done]. }
  subst st'.
  exists props'. split; [|split; [done|]].
  - unfold unsafeMerge. fold (unsafe_body (S n) (VObject lt) (VObject ls)).
    unfold bind at 1. rewrite (for_in_plain I _ _ ls os); [|done..].
    simpl. fold keys. by rewrite Hloop.
  - intros key w m Hown Hw. simpl. rewrite list_lookup_insert_eq by done.
    simpl. rewrite Hown.
    assert (P ≠ lt) as HP.
    { intros ->. simpl in Hchain. by rewrite bool_decide_eq_true_2 in Hchain. }
    rewrite list_lookup_insert_ne by done.
    unfold own_value, props_of in Hw. destruct (h !! P) as [oP|]; [|done].
    simpl in Hw. by destruct (own_prop (KString key) (own_props oP)) as [q|]; simplify_eq/=.
Qed.

Lemma unsafeMerge_replaces_prototype_witness :
  let p := Prop_ (KString "__proto__") (VObject 2) true in
  attack !! 0 = Some (JsObject ObjectPrototype []) ∧
  attack !! 1 = Some (JsObject ObjectPrototype [p]) ∧ 0 ≠ 1 ∧
  (∀ l', ObjectPrototype ≠ ProtoObj l') ∧ NoDup (p_key <$> [p]) ∧ length [p] < 2 ∧
  on_proto_chain 2 attack 0 (ProtoObj 2) = Some false ∧
  ∃ props',
    unsafeMerge 2 (VObject 0) (VObject 1) (State attack ∅) =
      Some (Normal (VObject 0), State (<[0 := JsObject (ProtoObj 2) props']> attack) ∅) ∧
    own_prop (KString "__proto__") props' = None ∧
    ∀ key w m, own_prop (KString key) props' = None →
               own_value attack (VObject 2) (KString key) = Some w →
               lookup (S (S m)) (<[0 := JsObject (ProtoObj 2) props']> attack) (VObject 0) key
               = Some (Found w).
Proof.
  intros p.
  assert (0 ≠ 1) as Hne by discriminate.
  assert (∀ l', ObjectPrototype ≠ ProtoObj l') as Hproto by (intros l'; discriminate).
  assert (NoDup (p_key <$> [p])) as Hnd by compute_done.
  assert (length [p] < 2) as Hn by (simpl; lia).
  split; [reflexivity|]. split; [reflexivity|]. split; [exact Hne|].
  split; [exact Hproto|]. split; [exact Hnd|]. split; [exact Hn|].
  split; [reflexivity|].
  exact (unsafeMerge_replaces_prototype 2 0 1 2 attack ∅ [] [p] ObjectPrototype p
           eq_refl eq_refl eq_refl Hne Hproto Hnd Hn eq_refl eq_refl eq_refl eq_refl).
Defined.


